(** * Reacher: the application pipeline engine, embedded and verified

    A shallow embedding of the pipeline core of the Reacher job-application
    agent (modules [src/models.py], [src/db.py], [src/email_finder.py],
    [src/agent.py], the draft commands of [src/cli.py] and the tests on
    text of the scrapers).

    Conventions of the embedding.
    - A Python [str] is a [string]; the text is taken to be ASCII, where
      [str.lower] maps [A-Z] to [a-z] and [str.strip] removes the characters
      for which [str.isspace] holds.
    - A Python [int] is a [Z].
    - A timestamp is the ISO-8601 text that [datetime.isoformat] produces,
      which is what the SQLite tables store (columns of type TEXT).
    - A table is the list of its rows in insertion order.
    - A Python [set] of strings is a [gset string]; a [dict] whose iteration
      order matters is an association list in insertion order. *)

From Stdlib Require Import ZArith Ascii String Lia.
From stdpp Require Import base list strings gmap sorting.

Local Open Scope Z_scope.

(** ** Python string primitives (ASCII text) *)
Module PyStr.

Definition code (c : ascii) : N := N_of_ascii c.

Definition in_range (lo hi : N) (c : ascii) : bool :=
  ((lo <=? code c) && (code c <=? hi))%N.

Definition is_upper (c : ascii) : bool := in_range 65 90 c.
Definition is_lower (c : ascii) : bool := in_range 97 122 c.
Definition is_alpha (c : ascii) : bool := is_upper c || is_lower c.
Definition is_digit (c : ascii) : bool := in_range 48 57 c.
Definition is_alnum (c : ascii) : bool := is_alpha c || is_digit c.

(** [str.isspace] on ASCII: TAB, LF, VT, FF, CR, FS, GS, RS, US, SPACE. *)
Definition isspace (c : ascii) : bool :=
  in_range 9 13 c || in_range 28 32 c.

Definition lower_char (c : ascii) : ascii :=
  if is_upper c then ascii_of_N (code c + 32) else c.

(** [s.lower()] *)
Fixpoint lower (s : string) : string :=
  match s with
  | EmptyString => EmptyString
  | String c s' => String (lower_char c) (lower s')
  end.

(** [s.startswith(p)] *)
Fixpoint startswith (p s : string) : bool :=
  match p, s with
  | EmptyString, _ => true
  | String _ _, EmptyString => false
  | String a p', String b s' =>
      if Ascii.eqb a b then startswith p' s' else false
  end.

(** [sub in s] for two strings. *)
Fixpoint str_in (sub s : string) : bool :=
  startswith sub s ||
  match s with
  | EmptyString => false
  | String _ s' => str_in sub s'
  end.

(** [s.endswith(p)] *)
Definition endswith (p s : string) : bool :=
  startswith (String.rev p) (String.rev s).

(** [s.lstrip()], [s.rstrip()], [s.strip()] *)
Fixpoint lstrip (s : string) : string :=
  match s with
  | EmptyString => EmptyString
  | String c s' => if isspace c then lstrip s' else s
  end.

Definition rstrip (s : string) : string :=
  String.rev (lstrip (String.rev s)).

Definition strip (s : string) : string := rstrip (lstrip s).

(** [s.lstrip(chars)]: drop leading characters that occur in [chars]. *)
Fixpoint lstrip_chars (chars : list ascii) (s : string) : string :=
  match s with
  | EmptyString => EmptyString
  | String c s' =>
      if bool_decide (c ∈ chars) then lstrip_chars chars s' else s
  end.

(** [s.split(sep)] for a one-character separator: the pieces between
    the occurrences of [sep], at least one piece. *)
Fixpoint split (sep : ascii) (s : string) : list string :=
  match s with
  | EmptyString => [EmptyString]
  | String c s' =>
      if Ascii.eqb c sep then EmptyString :: split sep s'
      else match split sep s' with
           | [] => [String c EmptyString]
           | p :: ps => String c p :: ps
           end
  end.

(** [len(s)] *)
Definition len (s : string) : Z := Z.of_nat (String.length s).

(** [s[:n]] and [s[n:]] for [0 <= n]. *)
Fixpoint slice_to (n : nat) (s : string) : string :=
  match n, s with
  | S n', String c s' => String c (slice_to n' s')
  | _, _ => EmptyString
  end.

Fixpoint slice_from (n : nat) (s : string) : string :=
  match n, s with
  | S n', String _ s' => slice_from n' s'
  | _, _ => s
  end.

(** [any(kw in s for kw in kws)] *)
Definition any_in (kws : list string) (s : string) : bool :=
  existsb (fun kw => str_in kw s) kws.

(** Truthiness of a string: non-empty. *)
Definition nonempty (s : string) : bool :=
  match s with EmptyString => false | _ => true end.

End PyStr.

(** ** [src/models.py] *)
Module Models.

Inductive JobSource := LINKEDIN | TWITTER.

Definition JobSource_value (s : JobSource) : string :=
  match s with LINKEDIN => "linkedin" | TWITTER => "twitter" end.

(** [JobSource(text)]: the member with that value, [None] standing for
    the [ValueError] raised on any other text. *)
Definition JobSource_of_value (t : string) : option JobSource :=
  if bool_decide (t = "linkedin") then Some LINKEDIN
  else if bool_decide (t = "twitter") then Some TWITTER
  else None.

Record Job := {
  title : string;
  company : string;
  location : string;
  description : string;
  application_email : string;
  application_url : string;
  source : JobSource;
  source_id : string;
  source_url : string;
  posted_at : option string;
  discovered_at : string
}.

(** [Job.unique_key] *)
Definition unique_key (j : Job) : string :=
  if PyStr.nonempty (source_id j)
  then JobSource_value (source j) +:+ ":" +:+ source_id j
  else PyStr.lower
         (JobSource_value (source j) +:+ ":" +:+ title j +:+ ":" +:+ company j).

Record Application := {
  job_title : string;
  app_company : string;
  recipient_email : string;
  subject : string;
  body : string;
  app_source : JobSource;
  app_source_url : string;
  sent_at : string;
  app_status : string
}.

Record LimitsConfig := {
  max_applications_per_run : Z;
  max_applications_per_day : Z
}.

End Models.

(** ** [src/db.py]: the record store *)
Module Db.
Import Models.

(** What a call hands back to Python when the embedded result is not a
    plain value of one type: [None] or a boolean. *)
Inductive pyval := PyNone | PyBool (b : bool).

Definition truthy (v : pyval) : bool :=
  match v with PyNone => false | PyBool b => b end.

Record SeenRow := {
  s_unique_key : string;
  s_title : string;
  s_company : string;
  s_location : string;
  s_description : string;
  s_application_email : string;
  s_source : string;
  s_source_id : string;
  s_source_url : string;
  s_discovered_at : string
}.

Record AppRow := {
  a_id : Z;
  a_job_title : string;
  a_company : string;
  a_recipient_email : string;
  a_subject : string;
  a_body : string;
  a_source : string;
  a_source_url : string;
  a_sent_at : string;
  a_status : string
}.

Record DraftRow := {
  d_id : Z;
  d_job_unique_key : string;
  d_job_title : string;
  d_company : string;
  d_location : string;
  d_recipient_email : string;
  d_subject : string;
  d_body : string;
  d_source : string;
  d_source_url : string;
  d_created_at : string;
  d_status : string
}.

(** The three tables, rows in insertion order, and the two AUTOINCREMENT
    sequences (the largest id handed out so far). *)
Record DB := {
  seen_jobs : list SeenRow;
  applications : list AppRow;
  drafts : list DraftRow;
  applications_seq : Z;
  drafts_seq : Z
}.

Definition empty_db : DB :=
  {| seen_jobs := []; applications := []; drafts := [];
     applications_seq := 0; drafts_seq := 0 |}.

(** [init_db]: every table is created only if it does not exist, so a
    store that has its tables is left as it is. *)
Definition init_db (db : DB) : DB := db.

Definition set_seen_jobs (rows : list SeenRow) (db : DB) : DB :=
  {| seen_jobs := rows; applications := applications db;
     drafts := drafts db; applications_seq := applications_seq db;
     drafts_seq := drafts_seq db |}.

Definition set_drafts (rows : list DraftRow) (db : DB) : DB :=
  {| seen_jobs := seen_jobs db; applications := applications db;
     drafts := rows; applications_seq := applications_seq db;
     drafts_seq := drafts_seq db |}.

(** SQLite compares TEXT values byte by byte. *)
Definition text_ge (a b : string) : bool := String.leb b a.

Definition seen_row_of (job : Job) : SeenRow :=
  {| s_unique_key := unique_key job;
     s_title := title job;
     s_company := company job;
     s_location := location job;
     s_description := description job;
     s_application_email := application_email job;
     s_source := JobSource_value (source job);
     s_source_id := source_id job;
     s_source_url := source_url job;
     s_discovered_at := discovered_at job |}.

(** [SELECT 1 FROM seen_jobs WHERE unique_key = ?] *)
Definition is_job_seen (job : Job) (db : DB) : bool :=
  existsb (fun r => bool_decide (s_unique_key r = unique_key job))
          (seen_jobs db).

(** [INSERT OR IGNORE INTO seen_jobs ...]: the row is added unless a
    row with the same primary key exists; the function returns [None]. *)
Definition mark_job_seen (job : Job) (db : DB) : pyval * DB :=
  if existsb (fun r => bool_decide (s_unique_key r = unique_key job))
             (seen_jobs db)
  then (PyNone, db)
  else (PyNone, set_seen_jobs (seen_jobs db ++ [seen_row_of job]) db).

Definition app_row_of (id : Z) (app : Application) : AppRow :=
  {| a_id := id;
     a_job_title := job_title app;
     a_company := app_company app;
     a_recipient_email := recipient_email app;
     a_subject := subject app;
     a_body := body app;
     a_source := JobSource_value (app_source app);
     a_source_url := app_source_url app;
     a_sent_at := sent_at app;
     a_status := app_status app |}.

(** [INSERT INTO applications ...] *)
Definition log_application (app : Application) (db : DB) : DB :=
  let id := applications_seq db + 1 in
  {| seen_jobs := seen_jobs db;
     applications := applications db ++ [app_row_of id app];
     drafts := drafts db;
     applications_seq := id;
     drafts_seq := drafts_seq db |}.

(** [utcnow().replace(hour=0, minute=0, second=0, microsecond=0).isoformat()]
    computed on the ISO text [now] of [utcnow()]. *)
Definition today_start (now : string) : string :=
  PyStr.slice_to 10 now +:+ "T00:00:00".

(** [SELECT COUNT( * ) FROM applications WHERE sent_at >= ?] *)
Definition get_applications_today (now : string) (db : DB) : Z :=
  Z.of_nat (length (filter (fun a => text_ge (a_sent_at a) (today_start now) = true)
                           (applications db))).

(** [get_contacted_companies] *)
Definition get_contacted_companies (db : DB) : gset string :=
  let app_companies := (fun a => PyStr.lower (a_company a)) <$> applications db in
  let draft_companies :=
    (fun d => PyStr.lower (d_company d)) <$>
    filter (fun d => d_status d ≠ "discarded") (drafts db) in
  list_to_set app_companies ∪ list_to_set draft_companies.

(** [get_sent_companies] *)
Definition get_sent_companies (db : DB) : gset string :=
  list_to_set ((fun a => PyStr.lower (a_company a)) <$> applications db).

(** [ORDER BY key DESC] on a TEXT column. *)
Definition desc_by {A} (key : A → string) (x y : A) : Prop :=
  String.le (key y) (key x).

Global Instance desc_by_dec {A} (key : A → string) : RelDecision (desc_by key).
Proof. intros x y. unfold desc_by. apply _. Defined.

Definition order_by_desc {A} (key : A → string) (rows : list A) : list A :=
  merge_sort (desc_by key) rows.

Definition has_application (s : SeenRow) (db : DB) : bool :=
  existsb (fun a => bool_decide (a_job_title a = s_title s)
                    && bool_decide (a_company a = s_company s))
          (applications db).

Definition has_draft (s : SeenRow) (db : DB) : bool :=
  existsb (fun d => bool_decide (d_job_unique_key d = s_unique_key s))
          (drafts db).

Definition pending_row (db : DB) (s : SeenRow) : bool :=
  PyStr.nonempty (s_application_email s)
  && negb (has_application s db)
  && negb (has_draft s db).

(** [get_pending_jobs] *)
Definition get_pending_jobs (db : DB) : list SeenRow :=
  order_by_desc s_discovered_at
    (filter (fun s => pending_row db s = true) (seen_jobs db)).

(** [save_draft]: [now] is the ISO text of [utcnow()] read by the call. *)
Definition save_draft (job_unique_key job_title company location
    recipient_email subject body source source_url : string)
    (now : string) (db : DB) : Z * DB :=
  let id := drafts_seq db + 1 in
  let row :=
    {| d_id := id; d_job_unique_key := job_unique_key;
       d_job_title := job_title; d_company := company;
       d_location := location; d_recipient_email := recipient_email;
       d_subject := subject; d_body := body; d_source := source;
       d_source_url := source_url; d_created_at := now;
       d_status := "pending" |} in
  (id, {| seen_jobs := seen_jobs db; applications := applications db;
          drafts := drafts db ++ [row];
          applications_seq := applications_seq db; drafts_seq := id |}).

(** [get_drafts]: a status of [None] or of the empty string selects all. *)
Definition get_drafts (status : option string) (db : DB) : list DraftRow :=
  match status with
  | Some st =>
      if PyStr.nonempty st
      then order_by_desc d_created_at
             (filter (fun d => d_status d = st) (drafts db))
      else order_by_desc d_created_at (drafts db)
  | None => order_by_desc d_created_at (drafts db)
  end.

(** [get_draft_by_id] *)
Definition get_draft_by_id (draft_id : Z) (db : DB) : option DraftRow :=
  head (filter (fun d => d_id d = draft_id) (drafts db)).

Definition with_status (status : string) (d : DraftRow) : DraftRow :=
  {| d_id := d_id d; d_job_unique_key := d_job_unique_key d;
     d_job_title := d_job_title d; d_company := d_company d;
     d_location := d_location d; d_recipient_email := d_recipient_email d;
     d_subject := d_subject d; d_body := d_body d; d_source := d_source d;
     d_source_url := d_source_url d; d_created_at := d_created_at d;
     d_status := status |}.

Definition with_content (subject body : string) (d : DraftRow) : DraftRow :=
  {| d_id := d_id d; d_job_unique_key := d_job_unique_key d;
     d_job_title := d_job_title d; d_company := d_company d;
     d_location := d_location d; d_recipient_email := d_recipient_email d;
     d_subject := subject; d_body := body; d_source := d_source d;
     d_source_url := d_source_url d; d_created_at := d_created_at d;
     d_status := d_status d |}.

(** [UPDATE drafts SET ... WHERE id = ?]: the rows changed and their
    number ([cursor.rowcount]). *)
Definition update_where_id (f : DraftRow → DraftRow) (draft_id : Z)
    (rows : list DraftRow) : list DraftRow :=
  (fun d => if bool_decide (d_id d = draft_id) then f d else d) <$> rows.

Definition rowcount (draft_id : Z) (rows : list DraftRow) : Z :=
  Z.of_nat (length (filter (fun d => d_id d = draft_id) rows)).

(** [update_draft_status] *)
Definition update_draft_status (draft_id : Z) (status : string) (db : DB)
    : bool * DB :=
  (0 <? rowcount draft_id (drafts db),
   set_drafts (update_where_id (with_status status) draft_id (drafts db)) db).

(** [update_draft_content] *)
Definition update_draft_content (draft_id : Z) (subject body : string)
    (db : DB) : bool * DB :=
  (0 <? rowcount draft_id (drafts db),
   set_drafts (update_where_id (with_content subject body) draft_id (drafts db)) db).

(** [delete_draft] *)
Definition delete_draft (draft_id : Z) (db : DB) : bool * DB :=
  (0 <? rowcount draft_id (drafts db),
   set_drafts (filter (fun d => d_id d ≠ draft_id) (drafts db)) db).

(** The columns [get_stats] and [get_recent_applications] select. *)
Record RecentRow := {
  r_job_title : string;
  r_company : string;
  r_recipient_email : string;
  r_sent_at : string;
  r_status : string
}.

Definition recent_row_of (a : AppRow) : RecentRow :=
  {| r_job_title := a_job_title a; r_company := a_company a;
     r_recipient_email := a_recipient_email a; r_sent_at := a_sent_at a;
     r_status := a_status a |}.

(** [LIMIT n]: the first [n] rows; SQLite sets no upper bound when [n]
    is negative. *)
Definition limit_rows {A} (n : Z) (rows : list A) : list A :=
  if n <? 0 then rows else take (Z.to_nat n) rows.

(** [get_recent_applications] *)
Definition get_recent_applications (limit : Z) (db : DB) : list RecentRow :=
  recent_row_of <$> limit_rows limit (order_by_desc a_sent_at (applications db)).



End Db.

(** ** Effects: state threaded through calls, and raised exceptions *)
Module Eff.

Inductive outcome (A : Type) : Type :=
| Return (a : A)
| Raise (e : string).
Global Arguments Return {A} a.
Global Arguments Raise {A} e.

Definition M (S A : Type) : Type := S → outcome A * S.

Definition ret {S A} (a : A) : M S A := fun s => (Return a, s).

Definition bind {S A B} (m : M S A) (k : A → M S B) : M S B :=
  fun s =>
    match m s with
    | (Return a, s') => k a s'
    | (Raise e, s') => (Raise e, s')
    end.

Definition raise {S A} (e : string) : M S A := fun s => (Raise e, s).

End Eff.

Notation "x <- m ;; k" := (Eff.bind m (fun x => k))
  (at level 62, m at next level, right associativity).

(** ** [src/email_finder.py]: the email discovery cascade *)
Module EmailFinder.
Import PyStr Eff.

(** *** The regular expression [EMAIL_PATTERN]

    A pattern is a sequence of atoms: a literal character, or a
    character class repeated at least [n] times, greedily. *)
Inductive atom :=
| Lit (c : ascii)
| AtLeast (n : nat) (cls : ascii → bool).

(** Greedy repetition with backtracking: take one more character of the
    class first; when what follows then fails, stop here, provided the
    lower bound is reached, and continue with [k]. Results count the
    characters matched. *)
Fixpoint greedy (cls : ascii → bool) (k : string → option nat)
    (n : nat) (s : string) : option nat :=
  let stop := match n with O => k s | S _ => None end in
  match s with
  | EmptyString => stop
  | String a s' =>
      if cls a then
        match greedy cls k (Nat.pred n) s' with
        | Some m => Some (S m)
        | None => stop
        end
      else stop
  end.

(** The length of the match of [p] at the start of [s]. *)
Fixpoint match_at (p : list atom) : string → option nat :=
  match p with
  | [] => fun _ => Some O
  | Lit c :: p' => fun s =>
      match s with
      | EmptyString => None
      | String a s' => if Ascii.eqb a c then S <$> match_at p' s' else None
      end
  | AtLeast n cls :: p' => greedy cls (match_at p') n
  end.

(** [re.findall]: the matches, leftmost first, not overlapping. [skip]
    counts the characters of the last match still to pass. The patterns
    used here match no empty string. *)
Fixpoint findall_from (p : list atom) (skip : nat) (s : string) : list string :=
  match s with
  | EmptyString => []
  | String _ s' =>
      match skip with
      | S n => findall_from p n s'
      | O =>
          match match_at p s with
          | Some m => slice_to m s :: findall_from p (Nat.pred m) s'
          | None => findall_from p 0 s'
          end
      end
  end.

Definition findall (p : list atom) (s : string) : list string :=
  findall_from p 0 s.

Definition one_of (chars : string) (c : ascii) : bool :=
  bool_decide (c ∈ list_ascii_of_string chars).

(** [[a-zA-Z0-9._%+\-]+@[a-zA-Z0-9.\-]+\.[a-zA-Z]{2,}] *)
Definition EMAIL_PATTERN : list atom :=
  [ AtLeast 1 (fun c => is_alnum c || one_of "._%+-" c);
    Lit "@";
    AtLeast 1 (fun c => is_alnum c || one_of ".-" c);
    Lit ".";
    AtLeast 2 is_alpha ].

Definition SKIP_DOMAINS : gset string :=
  list_to_set
    [ "example.com"; "test.com"; "linkedin.com"; "licdn.com";
      "facebook.com"; "twitter.com"; "x.com"; "google.com";
      "googleapis.com"; "github.com"; "githubusercontent.com";
      "sentry.io"; "gravatar.com"; "wp.com"; "wordpress.com";
      "w3.org"; "schema.org"; "cloudflare.com"; "amazonaws.com";
      "gstatic.com"; "bootstrapcdn.com"; "jquery.com" ].

Definition SKIP_PREFIXES : gset string :=
  list_to_set
    [ "noreply"; "no-reply"; "donotreply"; "do-not-reply";
      "mailer-daemon"; "postmaster"; "webmaster"; "admin";
      "support"; "abuse"; "security"; "privacy" ].

Definition COMMON_HR_PREFIXES : list string :=
  [ "hr"; "careers"; "jobs"; "hiring"; "recruiting";
    "recruitment"; "talent"; "apply"; "career"; "people" ].

Definition CAREER_PATHS : list string :=
  [ "/careers"; "/jobs"; "/contact"; "/about";
    "/contact-us"; "/about-us"; "/work-with-us";
    "/join-us"; "/join"; "/hiring" ].

(** [s.split("@")[0]] and [s.split("@")[-1]] *)
Definition before_first_at (s : string) : string :=
  default EmptyString (head (split "@" s)).
Definition after_last_at (s : string) : string :=
  default EmptyString (last (split "@" s)).

(** [_is_valid_email] *)
Definition _is_valid_email (email : string) : bool :=
  let lower := lower email in
  let domain := if str_in "@" lower then after_last_at lower else EmptyString in
  let prefix := if str_in "@" lower then before_first_at lower else EmptyString in
  if bool_decide (domain ∈ SKIP_DOMAINS) then false
  else if bool_decide (prefix ∈ SKIP_PREFIXES) then false
  else if endswith ".png" domain || endswith ".jpg" domain
          || endswith ".gif" domain then false
  else if 80 <? len email then false
  else true.

(** [_extract_emails_from_text] *)
Definition _extract_emails_from_text (text : string) : list string :=
  List.filter _is_valid_email (findall EMAIL_PATTERN text).

(** [_rank_emails] *)
Definition is_hr (email : string) : bool :=
  any_in COMMON_HR_PREFIXES (lower (before_first_at email)).

Definition _rank_emails (emails : list string) : list string :=
  match emails with
  | [] => []
  | _ =>
      let hr_emails := List.filter is_hr emails in
      let other_emails := List.filter (fun e => negb (is_hr e)) emails in
      hr_emails ++ other_emails
  end.

(** [_generate_common_patterns] *)
Definition _generate_common_patterns (domain : string) : list string :=
  (fun prefix => prefix +:+ "@" +:+ domain) <$> take 6 COMMON_HR_PREFIXES.

(** *** Pages and the network

    What the code reads off a parsed page: the anchors that carry an
    [href], in document order, each with its stripped text; the text of
    the page; and the anchors inside the description block
    ([div.show-more-less-html__markup]), when the page has one. *)
Record Anchor := { href : string; anchor_text : string }.

Record Soup := {
  anchors : list Anchor;
  page_text : string;
  desc_anchors : option (list Anchor)
}.

Section Cascade.
(** The outside of the module: the reply to the [n]-th request of a
    run ([None]: a status other than 200, or a transport failure),
    [urllib.parse.urlparse] (scheme and netloc of a URL), and the order
    in which Python lists the elements of a set, given the elements in
    the order they were added. *)
Variable http_get : nat → string → option Soup.
Variable urlparse : string → string * string.
Variable list_of_set : list string → list string.

(** The state: the URLs requested so far. *)
Definition Net := list string.

(** [_fetch_page] *)
Definition _fetch_page (url : string) : M Net (option Soup) :=
  fun log => (Return (http_get (length log) url), log ++ [url]).

(** [_extract_emails_from_soup] *)
Definition mailto_addr (a : Anchor) : option string :=
  if startswith "mailto:" (href a)
  then
    let addr :=
      strip (default EmptyString (head (split "?" (slice_from 7 (href a))))) in
    if _is_valid_email addr then Some (lower addr) else None
  else None.

Definition _extract_emails_from_soup (soup : Soup) : list string :=
  let from_links := omap mailto_addr (anchors soup) in
  let from_text := lower <$> _extract_emails_from_text (page_text soup) in
  list_of_set (from_links ++ from_text).

(** [_get_company_website_from_linkedin] *)
Definition website_link (a : Anchor) : bool :=
  any_in ["website"; "our site"; "company site"; "visit us"]
         (lower (anchor_text a))
  && negb (str_in "linkedin.com" (href a)).

Definition external_link (a : Anchor) : bool :=
  let scheme := fst (urlparse (href a)) in
  (bool_decide (scheme = "http") || bool_decide (scheme = "https"))
  && negb (str_in "linkedin.com" (href a)).

Definition _get_company_website_from_linkedin (company_name : string)
    (job_page_soup : option Soup) : string :=
  match job_page_soup with
  | None => EmptyString
  | Some soup =>
      match List.find website_link (anchors soup) with
      | Some a => href a
      | None =>
          match desc_anchors soup with
          | Some links =>
              match List.find external_link links with
              | Some a =>
                  let parsed := urlparse (href a) in
                  fst parsed +:+ "://" +:+ snd parsed
              | None => EmptyString
              end
          | None => EmptyString
          end
      end
  end.

(** [_scrape_website_for_emails]: the loop over [pages_to_check],
    carrying [checked], [visited] and [emails]. *)
Fixpoint scrape_pages (max_pages : Z) (pages : list string)
    (checked : Z) (visited : gset string) (emails : list string)
    : M Net (list string) :=
  match pages with
  | [] => ret emails
  | page_url :: rest =>
      if max_pages <=? checked then ret emails
      else if bool_decide (page_url ∈ visited)
      then scrape_pages max_pages rest checked visited emails
      else
        soup <- _fetch_page page_url ;;
        match soup with
        | None =>
            scrape_pages max_pages rest checked ({[page_url]} ∪ visited) emails
        | Some sp =>
            let emails' := emails ++ _extract_emails_from_soup sp in
            match emails' with
            | [] => scrape_pages max_pages rest (checked + 1)
                      ({[page_url]} ∪ visited) emails'
            | _ => ret emails'
            end
        end
  end.

Definition _scrape_website_for_emails (base_url : string) (max_pages : Z)
    : M Net (list string) :=
  let parsed_base := urlparse base_url in
  let base_domain := fst parsed_base +:+ "://" +:+ snd parsed_base in
  let pages_to_check :=
    base_domain :: ((fun path => base_domain +:+ path) <$> CAREER_PATHS) in
  emails <- scrape_pages max_pages pages_to_check 0 ∅ [] ;;
  ret (list_of_set emails).

(** [re.sub] with the pattern [[^a-zA-Z0-9]] and an empty replacement:
    the letters and digits of [s]. *)
Fixpoint keep_alnum (s : string) : string :=
  match s with
  | EmptyString => EmptyString
  | String c s' => if is_alnum c then String c (keep_alnum s') else keep_alnum s'
  end.

(** Strategies 3 and 4 of [find_application_email]: the company
    website, then the common patterns on its domain. *)
Definition website_strategies (company_name : string)
    (job_page_soup : option Soup) : M Net string :=
  let company_website :=
    _get_company_website_from_linkedin company_name job_page_soup in
  company_website <-
    (if negb (nonempty company_website) && nonempty company_name
     then
       let clean_name := keep_alnum (lower company_name) in
       if nonempty clean_name
       then
         let guessed := "https://www." +:+ clean_name +:+ ".com" in
         soup <- _fetch_page guessed ;;
         match soup with
         | Some _ => ret guessed
         | None => ret company_website
         end
       else ret company_website
     else ret company_website) ;;
  if nonempty company_website
  then
    site_emails <- _scrape_website_for_emails company_website 4 ;;
    let patterns_strategy : M Net string :=
      let domain := lstrip_chars (list_ascii_of_string "www.")
                      (snd (urlparse company_website)) in
      if nonempty domain && str_in "." domain
      then ret (default EmptyString (head (_generate_common_patterns domain)))
      else ret EmptyString in
    match site_emails with
    | _ :: _ =>
        match _rank_emails site_emails with
        | e :: _ => ret e
        | [] => patterns_strategy
        end
    | [] => patterns_strategy
    end
  else ret EmptyString.

(** Strategy 2 of [find_application_email]: the job page. *)
Definition page_strategy (company_name : string)
    (job_page_soup : option Soup) : M Net string :=
  match job_page_soup with
  | Some soup =>
      let page_emails := _extract_emails_from_soup soup in
      match page_emails with
      | _ :: _ =>
          match _rank_emails page_emails with
          | e :: _ => ret e
          | [] => website_strategies company_name job_page_soup
          end
      | [] => website_strategies company_name job_page_soup
      end
  | None => website_strategies company_name job_page_soup
  end.

(** [find_application_email] *)
Definition find_application_email (job_description job_url company_name : string)
    (job_page_soup : option Soup) : M Net string :=
  let desc_emails := _extract_emails_from_text job_description in
  match desc_emails with
  | _ :: _ =>
      match _rank_emails desc_emails with
      | e :: _ => ret e
      | [] => page_strategy company_name job_page_soup
      end
  | [] => page_strategy company_name job_page_soup
  end.

End Cascade.

End EmailFinder.

(** ** [src/agent.py]: scoring and selection *)
Module Agent.
Import PyStr Models Db.

Definition JS_KEYWORDS : list string :=
  [ "javascript"; "typescript"; "js "; "ts "; "react"; "node.js";
    "nodejs"; "next.js"; "nextjs"; "nestjs" ].
Definition FULL_STACK_KEYWORDS : list string :=
  [ "full stack"; "fullstack"; "full-stack" ].
Definition FRONTEND_KEYWORDS : list string :=
  [ "frontend"; "front-end"; "front end" ].
Definition BACKEND_KEYWORDS : list string :=
  [ "backend"; "back-end"; "back end" ].

(** [_job_priority_score] *)
Definition _job_priority_score (job : Job) : Z :=
  let title := lower (title job) in
  let desc := lower (description job) in
  let combined := title +:+ " " +:+ desc in
  let score := 0 in
  let score := if any_in JS_KEYWORDS combined then score + 100 else score in
  let score :=
    if any_in FULL_STACK_KEYWORDS title then score + 50
    else if any_in FRONTEND_KEYWORDS title then score + 30
    else if any_in BACKEND_KEYWORDS title then score + 20
    else score in
  let score := if str_in "react native" combined then score + 40 else score in
  score.

(** An element of the list given to [_pick_best_per_company]: a [Job]
    object, or a row of [seen_jobs] as a [dict]. *)
Inductive job_or_row :=
| IsJob (job : Job)
| IsRow (row : SeenRow).

(** A [Job] built from keyword arguments, the other fields at their
    defaults ([discovered_at], which no caller of such a job reads, is
    left empty). *)
Definition Job_of (title company description : string) (source : JobSource) : Job :=
  {| title := title; company := company; location := EmptyString;
     description := description; application_email := EmptyString;
     application_url := EmptyString; source := source; source_id := EmptyString;
     source_url := EmptyString; posted_at := None; discovered_at := EmptyString |}.

Definition company_key_of (job : job_or_row) : string :=
  match job with
  | IsRow row => lower (strip (s_company row))
  | IsJob job => lower (strip (company job))
  end.

Definition score_of (job : job_or_row) : Z :=
  match job with
  | IsRow row =>
      let temp_job := Job_of (s_title row) (s_company row) (s_description row) LINKEDIN in
      _job_priority_score temp_job
  | IsJob job => _job_priority_score job
  end.

(** A [dict] keyed by strings, in insertion order: assigning to a key
    that is present replaces its value in place. *)
Fixpoint dict_get {V} (k : string) (d : list (string * V)) : option V :=
  match d with
  | [] => None
  | (k', v) :: d' => if bool_decide (k' = k) then Some v else dict_get k d'
  end.

Fixpoint dict_set {V} (k : string) (v : V) (d : list (string * V)) : list (string * V) :=
  match d with
  | [] => [(k, v)]
  | (k', v') :: d' =>
      if bool_decide (k' = k) then (k, v) :: d' else (k', v') :: dict_set k v d'
  end.

(** One turn of the loop of [_pick_best_per_company]. *)
Definition pick_step (contacted_companies : gset string)
    (by_company : list (string * (job_or_row * Z))) (job : job_or_row)
    : list (string * (job_or_row * Z)) :=
  let company_key := company_key_of job in
  let score := score_of job in
  if bool_decide (company_key ∈ contacted_companies) then by_company
  else
    match dict_get company_key by_company with
    | None => dict_set company_key (job, score) by_company
    | Some entry =>
        if snd entry <? score
        then dict_set company_key (job, score) by_company
        else by_company
    end.

(** [_pick_best_per_company] *)
Definition _pick_best_per_company (jobs : list job_or_row)
    (contacted_companies : gset string) : list job_or_row :=
  let by_company := fold_left (pick_step contacted_companies) jobs [] in
  (fun entry => fst (snd entry)) <$> by_company.

(** *** The workflows

    [AppConfig]: the limits are what the orchestrator itself reads; the
    rest of the configuration only reaches the collaborators. *)
Record AppConfig := { limits : LimitsConfig }.

(** A call of [send_application_email] and what it returned. *)
Record Attempt := {
  to_email : string;
  att_subject : string;
  att_body : string;
  delivered : bool
}.

(** The state a workflow runs in: the store, how often the clock and the
    content generator were consulted, and the delivery attempts made. *)
Record World := {
  db : DB;
  clock_reads : nat;
  llm_calls : nat;
  outbox : list Attempt
}.

Definition set_db (d : DB) (w : World) : World :=
  {| db := d; clock_reads := clock_reads w; llm_calls := llm_calls w;
     outbox := outbox w |}.

(** The summary of [run_agent]. *)
Record RunSummary := {
  started_at : string;
  jobs_found : Z;
  jobs_new : Z;
  jobs_with_email : Z;
  jobs_no_email : Z;
  applications_sent : Z;
  applications_failed : Z;
  dry_run : bool
}.

Definition sent_incr (s : RunSummary) : RunSummary :=
  {| started_at := started_at s; jobs_found := jobs_found s;
     jobs_new := jobs_new s; jobs_with_email := jobs_with_email s;
     jobs_no_email := jobs_no_email s;
     applications_sent := applications_sent s + 1;
     applications_failed := applications_failed s; dry_run := dry_run s |}.

Definition failed_incr (s : RunSummary) : RunSummary :=
  {| started_at := started_at s; jobs_found := jobs_found s;
     jobs_new := jobs_new s; jobs_with_email := jobs_with_email s;
     jobs_no_email := jobs_no_email s;
     applications_sent := applications_sent s;
     applications_failed := applications_failed s + 1; dry_run := dry_run s |}.

(** The summary of [send_pending]. *)
Record PendingSummary := {
  pending_found : Z;
  p_applications_sent : Z;
  p_applications_failed : Z;
  p_dry_run : bool
}.

Definition p_sent_incr (s : PendingSummary) : PendingSummary :=
  {| pending_found := pending_found s;
     p_applications_sent := p_applications_sent s + 1;
     p_applications_failed := p_applications_failed s;
     p_dry_run := p_dry_run s |}.

Definition p_failed_incr (s : PendingSummary) : PendingSummary :=
  {| pending_found := pending_found s;
     p_applications_sent := p_applications_sent s;
     p_applications_failed := p_applications_failed s + 1;
     p_dry_run := p_dry_run s |}.

(** The summary of [send_approved_drafts]. *)
Record DraftsSummary := {
  drafts_found : Z;
  d_applications_sent : Z;
  d_applications_failed : Z;
  d_dry_run : bool
}.

Definition d_sent_incr (s : DraftsSummary) : DraftsSummary :=
  {| drafts_found := drafts_found s;
     d_applications_sent := d_applications_sent s + 1;
     d_applications_failed := d_applications_failed s;
     d_dry_run := d_dry_run s |}.

Definition d_failed_incr (s : DraftsSummary) : DraftsSummary :=
  {| drafts_found := drafts_found s;
     d_applications_sent := d_applications_sent s;
     d_applications_failed := d_applications_failed s + 1;
     d_dry_run := d_dry_run s |}.

Definition set_drafts_found (n : Z) (s : DraftsSummary) : DraftsSummary :=
  {| drafts_found := n;
     d_applications_sent := d_applications_sent s;
     d_applications_failed := d_applications_failed s;
     d_dry_run := d_dry_run s |}.

(** The summary of [generate_drafts]. *)
Record DraftingSummary := {
  g_pending_found : Z;
  drafts_created : Z
}.

Definition created_incr (s : DraftingSummary) : DraftingSummary :=
  {| g_pending_found := g_pending_found s;
     drafts_created := drafts_created s + 1 |}.

Section Workflows.
Import Eff.

(** The collaborators: the ISO text of the [n]-th reading of
    [datetime.utcnow()], the result of the [n]-th call of the content
    generator, the result of the [n]-th delivery attempt, and the
    lists the three scrapers return. *)
Variable utcnow : nat → string.
Variable generate : nat → Job → string * string.
Variable deliver : nat → string → string → string → bool.
Variable scraped_posts scraped_linkedin scraped_twitter : list Job.

Definition utcnow_iso : M World string :=
  fun w =>
    (Return (utcnow (clock_reads w)),
     {| db := db w; clock_reads := S (clock_reads w);
        llm_calls := llm_calls w; outbox := outbox w |}).

Definition generate_application_email (job : Job) : M World (string * string) :=
  fun w =>
    (Return (generate (llm_calls w) job),
     {| db := db w; clock_reads := clock_reads w;
        llm_calls := S (llm_calls w); outbox := outbox w |}).

Definition send_application_email (to_email subject body : string) : M World bool :=
  fun w =>
    let ok := deliver (length (outbox w)) to_email subject body in
    (Return ok,
     {| db := db w; clock_reads := clock_reads w; llm_calls := llm_calls w;
        outbox := outbox w ++
          [{| to_email := to_email; att_subject := subject;
              att_body := body; delivered := ok |}] |}).

(** A store operation as a step of a workflow. *)
Definition read_db {A} (f : DB → A) : M World A :=
  fun w => (Return (f (db w)), w).
Definition write_db (f : DB → DB) : M World unit :=
  fun w => (Return tt, set_db (f (db w)) w).
Definition call_db {A} (f : DB → A * DB) : M World A :=
  fun w => let r := f (db w) in (Return (fst r), set_db (snd r) w).

Definition applications_today : M World Z :=
  now <- utcnow_iso ;; read_db (get_applications_today now).

(** [Application(...)]: [sent_at] defaults to [utcnow()], [status] to
    ["sent"]. *)
Definition new_application (job_title company recipient_email subject body : string)
    (source : JobSource) (source_url : string) : M World Application :=
  now <- utcnow_iso ;;
  ret {| job_title := job_title; app_company := company;
         recipient_email := recipient_email; subject := subject;
         body := body; app_source := source; app_source_url := source_url;
         sent_at := now; app_status := "sent" |}.

(** Step 2 of [run_agent]: the loop that sorts the scraped jobs into
    the new ones with and without an email. *)
Fixpoint filter_new (all_jobs new_with_email new_no_email : list Job)
    : M World (list Job * list Job) :=
  match all_jobs with
  | [] => ret (new_with_email, new_no_email)
  | job :: rest =>
      seen <- read_db (is_job_seen job) ;;
      if seen : bool then filter_new rest new_with_email new_no_email
      else
        _ <- call_db (mark_job_seen job) ;;
        if nonempty (application_email job)
        then filter_new rest (new_with_email ++ [job]) new_no_email
        else filter_new rest new_with_email (new_no_email ++ [job])
  end.

(** Step 3 of [run_agent]: the loop over [best_jobs], carrying
    [applied_count] and the summary. An element that is not a [Job]
    object has no attribute [title]. *)
Fixpoint apply_loop (max_this_run : Z) (dry : bool) (best_jobs : list job_or_row)
    (applied_count : Z) (summary : RunSummary) : M World RunSummary :=
  match best_jobs with
  | [] => ret summary
  | entry :: rest =>
      if max_this_run <=? applied_count then ret summary
      else
        match entry with
        | IsRow _ => raise "AttributeError"
        | IsJob job =>
            generated <- generate_application_email job ;;
            let subject := fst generated in
            let body := snd generated in
            if dry
            then apply_loop max_this_run dry rest (applied_count + 1) (sent_incr summary)
            else
              success <- send_application_email (application_email job) subject body ;;
              if success : bool
              then
                application <- new_application (title job) (company job)
                                 (application_email job) subject body
                                 (source job) (source_url job) ;;
                _ <- write_db (log_application application) ;;
                apply_loop max_this_run dry rest (applied_count + 1) (sent_incr summary)
              else
                apply_loop max_this_run dry rest applied_count (failed_incr summary)
        end
  end.

(** [run_agent] *)
Definition run_agent (config : AppConfig) (dry : bool) : M World RunSummary :=
  _ <- write_db init_db ;;
  started <- utcnow_iso ;;
  let summary :=
    {| started_at := started; jobs_found := 0; jobs_new := 0;
       jobs_with_email := 0; jobs_no_email := 0; applications_sent := 0;
       applications_failed := 0; dry_run := dry |} in
  apps_today <- applications_today ;;
  let remaining_today := max_applications_per_day (limits config) - apps_today in
  if remaining_today <=? 0 then ret summary
  else
    let max_this_run :=
      Z.min (max_applications_per_run (limits config)) remaining_today in
    let all_jobs := scraped_posts ++ scraped_linkedin ++ scraped_twitter in
    buckets <- filter_new all_jobs [] [] ;;
    let new_with_email := fst buckets in
    let new_no_email := snd buckets in
    let summary :=
      {| started_at := started;
         jobs_found := Z.of_nat (length all_jobs);
         jobs_new := Z.of_nat (length new_with_email) + Z.of_nat (length new_no_email);
         jobs_with_email := Z.of_nat (length new_with_email);
         jobs_no_email := Z.of_nat (length new_no_email);
         applications_sent := 0; applications_failed := 0; dry_run := dry |} in
    match new_with_email with
    | [] => ret summary
    | _ :: _ =>
        contacted <- read_db get_contacted_companies ;;
        let best_jobs := _pick_best_per_company (IsJob <$> new_with_email) contacted in
        match best_jobs with
        | [] => ret summary
        | _ :: _ => apply_loop max_this_run dry best_jobs 0 summary
        end
    end.

(** [JobSource(text)] as a step: a [ValueError] on an unknown text. *)
Definition job_source (text : string) : M World JobSource :=
  match JobSource_of_value text with
  | Some s => ret s
  | None => raise "ValueError"
  end.

(** The sending loop of [send_pending], carrying [applied_count] and
    the summary. The rows are [dict]s: a [Job] object cannot be
    subscripted. The [Job] built from a row gets no timestamp here, as
    nothing reads it. *)
Fixpoint pending_loop (max_this_run : Z) (dry : bool) (best_rows : list job_or_row)
    (applied_count : Z) (summary : PendingSummary) : M World PendingSummary :=
  match best_rows with
  | [] => ret summary
  | entry :: rest =>
      if max_this_run <=? applied_count then ret summary
      else
        match entry with
        | IsJob _ => raise "TypeError"
        | IsRow row =>
            src <- job_source (s_source row) ;;
            let job :=
              {| title := s_title row; company := s_company row;
                 location := s_location row; description := s_description row;
                 application_email := s_application_email row;
                 application_url := EmptyString; source := src;
                 source_id := s_source_id row; source_url := s_source_url row;
                 posted_at := None; discovered_at := EmptyString |} in
            generated <- generate_application_email job ;;
            let subject := fst generated in
            let body := snd generated in
            if dry
            then pending_loop max_this_run dry rest (applied_count + 1)
                   (p_sent_incr summary)
            else
              success <- send_application_email (application_email job) subject body ;;
              if success : bool
              then
                application <- new_application (title job) (company job)
                                 (application_email job) subject body
                                 (source job) (source_url job) ;;
                _ <- write_db (log_application application) ;;
                pending_loop max_this_run dry rest (applied_count + 1)
                  (p_sent_incr summary)
              else
                pending_loop max_this_run dry rest applied_count
                  (p_failed_incr summary)
        end
  end.

(** [send_pending] *)
Definition send_pending (config : AppConfig) (dry : bool) : M World PendingSummary :=
  _ <- write_db init_db ;;
  let summary :=
    {| pending_found := 0; p_applications_sent := 0;
       p_applications_failed := 0; p_dry_run := dry |} in
  apps_today <- applications_today ;;
  let remaining_today := max_applications_per_day (limits config) - apps_today in
  if remaining_today <=? 0 then ret summary
  else
    let max_this_run :=
      Z.min (max_applications_per_run (limits config)) remaining_today in
    pending <- read_db get_pending_jobs ;;
    let summary :=
      {| pending_found := Z.of_nat (length pending); p_applications_sent := 0;
         p_applications_failed := 0; p_dry_run := dry |} in
    match pending with
    | [] => ret summary
    | _ :: _ =>
        contacted <- read_db get_contacted_companies ;;
        let best_rows := _pick_best_per_company (IsRow <$> pending) contacted in
        match best_rows with
        | [] => ret summary
        | _ :: _ => pending_loop max_this_run dry best_rows 0 summary
        end
    end.

(** The deduplication loop of [send_approved_drafts]. *)
Fixpoint unique_drafts_of (drafts : list DraftRow)
    (seen_companies already_sent : gset string) : list DraftRow :=
  match drafts with
  | [] => []
  | draft :: rest =>
      let company_key := lower (strip (d_company draft)) in
      if bool_decide (company_key ∈ seen_companies)
         || bool_decide (company_key ∈ already_sent)
      then unique_drafts_of rest seen_companies already_sent
      else draft :: unique_drafts_of rest ({[company_key]} ∪ seen_companies) already_sent
  end.

(** The sending loop of [send_approved_drafts], carrying [sent_count]
    and the summary. *)
Fixpoint send_loop (max_this_run : Z) (dry : bool) (unique_drafts : list DraftRow)
    (sent_count : Z) (summary : DraftsSummary) : M World DraftsSummary :=
  match unique_drafts with
  | [] => ret summary
  | draft :: rest =>
      if max_this_run <=? sent_count then ret summary
      else if dry
      then send_loop max_this_run dry rest (sent_count + 1) (d_sent_incr summary)
      else
        success <- send_application_email (d_recipient_email draft)
                     (d_subject draft) (d_body draft) ;;
        if success : bool
        then
          source <- job_source (d_source draft) ;;
          application <- new_application (d_job_title draft) (d_company draft)
                           (d_recipient_email draft) (d_subject draft)
                           (d_body draft) source (d_source_url draft) ;;
          _ <- write_db (log_application application) ;;
          _ <- call_db (update_draft_status (d_id draft) "sent") ;;
          send_loop max_this_run dry rest (sent_count + 1) (d_sent_incr summary)
        else
          send_loop max_this_run dry rest sent_count (d_failed_incr summary)
  end.

(** [send_approved_drafts] *)
Definition send_approved_drafts (config : AppConfig) (send_all dry : bool)
    : M World DraftsSummary :=
  _ <- write_db init_db ;;
  let summary :=
    {| drafts_found := 0; d_applications_sent := 0;
       d_applications_failed := 0; d_dry_run := dry |} in
  apps_today <- applications_today ;;
  let remaining_today := max_applications_per_day (limits config) - apps_today in
  if remaining_today <=? 0 then ret summary
  else
    let max_this_run :=
      Z.min (max_applications_per_run (limits config)) remaining_today in
    approved <- read_db (get_drafts (Some "approved")) ;;
    drafts <- (if send_all
               then pending <- read_db (get_drafts (Some "pending")) ;;
                    ret (approved ++ pending)
               else ret approved) ;;
    let summary := set_drafts_found (Z.of_nat (length drafts)) summary in
    match drafts with
    | [] => ret summary
    | _ :: _ =>
        already_sent <- read_db get_sent_companies ;;
        let unique_drafts := unique_drafts_of drafts ∅ already_sent in
        let summary := set_drafts_found (Z.of_nat (length unique_drafts)) summary in
        match unique_drafts with
        | [] => ret summary
        | _ :: _ => send_loop max_this_run dry unique_drafts 0 summary
        end
    end.

(** The loop of [generate_drafts] over [best_rows], carrying the
    summary: one draft saved per row, [save_draft] reading the clock
    for [created_at]. As in [send_pending], the [Job] built from a row
    gets no timestamp, as nothing reads it. *)
Fixpoint draft_loop (best_rows : list job_or_row) (summary : DraftingSummary)
    : M World DraftingSummary :=
  match best_rows with
  | [] => ret summary
  | entry :: rest =>
      match entry with
      | IsJob _ => raise "TypeError"
      | IsRow row =>
          src <- job_source (s_source row) ;;
          let job :=
            {| title := s_title row; company := s_company row;
               location := s_location row; description := s_description row;
               application_email := s_application_email row;
               application_url := EmptyString; source := src;
               source_id := s_source_id row; source_url := s_source_url row;
               posted_at := None; discovered_at := EmptyString |} in
          generated <- generate_application_email job ;;
          let subject := fst generated in
          let body := snd generated in
          now <- utcnow_iso ;;
          draft_id <- call_db (save_draft (s_unique_key row) (title job)
                                 (company job) (location job)
                                 (application_email job) subject body
                                 (JobSource_value (source job))
                                 (source_url job) now) ;;
          draft_loop rest (created_incr summary)
      end
  end.

(** [generate_drafts] *)
Definition generate_drafts (config : AppConfig) : M World DraftingSummary :=
  _ <- write_db init_db ;;
  pending <- read_db get_pending_jobs ;;
  let summary :=
    {| g_pending_found := Z.of_nat (length pending); drafts_created := 0 |} in
  match pending with
  | [] => ret summary
  | _ :: _ =>
      contacted <- read_db get_contacted_companies ;;
      let best_rows := _pick_best_per_company (IsRow <$> pending) contacted in
      match best_rows with
      | [] => ret summary
      | _ :: _ => draft_loop best_rows summary
      end
  end.

End Workflows.

End Agent.

(** ** [src/cli.py]: the commands that change the status of drafts *)
Module Cli.
Import Db.

(** The lines a command prints. *)
Inductive echo :=
| NotFound (draft_id : Z)
| AlreadySent (draft_id : Z)
| Approved (draft_id : Z) (job_title company : string)
| Discarded (draft_id : Z) (job_title company : string).

(** [approve_drafts_cmd]: the loop over the ids, then the command. *)
Fixpoint approve_each (draft_ids : list Z) (db : DB) : list echo * DB :=
  match draft_ids with
  | [] => ([], db)
  | draft_id :: rest =>
      match get_draft_by_id draft_id db with
      | None =>
          let r := approve_each rest db in
          (NotFound draft_id :: fst r, snd r)
      | Some draft =>
          if bool_decide (d_status draft = "sent")
          then
            let r := approve_each rest db in
            (AlreadySent draft_id :: fst r, snd r)
          else
            let db' := snd (update_draft_status draft_id "approved" db) in
            let r := approve_each rest db' in
            (Approved draft_id (d_job_title draft) (d_company draft) :: fst r, snd r)
      end
  end.

Definition approve_drafts_cmd (draft_ids : list Z) (db : DB) : list echo * DB :=
  approve_each draft_ids (init_db db).

(** [discard_drafts_cmd] *)
Fixpoint discard_each (draft_ids : list Z) (db : DB) : list echo * DB :=
  match draft_ids with
  | [] => ([], db)
  | draft_id :: rest =>
      match get_draft_by_id draft_id db with
      | None =>
          let r := discard_each rest db in
          (NotFound draft_id :: fst r, snd r)
      | Some draft =>
          if bool_decide (d_status draft = "sent")
          then
            let r := discard_each rest db in
            (AlreadySent draft_id :: fst r, snd r)
          else
            let db' := snd (update_draft_status draft_id "discarded" db) in
            let r := discard_each rest db' in
            (Discarded draft_id (d_job_title draft) (d_company draft) :: fst r, snd r)
      end
  end.

Definition discard_drafts_cmd (draft_ids : list Z) (db : DB) : list echo * DB :=
  discard_each draft_ids (init_db db).

(** [approve_all_drafts_cmd] *)
Inductive approve_all_echo :=
| NoPendingDrafts
| ApprovedCount (n : Z).

Definition approve_all_drafts_cmd (db : DB) : approve_all_echo * DB :=
  let db := init_db db in
  let pending := get_drafts (Some "pending") db in
  match pending with
  | [] => (NoPendingDrafts, db)
  | _ :: _ =>
      (ApprovedCount (Z.of_nat (length pending)),
       foldl (fun db d => snd (update_draft_status (d_id d) "approved" db))
             db pending)
  end.

(** [edit_draft_cmd]: [subject] is the option [--subject], [body_file]
    the text of the file named by [--body-file], each [None] when the
    option is not given. *)
Inductive edit_echo :=
| EditNotFound (draft_id : Z)
| EditAlreadySent (draft_id : Z)
| NoChanges
| Updated (draft_id : Z) (new_subject : option string) (body_updated : bool).

Definition edit_draft_cmd (draft_id : Z) (subject body_file : option string)
    (db : DB) : edit_echo * DB :=
  let db := init_db db in
  match get_draft_by_id draft_id db with
  | None => (EditNotFound draft_id, db)
  | Some draft =>
      if bool_decide (d_status draft = "sent")
      then (EditAlreadySent draft_id, db)
      else
        let subject_given :=
          match subject with
          | Some s => PyStr.nonempty s
          | None => false
          end in
        let new_subject :=
          if subject_given then default EmptyString subject else d_subject draft in
        let new_body :=
          match body_file with
          | Some text => PyStr.strip text
          | None => d_body draft
          end in
        if bool_decide (new_subject = d_subject draft)
           && bool_decide (new_body = d_body draft)
        then (NoChanges, db)
        else
          (Updated draft_id
             (if subject_given then Some new_subject else None)
             (bool_decide (is_Some body_file)),
           snd (update_draft_content draft_id new_subject new_body db))
  end.

End Cli.

(** ** [src/scrapers/linkedin.py], [src/scrapers/linkedin_posts.py]: the
    tests on text that the scrapers apply *)
Module Scrapers.
Import PyStr.

Definition REMOTE_KEYWORDS : list string :=
  [ "remote"; "worldwide"; "anywhere"; "work from home"; "wfh";
    "distributed"; "global"; "fully remote"; "100% remote";
    "work from anywhere"; "location flexible"; "remote-friendly" ].

(** [is_remote_friendly]: the loop over the set of keywords returns
    [True] at the first keyword found, whatever the order. *)
Definition is_remote_friendly (location description : string) : bool :=
  let combined := lower (location +:+ " " +:+ description) in
  if any_in REMOTE_KEYWORDS combined then true
  else
    let location_lower := lower location in
    if any_in ["pakistan"; "karachi"; "sindh"] location_lower then true
    else false.

(** [_is_linkedin_post_url] *)
Definition _is_linkedin_post_url (url : string) : bool :=
  let lower := lower url in
  str_in "linkedin.com/posts/" lower || str_in "linkedin.com/feed/update/" lower.

End Scrapers.

(** * Specifications *)

Import PyStr Models Db Agent.

(** [best_in jobs j]: [j] occurs in [jobs], every job of the same employer
    before it scores strictly less, and none after it scores more. *)
Definition best_in (jobs : list job_or_row) (j : job_or_row) : Prop :=
  ∃ l1 l2, jobs = l1 ++ j :: l2 ∧
    (∀ j', j' ∈ l1 → company_key_of j' = company_key_of j → score_of j' < score_of j) ∧
    (∀ j', j' ∈ l2 → company_key_of j' = company_key_of j → score_of j' ≤ score_of j).

(** The invariant of the loop of [_pick_best_per_company]: after the jobs
    [seen], the dictionary [d] has distinct keys, each entry holds the best
    of the jobs seen for its key with its score, under a key that was not
    contacted, and every job seen whose key was not contacted has an entry. *)
Definition pick_inv (contacted : gset string) (seen : list job_or_row)
    (d : list (string * (job_or_row * Z))) : Prop :=
  NoDup d.*1 ∧
  (∀ k j s, (k, (j, s)) ∈ d →
     k = company_key_of j ∧ s = score_of j ∧ (k ∉ contacted) ∧ best_in seen j) ∧
  (∀ j, j ∈ seen → company_key_of j ∉ contacted → company_key_of j ∈ d.*1).

(** [job] with [kw] appended to its title. *)
Definition append_to_title (job : Job) (kw : string) : Job :=
  {| title := title job +:+ kw; company := company job;
     location := location job; description := description job;
     application_email := application_email job;
     application_url := application_url job; source := source job;
     source_id := source_id job; source_url := source_url job;
     posted_at := posted_at job; discovered_at := discovered_at job |}.

(** The text [_job_priority_score] searches: the lowercased title, one
    space, the lowercased description. *)
Definition combined_text (job : Job) : string :=
  lower (title job) +:+ " " +:+ lower (description job).

(** The three terms of the score. *)
Definition language_points (job : Job) : Z :=
  if any_in JS_KEYWORDS (combined_text job) then 100 else 0.
Definition role_points (job : Job) : Z :=
  if any_in FULL_STACK_KEYWORDS (lower (title job)) then 50
  else if any_in FRONTEND_KEYWORDS (lower (title job)) then 30
  else if any_in BACKEND_KEYWORDS (lower (title job)) then 20
  else 0.
Definition react_native_points (job : Job) : Z :=
  if str_in "react native" (combined_text job) then 40 else 0.

(** ["react native"] occurs in the combined text of [job] only across the
    seam between the title and the description. *)
Definition react_native_across_seam (job : Job) : Prop :=
  str_in "react native" (combined_text job) = true ∧
  str_in "react native" (lower (title job)) = false ∧
  str_in "react native" (lower (description job)) = false.

(** The two jobs of scenario B; a description that is not given is empty. *)
Definition full_stack_at_acme (src : JobSource) : Job :=
  Job_of "Full Stack Engineer" "Acme" EmptyString src.
Definition backend_at_acme (src : JobSource) : Job :=
  Job_of "Backend Engineer" "Acme" EmptyString src.

(** The description of scenario C. *)
Definition scenario_c_text : string :=
  "Email your resume to jobs@acme.io or noreply@acme.io".

(** A store with one draft, already sent. *)
Definition sent_draft : DraftRow :=
  {| d_id := 1; d_job_unique_key := "linkedin:42"; d_job_title := "Engineer";
     d_company := "Acme"; d_location := "Remote";
     d_recipient_email := "jobs@acme.io"; d_subject := "Application";
     d_body := "Hello"; d_source := "linkedin"; d_source_url := EmptyString;
     d_created_at := "2024-05-01T10:00:00"; d_status := "sent" |}.

Definition sent_draft_db : DB :=
  {| seen_jobs := []; applications := []; drafts := [sent_draft];
     applications_seq := 0; drafts_seq := 1 |}.

(** The primary keys of [seen_jobs]. *)
Definition seen_keys (db : DB) : list string := s_unique_key <$> seen_jobs db.

(** A job with the conditions of [get_pending_jobs], as propositions. *)
Definition is_pending (db : DB) (s : SeenRow) : Prop :=
  s_application_email s ≠ EmptyString ∧
  (∀ a, a ∈ applications db → ¬ (a_job_title a = s_title s ∧ a_company a = s_company s)) ∧
  (∀ d, d ∈ drafts db → d_job_unique_key d ≠ s_unique_key s).

(** Delivery attempts by outcome. *)
Definition delivered_count (attempts : list Attempt) : Z :=
  Z.of_nat (length (filter (λ a, delivered a = true) attempts)).
Definition failed_count (attempts : list Attempt) : Z :=
  Z.of_nat (length (filter (λ a, delivered a = false) attempts)).

(** The world after a call of the content generator, after a reading of
    the clock, and after a delivery attempt. *)
Definition after_generate (w : World) : World :=
  {| db := db w; clock_reads := clock_reads w;
     llm_calls := S (llm_calls w); outbox := outbox w |}.
Definition after_clock (w : World) : World :=
  {| db := db w; clock_reads := S (clock_reads w);
     llm_calls := llm_calls w; outbox := outbox w |}.
Definition after_attempt (to subject body : string) (ok : bool) (w : World) : World :=
  {| db := db w; clock_reads := clock_reads w; llm_calls := llm_calls w;
     outbox := outbox w ++
       [{| to_email := to; att_subject := subject; att_body := body;
           delivered := ok |}] |}.

(** The application [run_agent] and [send_pending] log for [job]. *)
Definition application_for (job : Job) (subject body now : string) : Application :=
  {| job_title := title job; app_company := company job;
     recipient_email := application_email job; subject := subject;
     body := body; app_source := source job; app_source_url := source_url job;
     sent_at := now; app_status := "sent" |}.

(** The [Job] that [send_pending] builds from a row. *)
Definition job_of_row (row : SeenRow) (src : JobSource) : Job :=
  {| title := s_title row; company := s_company row;
     location := s_location row; description := s_description row;
     application_email := s_application_email row;
     application_url := EmptyString; source := src;
     source_id := s_source_id row; source_url := s_source_url row;
     posted_at := None; discovered_at := EmptyString |}.

(** The counters [applications_sent] and [applications_failed] a workflow
    reports: those of the summary it returns, none when it raises. *)
Definition counters {S} (sent failed : S → Z) (outcome : Eff.outcome S)
    : option (Z * Z) :=
  match outcome with
  | Eff.Return s => Some (sent s, failed s)
  | Eff.Raise _ => None
  end.

(** The same, as the increase over the summary [s] a loop starts with. *)
Definition counters_since {S} (sent failed : S → Z) (s : S)
    (outcome : Eff.outcome S) : option (Z * Z) :=
  match outcome with
  | Eff.Return s' => Some (sent s' - sent s, failed s' - failed s)
  | Eff.Raise _ => None
  end.

Definition shift (ds df : Z) (cs : option (Z * Z)) : option (Z * Z) :=
  match cs with
  | Some (s, f) => Some (s + ds, f + df)
  | None => None
  end.

(** The accounting of a sending loop that starts in the world [w] with the
    count [n] and ends in [w'], over [candidates] candidates. *)
Definition loop_accounting (max_this_run : Z) (dry : bool) (candidates : nat)
    (n : Z) (w w' : World) (cs : option (Z * Z)) : Prop :=
  ∃ attempts : list Attempt,
    outbox w' = outbox w ++ attempts ∧
    (dry = true → attempts = [] ∧ applications (db w') = applications (db w)) ∧
    (length attempts ≤ candidates)%nat ∧
    Z.of_nat (length (applications (db w)))
      ≤ Z.of_nat (length (applications (db w'))) ∧
    Z.of_nat (length (applications (db w')))
      ≤ Z.of_nat (length (applications (db w))) + delivered_count attempts ∧
    n + delivered_count attempts ≤ Z.max n max_this_run ∧
    ∀ sent failed, cs = Some (sent, failed) →
      failed = failed_count attempts ∧
      (dry = false →
         sent = delivered_count attempts ∧
         Z.of_nat (length (applications (db w')))
           = Z.of_nat (length (applications (db w))) + sent) ∧
      0 ≤ sent ∧
      n + sent ≤ Z.max n max_this_run ∧
      (n + sent < max_this_run →
       (if dry then sent else Z.of_nat (length attempts)) = Z.of_nat candidates).

(** A run of a sending workflow from [w] to [w'] that keeps to the limits
    of [config], [sent_today] applications having been sent today, with
    [candidates] candidates selected and the counters [cs] reported. The
    budget-consuming sends are the successful deliveries, and in a dry run
    the candidates processed; both are what [applications_sent] counts. *)
Definition rate_limited (config : AppConfig) (sent_today : Z) (dry : bool)
    (candidates : nat) (w w' : World) (cs : option (Z * Z)) : Prop :=
  let remaining_today := max_applications_per_day (limits config) - sent_today in
  let budget := Z.min (max_applications_per_run (limits config)) remaining_today in
  ∃ attempts : list Attempt,
    outbox w' = outbox w ++ attempts ∧
    (remaining_today ≤ 0 →
       attempts = [] ∧ db w' = db w ∧ llm_calls w' = llm_calls w ∧
       cs = Some (0, 0)) ∧
    (0 < remaining_today →
       (dry = true → attempts = [] ∧ applications (db w') = applications (db w)) ∧
       delivered_count attempts ≤ Z.max 0 budget ∧
       Z.of_nat (length (applications (db w')))
         ≤ Z.of_nat (length (applications (db w))) + delivered_count attempts ∧
       ∀ sent failed, cs = Some (sent, failed) →
         sent ≤ Z.max 0 budget ∧
         (0 ≤ max_applications_per_run (limits config) → sent ≤ budget) ∧
         (dry = false →
            sent = delivered_count attempts ∧
            Z.of_nat (length (applications (db w')))
              = Z.of_nat (length (applications (db w))) + sent) ∧
         failed = failed_count attempts ∧
         (sent < budget →
          (if dry then sent else Z.of_nat (length attempts)) = Z.of_nat candidates)).

(** The candidates of a run of [run_agent]: the selection among the new
    jobs with an email, in the world [w] in which the filtering starts. *)
Definition run_candidates (all_jobs : list Job) (w : World) : list job_or_row :=
  match filter_new all_jobs [] [] w with
  | (Eff.Return buckets, w') =>
      _pick_best_per_company (IsJob <$> fst buckets) (get_contacted_companies (db w'))
  | (Eff.Raise _, _) => []
  end.

(** The candidates of a run of [send_pending]. *)
Definition pending_candidates (db : DB) : list job_or_row :=
  _pick_best_per_company (IsRow <$> get_pending_jobs db) (get_contacted_companies db).

(** The application [send_approved_drafts] logs for [draft]. *)
Definition application_of_draft (draft : DraftRow) (source : JobSource) (now : string)
    : Application :=
  {| job_title := d_job_title draft; app_company := d_company draft;
     recipient_email := d_recipient_email draft; subject := d_subject draft;
     body := d_body draft; app_source := source;
     app_source_url := d_source_url draft; sent_at := now; app_status := "sent" |}.

(** The drafts a run of [send_approved_drafts] goes through, in order. *)
Definition drafts_to_send (send_all : bool) (db : DB) : list DraftRow :=
  unique_drafts_of
    (get_drafts (Some "approved") db
     ++ (if send_all then get_drafts (Some "pending") db else []))
    ∅ (get_sent_companies db).

(** The [i]-th delivery attempt of a run is for the [i]-th draft. *)
Definition attempt_of (drafts : list DraftRow) (attempts : list Attempt)
    (draft : DraftRow) (a : Attempt) : Prop :=
  ∃ i : nat, drafts !! i = Some draft ∧ attempts !! i = Some a.

(** An application row written for a draft whose delivery succeeded. *)
Definition logged_for_delivered (drafts : list DraftRow) (attempts : list Attempt)
    (app : AppRow) : Prop :=
  ∃ draft a, attempt_of drafts attempts draft a ∧ delivered a = true ∧
    a_job_title app = d_job_title draft ∧ a_company app = d_company draft ∧
    a_recipient_email app = d_recipient_email draft.

(** What the sending loop leaves behind, started in the world [w] over the
    drafts [ds]. *)
Definition send_post (ds : list DraftRow) (s : DraftsSummary) (w : World)
    (outcome : Eff.outcome DraftsSummary) (w' : World) : Prop :=
  ∃ (attempts : list Attempt) (new_apps : list AppRow),
    outbox w' = outbox w ++ attempts ∧
    applications (db w') = applications (db w) ++ new_apps ∧
    Z.of_nat (length new_apps) ≤ delivered_count attempts ∧
    Forall (logged_for_delivered ds attempts) new_apps ∧
    NoDup (d_id <$> drafts (db w')) ∧
    (∀ x, x ∈ drafts (db w) → d_id x ∉ d_id <$> ds → x ∈ drafts (db w')) ∧
    (∀ draft a, attempt_of ds attempts draft a →
       to_email a = d_recipient_email draft ∧ att_subject a = d_subject draft ∧
       att_body a = d_body draft ∧
       (delivered a = false → draft ∈ drafts (db w'))) ∧
    (∀ s', outcome = Eff.Return s' →
       d_applications_failed s' = d_applications_failed s + failed_count attempts ∧
       d_applications_sent s' = d_applications_sent s + delivered_count attempts).

(** A posting with a contact address, at [company], with the native id [id]. *)
Definition posting (company id : string) : Job :=
  {| title := "Software Engineer"; company := company; location := "Remote";
     description := "We build things."; application_email := "jobs@example.org";
     application_url := EmptyString; source := LINKEDIN; source_id := id;
     source_url := EmptyString; posted_at := None;
     discovered_at := "2024-05-01T08:00:00" |}.

Definition fresh_world : World :=
  {| db := empty_db; clock_reads := 0; llm_calls := 0; outbox := [] |}.

Definition noon (n : nat) : string := "2024-05-01T12:00:00".
Definition canned (n : nat) (job : Job) : string * string := ("Application", "Hello").
Definition always_delivers (n : nat) (to subject body : string) : bool := true.
Definition never_delivers (n : nat) (to subject body : string) : bool := false.

Definition limits_of (per_run per_day : Z) : AppConfig :=
  {| limits := {| max_applications_per_run := per_run;
                  max_applications_per_day := per_day |} |}.

(** A store with three applications sent on the day of [noon]. *)
Definition sent_application (id : Z) (company : string) : AppRow :=
  {| a_id := id; a_job_title := "Engineer"; a_company := company;
     a_recipient_email := "hr@example.org"; a_subject := "Application";
     a_body := "Hello"; a_source := "linkedin"; a_source_url := EmptyString;
     a_sent_at := "2024-05-01T09:30:00"; a_status := "sent" |}.

Definition three_sent_today : World :=
  {| db := {| seen_jobs := []; drafts := [];
              applications := [sent_application 1 "Initech";
                               sent_application 2 "Globex";
                               sent_application 3 "Umbrella"];
              applications_seq := 3; drafts_seq := 0 |};
     clock_reads := 0; llm_calls := 0; outbox := [] |}.

Definition four_postings : list Job :=
  [posting "Acme" "1"; posting "Hooli" "2"; posting "Stark" "3"; posting "Wayne" "4"].

(** A store with two approved drafts. *)
Definition approved_draft (id : Z) (company : string) : DraftRow :=
  {| d_id := id; d_job_unique_key := "linkedin:" +:+ company;
     d_job_title := "Engineer"; d_company := company; d_location := "Remote";
     d_recipient_email := "jobs@example.org"; d_subject := "Application";
     d_body := "Hello"; d_source := "linkedin"; d_source_url := EmptyString;
     d_created_at := "2024-05-01T10:00:00"; d_status := "approved" |}.

Definition two_approved : World :=
  {| db := {| seen_jobs := []; applications := [];
              drafts := [approved_draft 1 "Acme"; approved_draft 2 "Hooli"];
              applications_seq := 0; drafts_seq := 2 |};
     clock_reads := 0; llm_calls := 0; outbox := [] |}.

(** A store with one pending job and one application sent on the day of
    [noon]. *)
Definition one_sent_today : World :=
  {| db := {| seen_jobs := [seen_row_of (posting "Acme" "1")]; drafts := [];
              applications := [sent_application 1 "Initech"];
              applications_seq := 1; drafts_seq := 0 |};
     clock_reads := 0; llm_calls := 0; outbox := [] |}.

(** The ids of the drafts are distinct and none is above the sequence of
    the table: what AUTOINCREMENT maintains. *)
Definition drafts_ok (db : DB) : Prop :=
  NoDup (d_id <$> drafts db) ∧ Forall (λ d, d_id d ≤ drafts_seq db) (drafts db).

(** The row [save_draft] inserts. *)
Definition draft_row (id : Z) (job_unique_key job_title company location
    recipient_email subject body source source_url now : string) : DraftRow :=
  {| d_id := id; d_job_unique_key := job_unique_key; d_job_title := job_title;
     d_company := company; d_location := location;
     d_recipient_email := recipient_email; d_subject := subject;
     d_body := body; d_source := source; d_source_url := source_url;
     d_created_at := now; d_status := "pending" |}.

(** A store with one application and three drafts of different status. *)
Definition draft_with (id : Z) (key company status created : string) : DraftRow :=
  {| d_id := id; d_job_unique_key := key;
     d_job_title := "Engineer"; d_company := company; d_location := "Remote";
     d_recipient_email := "jobs@example.org"; d_subject := "Application";
     d_body := "Hello"; d_source := "linkedin"; d_source_url := EmptyString;
     d_created_at := created; d_status := status |}.

Definition mixed_store : DB :=
  {| seen_jobs := [seen_row_of (posting "Acme" "1"); seen_row_of (posting "Wayne" "4")];
     applications := [sent_application 1 "Initech"];
     drafts := [draft_with 1 "linkedin:1" "Acme" "pending" "2024-05-01T10:00:00";
                draft_with 2 "linkedin:2" "Hooli" "discarded" "2024-05-01T11:00:00";
                draft_with 4 "linkedin:3" "Stark" "approved" "2024-05-01T09:00:00"];
     applications_seq := 1; drafts_seq := 4 |}.

(** An application logged the day before that of [noon]. *)
Definition sent_yesterday : Application :=
  {| job_title := "Engineer"; app_company := "Globex";
     recipient_email := "hr@example.org"; subject := "Application";
     body := "Hello"; app_source := TWITTER; app_source_url := EmptyString;
     sent_at := "2024-04-30T23:59:59"; app_status := "sent" |}.

(** [newest_first key rows]: descending in [key]. *)
Definition newest_first {A} (key : A → string) (rows : list A) : Prop :=
  StronglySorted (λ newer older, String.le (key older) (key newer)) rows.

(** Two postings that the identity key does not tell apart: the same
    source and the same native id, or no native id and the same title and
    company up to letter case. *)
Definition same_posting (j1 j2 : Job) : Prop :=
  source j1 = source j2 ∧
  ((source_id j1 ≠ EmptyString ∧ source_id j1 = source_id j2) ∨
   (source_id j1 = EmptyString ∧ source_id j2 = EmptyString ∧
    lower (title j1) = lower (title j2) ∧
    lower (company j1) = lower (company j2))).

(** The posting of [four_postings] for Acme, and a repost of it under
    another title. *)
Definition acme_posting : Job := posting "Acme" "1".

Definition acme_repost : Job :=
  {| title := "Senior Software Engineer"; company := "ACME Corp";
     location := "Remote"; description := "We still build things.";
     application_email := "jobs@example.org"; application_url := EmptyString;
     source := LINKEDIN; source_id := "1"; source_url := EmptyString;
     posted_at := None; discovered_at := "2024-05-02T08:00:00" |}.

(** What a pattern accepts, said without the matcher: a literal accepts
    its character, a repetition accepts at least [n] characters of its
    class, and a sequence accepts the concatenation. *)
Inductive accepts : list EmailFinder.atom → string → Prop :=
| accepts_nil : accepts [] EmptyString
| accepts_lit c p s :
    accepts p s → accepts (EmailFinder.Lit c :: p) (String c s)
| accepts_rep n cls p w s :
    (n ≤ String.length w)%nat →
    Forall (λ a, cls a = true) (list_ascii_of_string w) →
    accepts p s →
    accepts (EmailFinder.AtLeast n cls :: p) (w +:+ s).

(** The three character classes of [EMAIL_PATTERN] are [local_char],
    [domain_char] and [is_alpha]. *)
Definition local_char (c : ascii) : bool :=
  is_alnum c || EmailFinder.one_of "._%+-" c.

Definition domain_char (c : ascii) : bool :=
  is_alnum c || EmailFinder.one_of ".-" c.

Definition all_chars (cls : ascii → bool) (s : string) : Prop :=
  Forall (λ c, cls c = true) (list_ascii_of_string s).

(** An address as the pattern describes it: a local part, an at sign, a
    domain, a dot and a top-level name of two letters or more. *)
Definition email_shape (e : string) : Prop :=
  ∃ local domain tld,
    e = local +:+ "@" +:+ domain +:+ "." +:+ tld ∧
    local ≠ EmptyString ∧ all_chars local_char local ∧
    domain ≠ EmptyString ∧ all_chars domain_char domain ∧
    (2 ≤ String.length tld)%nat ∧ all_chars is_alpha tld.

(** The first address of [emails] with an HR-like local part. *)
Definition first_hr (emails : list string) : option string :=
  List.find EmailFinder.is_hr emails.


(** The pages [_scrape_website_for_emails] goes through: the home page of
    the site, then the career and contact paths. *)
Definition pages_to_check (urlparse : string → string * string) (base_url : string)
    : list string :=
  let parsed_base := urlparse base_url in
  let base_domain := fst parsed_base +:+ "://" +:+ snd parsed_base in
  base_domain :: ((λ path, base_domain +:+ path) <$> EmailFinder.CAREER_PATHS).

(** The replies to the requests [requests], the first of which is request
    number [start] of the run. *)
Fixpoint replies_of (http_get : nat → string → option EmailFinder.Soup)
    (start : nat) (requests : list string) : list (option EmailFinder.Soup) :=
  match requests with
  | [] => []
  | url :: rest => http_get start url :: replies_of http_get (S start) rest
  end.

(** The site that is guessed from a company name. *)
Definition guessed_site (company_name : string) : string :=
  "https://www." +:+ EmailFinder.keep_alnum (lower company_name) +:+ ".com".

(** A network on which no request is answered, one on which only the
    first request is answered, with an empty page, and a parser that splits any URL the way it splits the site
    guessed for the company WeWork. *)
Definition empty_page : EmailFinder.Soup :=
  {| EmailFinder.anchors := []; EmailFinder.page_text := EmptyString;
     EmailFinder.desc_anchors := None |}.

Definition unanswered (n : nat) (url : string) : option EmailFinder.Soup := None.

Definition first_only (n : nat) (url : string) : option EmailFinder.Soup :=
  match n with O => Some empty_page | S _ => None end.

Definition parse_wework (url : string) : string * string :=
  ("https", "www.wework.com").

(** The keys of [keys], each once, in the order of first occurrence. *)
Definition first_occurrences (keys : list string) : list string :=
  fold_left (λ acc k, if bool_decide (k ∈ acc) then acc else acc ++ [k]) keys [].

(** The key under which [send_approved_drafts] groups a draft. *)
Definition draft_company_key (d : DraftRow) : string :=
  lower (strip (d_company d)).

(** The draft that [generate_drafts] saves for a selected row: the
    columns copied from the row, and the status ["pending"]. *)
Definition drafted_for (entry : job_or_row) (d : DraftRow) : Prop :=
  ∃ row, entry = IsRow row ∧
    d_job_unique_key d = s_unique_key row ∧ d_job_title d = s_title row ∧
    d_company d = s_company row ∧ d_location d = s_location row ∧
    d_recipient_email d = s_application_email row ∧
    d_source d = s_source row ∧ d_source_url d = s_source_url row ∧
    d_status d = "pending".

(** A store with three jobs seen, two of them at one company. *)
Definition titled (title company id discovered : string) : Job :=
  {| title := title; company := company; location := "Remote";
     description := "We build things."; application_email := "jobs@example.org";
     application_url := EmptyString; source := LINKEDIN; source_id := id;
     source_url := EmptyString; posted_at := None;
     discovered_at := discovered |}.

Definition three_seen : World :=
  {| db := {| seen_jobs := [seen_row_of (titled "Backend Developer" "Acme" "1"
                                           "2024-05-01T08:00:00");
                            seen_row_of (titled "Full Stack Developer" "Acme" "2"
                                           "2024-05-01T09:00:00");
                            seen_row_of (titled "Designer" "Hooli" "3"
                                           "2024-05-01T07:00:00")];
              applications := []; drafts := [];
              applications_seq := 0; drafts_seq := 0 |};
     clock_reads := 0; llm_calls := 0; outbox := [] |}.

(** What a run of the sending loop of [send_approved_drafts] leaves of
    the drafts it delivered: started in [w] over the drafts [ds], every
    draft whose message was delivered and whose source names a job board
    has its row marked as sent and an application row written for it. *)
Definition marked_sent (ds : list DraftRow) (w w' : World) : Prop :=
  ∃ (attempts : list Attempt) (new_apps : list AppRow),
    outbox w' = outbox w ++ attempts ∧
    applications (db w') = applications (db w) ++ new_apps ∧
    NoDup (d_id <$> drafts (db w')) ∧
    (∀ x, x ∈ drafts (db w) → d_id x ∉ d_id <$> ds → x ∈ drafts (db w')) ∧
    (∀ draft a, attempt_of ds attempts draft a → delivered a = true →
       is_Some (JobSource_of_value (d_source draft)) →
       with_status "sent" draft ∈ drafts (db w') ∧
       ∃ app, app ∈ new_apps ∧ a_company app = d_company draft ∧
              a_job_title app = d_job_title draft ∧
              a_recipient_email app = d_recipient_email draft ∧
              a_status app = "sent").

(** What [approve_all_drafts_cmd] does to a row. *)
Definition approve_if_pending (d : DraftRow) : DraftRow :=
  if bool_decide (d_status d = "pending") then with_status "approved" d else d.



(** The places whose jobs are accepted without a remote keyword. *)
Definition home_places : list string := ["pakistan"; "karachi"; "sindh"].

(** * Proofs *)

(** * The embedding at work on small inputs *)
Section Examples.
Import EmailFinder.

Example lower_acme : lower "Acme, Inc." = "acme, inc.".
Proof. reflexivity. Qed.

Example strip_acme : strip "  Acme Inc  " = "Acme Inc".
Proof. reflexivity. Qed.

Example split_two_ats : split "@" "a@b@c" = ["a"; "b"; "c"].
Proof. reflexivity. Qed.

Example in_is_substring :
  str_in "ts " "senior ts developer" = true ∧ str_in "ts " "robots" = false.
Proof. by split. Qed.

Example unique_key_native :
  unique_key (posting "Acme" "42") = "linkedin:42".
Proof. reflexivity. Qed.

Example unique_key_fallback :
  unique_key (Job_of "Backend Engineer" "Acme" EmptyString TWITTER)
  = "twitter:backend engineer:acme".
Proof. reflexivity. Qed.

Example greedy_domain_backtracks :
  findall EMAIL_PATTERN "write to a.b@x.y.co.uk1 or foo@bar.c, not a@b@c.de."
  = ["a.b@x.y.co.uk"; "b@c.de"].
Proof. by vm_compute. Qed.

Example denylist :
  _is_valid_email "support@acme.io" = false ∧
  _is_valid_email "team@linkedin.com" = false ∧
  _is_valid_email "logo@2x.png" = false ∧
  _is_valid_email "supporters@acme.io" = true.
Proof. by vm_compute. Qed.

Example hr_first :
  _rank_emails ["info@acme.io"; "careers@acme.io"; "ceo@acme.io"; "hr@acme.io"]
  = ["careers@acme.io"; "hr@acme.io"; "info@acme.io"; "ceo@acme.io"].
Proof. by vm_compute. Qed.

Example score_fullstack_react_native :
  _job_priority_score
    (Job_of "Full Stack Engineer (React Native)" "Acme" "Node.js backend" LINKEDIN)
  = 190.
Proof. by vm_compute. Qed.

Example tie_keeps_first :
  _pick_best_per_company
    [IsJob (Job_of "Backend Engineer" " ACME " EmptyString LINKEDIN);
     IsJob (Job_of "Backend Developer" "acme" EmptyString LINKEDIN);
     IsJob (Job_of "Full Stack Engineer" "Initech" EmptyString LINKEDIN)]
    {["initech"]}
  = [IsJob (Job_of "Backend Engineer" " ACME " EmptyString LINKEDIN)].
Proof. by vm_compute. Qed.

Example pending_newest_first :
  s_discovered_at <$>
    get_pending_jobs
      {| seen_jobs :=
           [seen_row_of (posting "Acme" "1");
            seen_row_of (Job_of "No Email" "Hooli" EmptyString LINKEDIN);
            {| s_unique_key := "linkedin:3"; s_title := "Engineer";
               s_company := "Stark"; s_location := EmptyString; s_description := EmptyString;
               s_application_email := "hr@stark.io"; s_source := "linkedin";
               s_source_id := "3"; s_source_url := EmptyString;
               s_discovered_at := "2024-05-02T07:00:00.000001" |};
            {| s_unique_key := "linkedin:4"; s_title := "Engineer";
               s_company := "Initech"; s_location := EmptyString; s_description := EmptyString;
               s_application_email := "hr@initech.io"; s_source := "linkedin";
               s_source_id := "4"; s_source_url := EmptyString;
               s_discovered_at := "2024-05-03T07:00:00" |}];
         applications := [sent_application 1 "Initech"];
         drafts := []; applications_seq := 1; drafts_seq := 0 |}
  = ["2024-05-02T07:00:00.000001"; "2024-05-01T08:00:00"].
Proof. by vm_compute. Qed.

End Examples.

(** * Selection: one job per employer *)
Section Selection.
Context {V : Type}.
Implicit Types (d : list (string * V)) (k : string) (v : V).

Lemma dict_get_Some k v d : dict_get k d = Some v → (k, v) ∈ d.
Proof.
  induction d as [|[k0 v0] d IH]; csimpl; [done|].
  case_bool_decide as Hk; rewrite elem_of_cons.
  - intros [= ->]. subst. by left.
  - intros H. right. auto.
Qed.

Lemma dict_get_None k d : dict_get k d = None ↔ k ∉ d.*1.
Proof.
  induction d as [|[k0 v0] d IH]; csimpl.
  - split; [intros _; apply not_elem_of_nil | done].
  - rewrite not_elem_of_cons. case_bool_decide as Hk.
    + split; [done | intros [Hne _]; by subst].
    + rewrite IH. split; [intros H; split; [congruence | done] | tauto].
Qed.

Lemma dict_get_is_Some k d : is_Some (dict_get k d) ↔ k ∈ d.*1.
Proof.
  destruct (dict_get k d) as [v|] eqn:E.
  - split; [intros _ | by eauto].
    apply dict_get_Some in E. change k with (fst (k, v)).
    by apply list_elem_of_fmap_2.
  - split; [by intros [? ?] | intros Hin]. apply dict_get_None in E. tauto.
Qed.

Lemma dict_set_keys k v d :
  (dict_set k v d).*1 = if bool_decide (k ∈ d.*1) then d.*1 else d.*1 ++ [k].
Proof.
  induction d as [|[k0 v0] d IH]; csimpl; [done|].
  destruct (decide (k0 = k)) as [->|Hne].
  - rewrite !bool_decide_true; [done | apply elem_of_cons; by left | done].
  - rewrite (bool_decide_false (k0 = k)) by done. csimpl. rewrite IH.
    destruct (decide (k ∈ d.*1)) as [Hin|Hin].
    + rewrite !bool_decide_true; [done | apply elem_of_cons; by right | done].
    + rewrite !bool_decide_false; [done | | done].
      rewrite elem_of_cons. intros [->|?]; tauto.
Qed.

Lemma dict_set_NoDup k v d : NoDup d.*1 → NoDup (dict_set k v d).*1.
Proof.
  intros Hnd. rewrite dict_set_keys. case_bool_decide as Hin; [done|].
  apply NoDup_app. split_and!; [done | | apply NoDup_singleton].
  intros x Hx Hx'. apply list_elem_of_singleton in Hx'. by subst.
Qed.

Lemma dict_set_elem k v d k' v' :
  NoDup d.*1 → (k', v') ∈ dict_set k v d →
  (k' = k ∧ v' = v) ∨ ((k', v') ∈ d ∧ k' ≠ k).
Proof.
  induction d as [|[k0 v0] d IH]; csimpl; intros Hnd Hin.
  - apply list_elem_of_singleton in Hin. left. by simplify_eq.
  - apply NoDup_cons in Hnd as [Hk0 Hnd]. case_bool_decide as Hk.
    + subst k0. apply elem_of_cons in Hin as [Heq | Hin].
      * left. by simplify_eq.
      * right. split; [apply elem_of_cons; by right|]. intros ->. apply Hk0.
        change k with (fst (k, v')). by apply list_elem_of_fmap_2.
    + apply elem_of_cons in Hin as [Heq | Hin].
      * right. simplify_eq. split; [apply elem_of_cons; by left | done].
      * destruct (IH Hnd Hin) as [? | [? ?]]; [by left|].
        right. split; [apply elem_of_cons; by right | done].
Qed.

Lemma dict_get_set k k' v d :
  dict_get k (dict_set k' v d) = if bool_decide (k' = k) then Some v else dict_get k d.
Proof.
  induction d as [|[k0 v0] d IH]; simpl; [done|].
  destruct (decide (k0 = k')) as [->|Hne].
  - rewrite (bool_decide_true (k' = k')) by done. simpl.
    by destruct (bool_decide (k' = k)).
  - rewrite (bool_decide_false (k0 = k')) by done. simpl. rewrite IH.
    destruct (decide (k0 = k)) as [->|Hne'].
    + rewrite (bool_decide_true (k = k)) by done.
      by rewrite bool_decide_false by congruence.
    + by rewrite (bool_decide_false (k0 = k)) by done.
Qed.

Lemma dict_get_elem k v d : NoDup d.*1 → (k, v) ∈ d → dict_get k d = Some v.
Proof.
  induction d as [|[k0 v0] d IH]; csimpl; intros Hnd Hin.
  - by apply elem_of_nil in Hin.
  - apply NoDup_cons in Hnd as [Hk0 Hnd].
    apply elem_of_cons in Hin as [Heq | Hin].
    + simplify_eq. by rewrite bool_decide_true.
    + rewrite bool_decide_false; [by apply IH|].
      intros ->. apply Hk0. change k with (fst (k, v)).
      by apply list_elem_of_fmap_2.
Qed.

End Selection.

Section PickBest.
Variable contacted : gset string.

Lemma best_in_le seen j j' :
  best_in seen j → j' ∈ seen → company_key_of j' = company_key_of j →
  score_of j' ≤ score_of j.
Proof.
  intros (l1 & l2 & -> & Hlt & Hle) Hin Hk.
  apply elem_of_app in Hin as [Hin | Hin].
  - specialize (Hlt _ Hin Hk). lia.
  - apply elem_of_cons in Hin as [-> | Hin]; [lia | by apply Hle].
Qed.

Lemma best_in_snoc seen j x :
  best_in seen j →
  (company_key_of x = company_key_of j → score_of x ≤ score_of j) →
  best_in (seen ++ [x]) j.
Proof.
  intros (l1 & l2 & -> & Hlt & Hle) Hx.
  exists l1, (l2 ++ [x]). split_and!; [by rewrite <- app_assoc | done |].
  intros j' Hin Hk. apply elem_of_app in Hin as [Hin | Hin]; [by apply Hle|].
  apply list_elem_of_singleton in Hin as ->. by apply Hx.
Qed.

Lemma best_in_last seen x :
  (∀ j', j' ∈ seen → company_key_of j' = company_key_of x → score_of j' < score_of x) →
  best_in (seen ++ [x]) x.
Proof.
  intros Hlt. exists seen, []. split_and!; [done | done |].
  intros j' Hin. by apply elem_of_nil in Hin.
Qed.

Lemma pick_inv_nil : pick_inv contacted [] [].
Proof.
  split_and!.
  - apply NoDup_nil_2.
  - intros k j s Hin. by apply elem_of_nil in Hin.
  - intros j Hin. by apply elem_of_nil in Hin.
Qed.

Lemma pick_inv_step seen d x :
  pick_inv contacted seen d →
  pick_inv contacted (seen ++ [x]) (pick_step contacted d x).
Proof.
  intros (Hnd & Hent & Hcov). unfold pick_step.
  destruct (decide (company_key_of x ∈ contacted)) as [Hex | Hex].
  { rewrite bool_decide_true by done. split_and!; [done | |].
    - intros k j s Hin. destruct (Hent _ _ _ Hin) as (-> & -> & Hk & Hb).
      split_and!; [done | done | done |].
      apply best_in_snoc; [done|]. intros Heq. by rewrite Heq in Hex.
    - intros j Hin Hj. apply elem_of_app in Hin as [Hin | Hin]; [by apply Hcov|].
      apply list_elem_of_singleton in Hin as ->. done. }
  rewrite bool_decide_false by done.
  assert (Hnew :
    (∀ j', j' ∈ seen → company_key_of j' = company_key_of x → score_of j' < score_of x) →
    pick_inv contacted (seen ++ [x]) (dict_set (company_key_of x) (x, score_of x) d)).
  { intros Hlt. split_and!.
    - by apply dict_set_NoDup.
    - intros k j s Hin. apply dict_set_elem in Hin; [|done].
      destruct Hin as [[-> Heq] | [Hin Hne]].
      + injection Heq as -> ->. split_and!; [done | done | done |]. by apply best_in_last.
      + destruct (Hent _ _ _ Hin) as (-> & -> & Hk & Hb).
        split_and!; [done | done | done |].
        apply best_in_snoc; [done|]. intros Heq. by rewrite Heq in Hne.
    - intros j Hin Hj. rewrite dict_set_keys.
      apply elem_of_app in Hin as [Hin | Hin].
      + specialize (Hcov _ Hin Hj). case_bool_decide; [done|].
        apply elem_of_app. by left.
      + apply list_elem_of_singleton in Hin as ->.
        case_bool_decide; [done|]. apply elem_of_app. right.
        by apply list_elem_of_singleton. }
  destruct (dict_get (company_key_of x) d) as [[j0 s0]|] eqn:Hget.
  - pose proof (dict_get_Some _ _ _ Hget) as Hin0.
    destruct (Hent _ _ _ Hin0) as (Hk0 & -> & _ & Hb0). simpl.
    destruct (Z.ltb_spec (score_of j0) (score_of x)) as [Hlt | Hge].
    + apply Hnew. intros j' Hin Hk.
      assert (score_of j' ≤ score_of j0); [|lia].
      apply (best_in_le seen); [done | done | congruence].
    + split_and!; [done | |].
      * intros k j s Hin.
        destruct (Hent _ _ _ Hin) as (-> & -> & Hk & Hb).
        split_and!; [done | done | done |].
        apply best_in_snoc; [done|]. intros Heq.
        rewrite Heq in Hget. rewrite (dict_get_elem _ _ _ Hnd Hin) in Hget.
        by simplify_eq.
      * intros j Hin Hj. apply elem_of_app in Hin as [Hin | Hin]; [by apply Hcov|].
        apply list_elem_of_singleton in Hin as ->.
        apply dict_get_is_Some. by rewrite Hget.
  - apply Hnew. intros j' Hin Hk. exfalso.
    apply dict_get_None in Hget. apply Hget. rewrite <- Hk.
    apply Hcov; [done|]. by rewrite Hk.
Qed.

Lemma pick_inv_fold jobs seen d :
  pick_inv contacted seen d →
  pick_inv contacted (seen ++ jobs) (fold_left (pick_step contacted) jobs d).
Proof.
  revert seen d. induction jobs as [|x jobs IH]; intros seen d Hinv; simpl.
  - by rewrite app_nil_r.
  - replace (seen ++ x :: jobs) with ((seen ++ [x]) ++ jobs)
      by (by rewrite <- app_assoc).
    apply IH. by apply pick_inv_step.
Qed.

Lemma pick_best_elem jobs j :
  j ∈ _pick_best_per_company jobs contacted → j ∈ jobs.
Proof.
  unfold _pick_best_per_company. intros Hin.
  apply list_elem_of_fmap in Hin as ([k [j' s]] & -> & Hin). simpl.
  destruct (pick_inv_fold jobs [] [] pick_inv_nil) as (_ & Hent & _).
  destruct (Hent _ _ _ Hin) as (_ & _ & _ & l1 & l2 & Heq & _).
  simpl in Heq. rewrite Heq. apply elem_of_app. right. apply elem_of_cons. by left.
Qed.

End PickBest.

(** C4. [_pick_best_per_company] returns a list in which no two entries
    share a normalized (trimmed, lowercased) employer key and no entry's key
    is in the excluded set; each entry is the highest-scoring job of its
    employer, the first-encountered one on a tie; and every employer that
    is not excluded keeps an entry. *)
Theorem pick_best_per_company_spec (jobs : list job_or_row) (contacted : gset string) :
  let result := _pick_best_per_company jobs contacted in
  NoDup (company_key_of <$> result) ∧
  (∀ j, j ∈ result → company_key_of j ∉ contacted) ∧
  (∀ j, j ∈ result → best_in jobs j) ∧
  (∀ j, j ∈ jobs → company_key_of j ∉ contacted →
     ∃ j', j' ∈ result ∧ company_key_of j' = company_key_of j).
Proof.
  unfold _pick_best_per_company.
  pose proof (pick_inv_fold contacted jobs [] [] (pick_inv_nil contacted)) as Hinv.
  simpl in Hinv. set (d := fold_left (pick_step contacted) jobs []) in *.
  destruct Hinv as (Hnd & Hent & Hcov). cbv zeta.
  assert (Hkeys : company_key_of <$> ((λ entry, entry.2.1) <$> d) = d.*1).
  { rewrite <- list_fmap_compose. apply Forall_fmap_ext_1, Forall_forall.
    intros [k [j s]] Hin. simpl. by destruct (Hent _ _ _ Hin) as (-> & _). }
  split_and!.
  - by rewrite Hkeys.
  - intros j Hin. apply list_elem_of_fmap in Hin as ([k [j' s]] & -> & Hin). simpl.
    by destruct (Hent _ _ _ Hin) as (<- & _ & Hk & _).
  - intros j Hin. apply list_elem_of_fmap in Hin as ([k [j' s]] & -> & Hin). simpl.
    by destruct (Hent _ _ _ Hin) as (_ & _ & _ & Hb).
  - intros j Hin Hj. specialize (Hcov _ Hin Hj).
    apply list_elem_of_fmap in Hcov as ([k [j' s]] & Hk & Hin'). simpl in Hk.
    exists j'. split.
    + apply list_elem_of_fmap. by exists (k, (j', s)).
    + destruct (Hent _ _ _ Hin') as (<- & _). done.
Qed.

(** * Text: facts about the string primitives *)
Section Text.
Implicit Types (s t p sub : string) (c : ascii).

Lemma append_cons c s t : String c s +:+ t = String c (s +:+ t).
Proof. reflexivity. Qed.

Lemma append_empty_l s : EmptyString +:+ s = s.
Proof. reflexivity. Qed.

Lemma append_assoc s t p : (s +:+ t) +:+ p = s +:+ (t +:+ p).
Proof. induction s as [|c s IH]; [done|]. rewrite !append_cons. by f_equal. Qed.

Lemma lower_app s t : lower (s +:+ t) = lower s +:+ lower t.
Proof.
  induction s as [|c s IH]; [done|].
  rewrite append_cons. simpl. rewrite append_cons. by f_equal.
Qed.

Lemma startswith_app p s t : startswith p s = true → startswith p (s +:+ t) = true.
Proof.
  revert s. induction p as [|a p IH]; intros [|b s]; simpl; try done.
  rewrite ?append_cons. simpl. destruct (Ascii.eqb a b); [apply IH | done].
Qed.

Lemma startswith_self p t : startswith p (p +:+ t) = true.
Proof.
  induction p as [|a p IH]; [done|].
  rewrite append_cons. simpl. by rewrite Ascii.eqb_refl.
Qed.

Lemma str_in_here sub s : startswith sub s = true → str_in sub s = true.
Proof. intros H. destruct s; simpl; rewrite H; done. Qed.

Lemma str_in_app_l sub s t : str_in sub s = true → str_in sub (s +:+ t) = true.
Proof.
  induction s as [|c s IH]; intros H.
  - apply str_in_here, (startswith_app sub EmptyString t).
    simpl in H. by rewrite orb_false_r in H.
  - change (startswith sub (String c s) || str_in sub s = true) in H.
    change (startswith sub (String c s +:+ t) || str_in sub (s +:+ t) = true).
    apply orb_true_iff in H as [H | H].
    + by rewrite (startswith_app _ _ t H).
    + rewrite (IH H). apply orb_true_r.
Qed.

Lemma str_in_app_r sub s t : str_in sub t = true → str_in sub (s +:+ t) = true.
Proof.
  intros H. induction s as [|c s IH]; [done|].
  change (startswith sub (String c s +:+ t) || str_in sub (s +:+ t) = true).
  rewrite IH. apply orb_true_r.
Qed.

Lemma str_in_middle sub s t : str_in sub (s +:+ sub +:+ t) = true.
Proof. apply str_in_app_r, str_in_here, startswith_self. Qed.

Lemma any_in_app_l kws s t : any_in kws s = true → any_in kws (s +:+ t) = true.
Proof.
  unfold any_in. rewrite !existsb_exists. intros (kw & Hin & H).
  exists kw. split; [done | by apply str_in_app_l].
Qed.

Lemma any_in_elem kws kw s : kw ∈ kws → str_in kw s = true → any_in kws s = true.
Proof.
  intros Hin H. unfold any_in. rewrite existsb_exists.
  exists kw. split; [by apply list_elem_of_In | done].
Qed.

End Text.

(** * Scoring *)
Section Scoring.

Lemma startswith_refl p : startswith p p = true.
Proof. induction p as [|a p IH]; [done|]. simpl. by rewrite Ascii.eqb_refl. Qed.

Lemma str_in_suffix sub s : str_in sub (s +:+ sub) = true.
Proof. apply str_in_app_r, str_in_here, startswith_refl. Qed.

Lemma js_keywords_lower kw : kw ∈ JS_KEYWORDS → lower kw = kw.
Proof.
  assert (H : Forall (λ kw, lower kw = kw) JS_KEYWORDS)
    by (repeat constructor).
  intros Hin. by apply (proj1 (Forall_forall _ _) H).
Qed.

Lemma score_terms job :
  _job_priority_score job =
  language_points job + role_points job + react_native_points job.
Proof.
  unfold _job_priority_score, language_points, role_points,
    react_native_points, combined_text.
  repeat match goal with |- context [if ?b then _ else _] => destruct b end; lia.
Qed.

Lemma language_points_append job sep kw :
  kw ∈ JS_KEYWORDS → language_points (append_to_title job (sep +:+ kw)) = 100.
Proof.
  intros Hin. unfold language_points, combined_text, append_to_title.
  cbn [title description].
  rewrite !lower_app, (js_keywords_lower _ Hin).
  rewrite (any_in_elem _ kw); [done | done |].
  apply str_in_app_l, str_in_app_r, str_in_suffix.
Qed.

Lemma language_points_le job : language_points job ≤ 100.
Proof. unfold language_points. destruct (any_in _ _); lia. Qed.

Lemma role_points_append job kw :
  role_points job ≤ role_points (append_to_title job kw).
Proof.
  unfold role_points, append_to_title. cbn [title]. rewrite lower_app.
  set (t := lower (title job)). set (k := lower kw).
  destruct (any_in FULL_STACK_KEYWORDS t) eqn:E1.
  { by rewrite (any_in_app_l _ _ k E1). }
  destruct (any_in FULL_STACK_KEYWORDS (t +:+ k)).
  { repeat match goal with |- context [if ?b then _ else _] => destruct b end; lia. }
  destruct (any_in FRONTEND_KEYWORDS t) eqn:E2.
  { by rewrite (any_in_app_l _ _ k E2). }
  destruct (any_in FRONTEND_KEYWORDS (t +:+ k)).
  { repeat match goal with |- context [if ?b then _ else _] => destruct b end; lia. }
  destruct (any_in BACKEND_KEYWORDS t) eqn:E3.
  { by rewrite (any_in_app_l _ _ k E3). }
  destruct (any_in BACKEND_KEYWORDS (t +:+ k)); lia.
Qed.

Lemma react_native_points_bounds job : 0 ≤ react_native_points job ≤ 40.
Proof. unfold react_native_points. destruct (str_in _ _); lia. Qed.

Lemma react_native_points_append job kw :
  ¬ react_native_across_seam job →
  react_native_points job ≤ react_native_points (append_to_title job kw).
Proof.
  intros Hseam. unfold react_native_points.
  destruct (str_in "react native" (combined_text job)) eqn:E;
    [|by destruct (str_in "react native" (combined_text (append_to_title job kw)))].
  assert (Hin : str_in "react native" (combined_text (append_to_title job kw)) = true);
    [|by rewrite Hin].
  unfold combined_text in *. unfold append_to_title. cbn [title description].
  rewrite lower_app.
  destruct (str_in "react native" (lower (title job))) eqn:Et.
  { by apply str_in_app_l, str_in_app_l. }
  destruct (str_in "react native" (lower (description job))) eqn:Ed.
  { by apply str_in_app_r, str_in_app_r. }
  exfalso. apply Hseam. by split_and!.
Qed.

End Scoring.

(** C9 (amended). Appending a JS/TS-ecosystem keyword to the title of a
    job, directly or after any separator, never lowers its score by more
    than the 40 points of the ["react native"] bonus, and never lowers it
    at all unless that bonus comes only from an occurrence of
    ["react native"] that runs across the seam between title and
    description. *)
Theorem score_append_keyword (job : Job) (sep kw : string) :
  kw ∈ JS_KEYWORDS →
  _job_priority_score job - 40
    ≤ _job_priority_score (append_to_title job (sep +:+ kw)) ∧
  (¬ react_native_across_seam job →
   _job_priority_score job ≤ _job_priority_score (append_to_title job (sep +:+ kw))).
Proof.
  intros Hkw. rewrite !score_terms.
  pose proof (language_points_append job sep kw Hkw).
  pose proof (language_points_le job).
  pose proof (role_points_append job (sep +:+ kw)).
  pose proof (react_native_points_bounds job).
  pose proof (react_native_points_bounds (append_to_title job (sep +:+ kw))).
  split; [lia|]. intros Hseam.
  pose proof (react_native_points_append job (sep +:+ kw) Hseam). lia.
Qed.

Lemma score_append_keyword_witness :
  "react" ∈ JS_KEYWORDS ∧
  ¬ react_native_across_seam (Job_of "Frontend Developer" "Acme" EmptyString LINKEDIN) ∧
  _job_priority_score (Job_of "Frontend Developer" "Acme" EmptyString LINKEDIN)
    ≤ _job_priority_score
        (append_to_title (Job_of "Frontend Developer" "Acme" EmptyString LINKEDIN)
           (" " +:+ "react")).
Proof.
  assert (Hkw : "react" ∈ JS_KEYWORDS).
  { unfold JS_KEYWORDS. rewrite !elem_of_cons. tauto. }
  assert (Hseam : ¬ react_native_across_seam
                      (Job_of "Frontend Developer" "Acme" EmptyString LINKEDIN)).
  { intros (H & _). vm_compute in H. discriminate. }
  split_and!; [done | done |].
  by apply (score_append_keyword
              (Job_of "Frontend Developer" "Acme" EmptyString LINKEDIN) " " "react").
Defined.

(** C9 as stated fails: title ["React"], description ["Native developer"],
    keyword ["nodejs"]. The bonus for ["react native"] is lost with the
    seam: the score goes from 140 down to 100. *)
Lemma score_append_keyword_counterexample :
  "nodejs" ∈ JS_KEYWORDS ∧
  ¬ (_job_priority_score (Job_of "React" "Acme" "Native developer" LINKEDIN)
     ≤ _job_priority_score
         (append_to_title (Job_of "React" "Acme" "Native developer" LINKEDIN) "nodejs")).
Proof.
  split.
  - unfold JS_KEYWORDS. rewrite !elem_of_cons. tauto.
  - vm_compute. intros H. by apply H.
Qed.

(** C8 (amended). The two jobs of scenario B score 50 and 20, not 150 and
    20: neither title nor (empty) description names a JS/TS keyword. The
    selection returns only the Full Stack Engineer job. *)
Theorem scenario_b_selection (src1 src2 : JobSource) :
  _pick_best_per_company
    [IsJob (full_stack_at_acme src1); IsJob (backend_at_acme src2)] ∅
    = [IsJob (full_stack_at_acme src1)] ∧
  _job_priority_score (full_stack_at_acme src1) = 50 ∧
  _job_priority_score (backend_at_acme src2) = 20.
Proof. by destruct src1, src2; vm_compute. Qed.

(** C8 as stated fails: the first job does not score 150. *)
Lemma scenario_b_counterexample :
  ¬ (_pick_best_per_company
       [IsJob (full_stack_at_acme LINKEDIN); IsJob (backend_at_acme LINKEDIN)] ∅
       = [IsJob (full_stack_at_acme LINKEDIN)] ∧
     _job_priority_score (full_stack_at_acme LINKEDIN) = 150 ∧
     _job_priority_score (backend_at_acme LINKEDIN) = 20).
Proof. intros (_ & H & _). vm_compute in H. discriminate. Qed.

(** * Email discovery *)
Section Discovery.
Import EmailFinder Eff.

Lemma rank_emails_cons e emails :
  ∃ e' rest, _rank_emails (e :: emails) = e' :: rest.
Proof.
  unfold _rank_emails. simpl. destruct (is_hr e); simpl; [by eauto|].
  destruct (List.filter is_hr emails) as [|e' hr]; simpl; by eauto.
Qed.

Lemma scenario_c_scan :
  findall EMAIL_PATTERN scenario_c_text = ["jobs@acme.io"; "noreply@acme.io"].
Proof. by vm_compute. Qed.

Lemma scenario_c_extract :
  _extract_emails_from_text scenario_c_text = ["jobs@acme.io"].
Proof. by vm_compute. Qed.

End Discovery.

(** C7. When the scan of the description yields an address that passes the
    denylist, [find_application_email] returns the first of the ranked
    description addresses and requests no page: the log of requests is left
    as it was, whatever the URL, the company name and the job page. *)
Theorem cascade_short_circuits
    (http_get : nat → string → option EmailFinder.Soup)
    (urlparse : string → string * string)
    (list_of_set : list string → list string)
    (job_description job_url company_name : string)
    (job_page_soup : option EmailFinder.Soup) (log : EmailFinder.Net) :
  EmailFinder._extract_emails_from_text job_description ≠ [] →
  ∃ e rest,
    EmailFinder._rank_emails (EmailFinder._extract_emails_from_text job_description)
      = e :: rest ∧
    EmailFinder.find_application_email http_get urlparse list_of_set
      job_description job_url company_name job_page_soup log
      = (Eff.Return e, log).
Proof.
  intros Hne. unfold EmailFinder.find_application_email.
  destruct (EmailFinder._extract_emails_from_text job_description) as [|e0 l]; [done|].
  destruct (rank_emails_cons e0 l) as (e & rest & Hrank).
  exists e, rest. by rewrite Hrank.
Qed.

Lemma cascade_short_circuits_witness :
  EmailFinder._extract_emails_from_text scenario_c_text ≠ [] ∧
  ∃ e rest,
    EmailFinder._rank_emails (EmailFinder._extract_emails_from_text scenario_c_text)
      = e :: rest ∧
    EmailFinder.find_application_email (λ _ _, None) (λ _, (EmptyString, EmptyString)) (λ l, l)
      scenario_c_text "https://example.org/job/1" "Acme" None []
      = (Eff.Return e, []).
Proof.
  assert (Hne : EmailFinder._extract_emails_from_text scenario_c_text ≠ []).
  { rewrite scenario_c_extract. discriminate. }
  split; [done|].
  by apply (cascade_short_circuits (λ _ _, None) (λ _, (EmptyString, EmptyString)) (λ l, l)
              scenario_c_text "https://example.org/job/1" "Acme" None []).
Defined.

(** C6. For the description of scenario C and no job page, email discovery
    returns ["jobs@acme.io"] (and requests nothing): the pattern finds both
    addresses, the prefix denylist drops ["noreply@acme.io"], and the local
    part ["jobs"] is HR-indicative, which ranks the surviving address first. *)
Theorem scenario_c_discovery
    (http_get : nat → string → option EmailFinder.Soup)
    (urlparse : string → string * string)
    (list_of_set : list string → list string)
    (job_url company_name : string) (log : EmailFinder.Net) :
  EmailFinder.find_application_email http_get urlparse list_of_set
    scenario_c_text job_url company_name None log
    = (Eff.Return "jobs@acme.io", log) ∧
  EmailFinder.findall EmailFinder.EMAIL_PATTERN scenario_c_text
    = ["jobs@acme.io"; "noreply@acme.io"] ∧
  EmailFinder.before_first_at "noreply@acme.io" ∈ EmailFinder.SKIP_PREFIXES ∧
  EmailFinder._is_valid_email "noreply@acme.io" = false ∧
  EmailFinder._is_valid_email "jobs@acme.io" = true ∧
  EmailFinder.is_hr "jobs@acme.io" = true ∧
  EmailFinder._rank_emails (EmailFinder._extract_emails_from_text scenario_c_text)
    = ["jobs@acme.io"].
Proof.
  split_and!; [| by vm_compute ..].
  unfold EmailFinder.find_application_email.
  by rewrite scenario_c_extract.
Qed.

(** * The drafts table *)
Section Drafts.
Implicit Types (rows : list DraftRow) (d : DraftRow) (id : Z).

Lemma find_draft_Some rows id d :
  head (filter (λ x, d_id x = id) rows) = Some d → d ∈ rows ∧ d_id d = id.
Proof.
  intros H. apply head_Some_elem_of in H.
  apply list_elem_of_filter in H. tauto.
Qed.

Lemma find_draft_elem rows d :
  NoDup (d_id <$> rows) → d ∈ rows →
  head (filter (λ x, d_id x = d_id d) rows) = Some d.
Proof.
  induction rows as [|r rows IH]; csimpl; intros Hnd Hin.
  - by apply elem_of_nil in Hin.
  - apply NoDup_cons in Hnd as [Hr Hnd].
    apply elem_of_cons in Hin as [<- | Hin].
    + by rewrite filter_cons_True.
    + rewrite filter_cons_False; [by apply IH|].
      intros Heq. apply Hr. rewrite Heq. by apply list_elem_of_fmap_2.
Qed.

Lemma update_where_id_ids f id rows :
  (∀ d, d_id (f d) = d_id d) →
  d_id <$> update_where_id f id rows = d_id <$> rows.
Proof.
  intros Hf. unfold update_where_id. rewrite <- list_fmap_compose.
  apply Forall_fmap_ext_1, Forall_forall. intros d _. simpl.
  by case_bool_decide.
Qed.

Lemma update_where_id_other f id rows d :
  d ∈ rows → d_id d ≠ id → d ∈ update_where_id f id rows.
Proof.
  intros Hin Hne. unfold update_where_id. apply list_elem_of_fmap.
  exists d. split; [|done]. by rewrite bool_decide_false.
Qed.

Lemma find_draft_update f id rows :
  (∀ d, d_id (f d) = d_id d) →
  head (filter (λ x, d_id x = id) (update_where_id f id rows))
  = f <$> head (filter (λ x, d_id x = id) rows).
Proof.
  intros Hf. induction rows as [|r rows IH]; [done|].
  unfold update_where_id in *. csimpl.
  destruct (decide (d_id r = id)) as [Heq | Hne].
  - rewrite bool_decide_true by done.
    rewrite !filter_cons_True; [done | done | by rewrite Hf].
  - rewrite bool_decide_false by done.
    by rewrite !filter_cons_False.
Qed.

Lemma rowcount_pos rows d : d ∈ rows → (0 <? rowcount (d_id d) rows) = true.
Proof.
  intros Hin. apply Z.ltb_lt. unfold rowcount.
  assert (Hf : d ∈ filter (λ x, d_id x = d_id d) rows)
    by (by apply list_elem_of_filter).
  destruct (filter _ rows); [by apply elem_of_nil in Hf | simpl; lia].
Qed.

(** What a command does to a draft that is not sent leaves the sent
    drafts, and the distinctness of the ids, as they are. *)
Lemma status_update_keeps_sent db d0 d status :
  NoDup (d_id <$> drafts db) →
  get_draft_by_id (d_id d0) db = Some d0 → d_status d0 ≠ "sent" →
  d ∈ drafts db → d_status d = "sent" →
  let db' := snd (update_draft_status (d_id d0) status db) in
  NoDup (d_id <$> drafts db') ∧ d ∈ drafts db'.
Proof.
  intros Hnd Hget Hns Hin Hs. simpl. split.
  - by rewrite update_where_id_ids.
  - apply update_where_id_other; [done|]. intros Heq.
    unfold get_draft_by_id in Hget. rewrite <- Heq in Hget.
    rewrite (find_draft_elem _ _ Hnd Hin) in Hget. by simplify_eq.
Qed.

Ltac command_loop IH status :=
  match goal with
  | Hnd : NoDup _, Hin : _ ∈ _, Hs : d_status _ = _
    |- context [get_draft_by_id ?id ?db] =>
      let E := fresh "E" in
      let Hst := fresh "Hst" in
      destruct (get_draft_by_id id db) as [d0|] eqn:E; simpl;
      [ case_bool_decide as Hst; simpl;
        [ by apply IH
        | pose proof (find_draft_Some _ _ _ E) as [_ <-];
          destruct (status_update_keeps_sent db d0 _ status Hnd E Hst Hin Hs);
          by apply IH ]
      | by apply IH ]
  end.

Lemma approve_each_keeps_sent ids db d :
  NoDup (d_id <$> drafts db) → d ∈ drafts db → d_status d = "sent" →
  NoDup (d_id <$> drafts (snd (Cli.approve_each ids db))) ∧
  d ∈ drafts (snd (Cli.approve_each ids db)).
Proof.
  revert db. induction ids as [|id ids IH]; intros db Hnd Hin Hs; simpl; [done|].
  command_loop IH "approved".
Qed.

Lemma discard_each_keeps_sent ids db d :
  NoDup (d_id <$> drafts db) → d ∈ drafts db → d_status d = "sent" →
  NoDup (d_id <$> drafts (snd (Cli.discard_each ids db))) ∧
  d ∈ drafts (snd (Cli.discard_each ids db)).
Proof.
  revert db. induction ids as [|id ids IH]; intros db Hnd Hin Hs; simpl; [done|].
  command_loop IH "discarded".
Qed.

End Drafts.

(** C1 (amended). The rejection of a status change on a sent draft is the
    work of the approve and discard commands: they look the draft up, report
    "already sent" and leave the store as it is, so after any run of either
    command a sent draft is still the same row. The store operation
    [update_draft_status] itself has no such guard: on a sent draft it
    returns [True] and sets the status to the target status. *)
Theorem sent_draft_guarded_by_commands
    (db : DB) (draft : DraftRow) (draft_ids : list Z) (status : string) :
  NoDup (d_id <$> drafts db) → draft ∈ drafts db → d_status draft = "sent" →
  get_draft_by_id (d_id draft) (snd (Cli.approve_drafts_cmd draft_ids db)) = Some draft ∧
  get_draft_by_id (d_id draft) (snd (Cli.discard_drafts_cmd draft_ids db)) = Some draft ∧
  Cli.approve_drafts_cmd [d_id draft] db = ([Cli.AlreadySent (d_id draft)], db) ∧
  Cli.discard_drafts_cmd [d_id draft] db = ([Cli.AlreadySent (d_id draft)], db) ∧
  fst (update_draft_status (d_id draft) status db) = true ∧
  get_draft_by_id (d_id draft) (snd (update_draft_status (d_id draft) status db))
    = Some (with_status status draft).
Proof.
  intros Hnd Hin Hs.
  assert (Hget : get_draft_by_id (d_id draft) db = Some draft)
    by (by apply find_draft_elem).
  split_and!.
  - destruct (approve_each_keeps_sent draft_ids db draft) as [Hnd' Hin']; [done..|].
    by apply find_draft_elem.
  - destruct (discard_each_keeps_sent draft_ids db draft) as [Hnd' Hin']; [done..|].
    by apply find_draft_elem.
  - unfold Cli.approve_drafts_cmd, init_db. simpl. rewrite Hget.
    by rewrite bool_decide_true.
  - unfold Cli.discard_drafts_cmd, init_db. simpl. rewrite Hget.
    by rewrite bool_decide_true.
  - simpl. by apply rowcount_pos.
  - unfold get_draft_by_id in *. simpl. rewrite find_draft_update; [|done].
    by rewrite Hget.
Qed.

Lemma sent_draft_guarded_by_commands_witness :
  get_draft_by_id 1 (snd (Cli.approve_drafts_cmd [1; 2] sent_draft_db)) = Some sent_draft ∧
  get_draft_by_id 1 (snd (Cli.discard_drafts_cmd [1; 2] sent_draft_db)) = Some sent_draft ∧
  Cli.approve_drafts_cmd [1] sent_draft_db = ([Cli.AlreadySent 1], sent_draft_db) ∧
  Cli.discard_drafts_cmd [1] sent_draft_db = ([Cli.AlreadySent 1], sent_draft_db) ∧
  fst (update_draft_status 1 "discarded" sent_draft_db) = true ∧
  get_draft_by_id 1 (snd (update_draft_status 1 "discarded" sent_draft_db))
    = Some (with_status "discarded" sent_draft).
Proof.
  apply (sent_draft_guarded_by_commands sent_draft_db sent_draft [1; 2] "discarded").
  - apply NoDup_singleton.
  - apply list_elem_of_singleton. reflexivity.
  - reflexivity.
Defined.

(** C1 as stated fails: [update_draft_status] on a sent draft with the
    target ["approved"] is carried out, and the status is no longer
    ["sent"]. *)
Lemma sent_draft_status_counterexample :
  d_status sent_draft = "sent" ∧
  update_draft_status 1 "approved" sent_draft_db
    = (true, set_drafts [with_status "approved" sent_draft] sent_draft_db) ∧
  ¬ (d_status <$> get_draft_by_id 1 (snd (update_draft_status 1 "approved" sent_draft_db))
     = Some "sent").
Proof. split_and!; [done | done |]. vm_compute. discriminate. Qed.

(** * The seen-jobs table *)

Section SeenJobs.
Import Eff.

Lemma is_job_seen_iff job db :
  is_job_seen job db = true ↔ unique_key job ∈ seen_keys db.
Proof.
  unfold is_job_seen, seen_keys. rewrite existsb_exists, list_elem_of_fmap.
  split.
  - intros (r & Hin & Hk). apply bool_decide_eq_true in Hk.
    exists r. split; [done | by apply list_elem_of_In].
  - intros (r & Hk & Hin). exists r.
    split; [by apply list_elem_of_In | by apply bool_decide_eq_true].
Qed.

Lemma is_job_seen_key j job db :
  unique_key j = unique_key job → is_job_seen j db = is_job_seen job db.
Proof. intros Hk. unfold is_job_seen. by rewrite Hk. Qed.

Lemma mark_job_seen_unfold job db :
  mark_job_seen job db =
  (PyNone, if is_job_seen job db then db
           else set_seen_jobs (seen_jobs db ++ [seen_row_of job]) db).
Proof. unfold mark_job_seen, is_job_seen. by destruct (existsb _ _). Qed.

Lemma is_job_seen_marked job db : is_job_seen job (snd (mark_job_seen job db)) = true.
Proof.
  rewrite mark_job_seen_unfold. simpl.
  destruct (is_job_seen job db) eqn:E; [done|].
  apply is_job_seen_iff. unfold seen_keys. simpl. rewrite fmap_app.
  apply elem_of_app. right. by apply list_elem_of_singleton.
Qed.

Lemma seen_keys_marked job db :
  NoDup (seen_keys db) → NoDup (seen_keys (snd (mark_job_seen job db))).
Proof.
  intros Hnd. rewrite mark_job_seen_unfold. simpl.
  destruct (is_job_seen job db) eqn:E; [done|].
  unfold seen_keys. simpl. rewrite fmap_app. apply NoDup_app.
  split_and!; [done | | apply NoDup_singleton].
  intros k Hk Hk'. apply list_elem_of_singleton in Hk'. subst k. simpl in Hk.
  apply is_job_seen_iff in Hk. congruence.
Qed.

Lemma mark_job_seen_again job db :
  is_job_seen job db = true → mark_job_seen job db = (PyNone, db).
Proof. intros H. by rewrite mark_job_seen_unfold, H. Qed.

Lemma mark_replays job replays db :
  Forall (λ j, unique_key j = unique_key job) replays →
  is_job_seen job db = true →
  foldl (λ d j, snd (mark_job_seen j d)) db replays = db.
Proof.
  intros Hall Hseen. induction Hall as [|j js Hk _ IH]; [done|]. simpl.
  rewrite mark_job_seen_again; [done|]. by rewrite (is_job_seen_key _ job).
Qed.

Lemma filter_new_seen js new_with_email new_no_email w :
  Forall (λ j, is_job_seen j (db w) = true) js →
  filter_new js new_with_email new_no_email w
  = (Return (new_with_email, new_no_email), w).
Proof.
  intros Hall. induction Hall as [|j js Hj _ IH]; [done|].
  simpl. unfold bind, read_db. by rewrite Hj.
Qed.

Lemma filter_new_replays job replays w :
  Forall (λ j, unique_key j = unique_key job) replays →
  filter_new (job :: replays) [] [] w =
  if is_job_seen job (db w) then (Return ([], []), w)
  else (Return (if nonempty (application_email job)
                then ([job], []) else ([], [job])),
        set_db (snd (mark_job_seen job (db w))) w).
Proof.
  intros Hall. simpl. unfold bind at 1. unfold read_db at 1.
  destruct (is_job_seen job (db w)) eqn:E.
  - apply filter_new_seen. eapply Forall_impl; [done|].
    intros j Hk. simpl in Hk. by rewrite (is_job_seen_key _ job).
  - unfold bind, call_db.
    assert (Hseen : Forall (λ j, is_job_seen j
              (db (set_db (snd (mark_job_seen job (db w))) w)) = true) replays).
    { eapply Forall_impl; [done|]. intros j Hk. simpl in Hk. simpl.
      rewrite (is_job_seen_key _ job) by done. apply is_job_seen_marked. }
    destruct (nonempty (application_email job));
      by rewrite filter_new_seen.
Qed.

End SeenJobs.

(** C2 (amended). [mark_job_seen] returns [None], not a boolean: it adds
    the row when the key is absent and changes nothing when it is present
    (no duplicate keys, no error on replay, further calls for the same key
    are no-ops). Whether a job is new is what [is_job_seen] answers before
    the call; in the filtering loop of [run_agent], of a job followed by
    replays with the same key only the first is taken as new, and only when
    its key was absent. *)
Theorem mark_job_seen_insert_if_absent (job : Job) (replays : list Job) (w : World) :
  NoDup (seen_keys (db w)) →
  Forall (λ j, unique_key j = unique_key job) replays →
  let marked := mark_job_seen job (db w) in
  fst marked = PyNone ∧
  (is_job_seen job (db w) = false ↔ unique_key job ∉ seen_keys (db w)) ∧
  snd marked = (if is_job_seen job (db w) then db w
                else set_seen_jobs (seen_jobs (db w) ++ [seen_row_of job]) (db w)) ∧
  NoDup (seen_keys (snd marked)) ∧
  is_job_seen job (snd marked) = true ∧
  foldl (λ d j, snd (mark_job_seen j d)) (snd marked) replays = snd marked ∧
  filter_new (job :: replays) [] [] w =
    (if is_job_seen job (db w) then (Eff.Return ([], []), w)
     else (Eff.Return (if nonempty (application_email job)
                       then ([job], []) else ([], [job])),
           set_db (snd marked) w)).
Proof.
  intros Hnd Hall marked. subst marked. split_and!.
  - by rewrite mark_job_seen_unfold.
  - rewrite <- is_job_seen_iff. by destruct (is_job_seen job (db w)).
  - by rewrite mark_job_seen_unfold.
  - by apply seen_keys_marked.
  - apply is_job_seen_marked.
  - apply (mark_replays job); [done | apply is_job_seen_marked].
  - by apply filter_new_replays.
Qed.

(** * Pending jobs *)
Section Pending.

Global Instance desc_by_total {A} (key : A → string) : Total (desc_by key).
Proof. intros x y. unfold desc_by. destruct (total String.le (key x) (key y)); auto. Qed.

Global Instance desc_by_trans {A} (key : A → string) : Transitive (desc_by key).
Proof. intros x y z Hxy Hyz. unfold desc_by in *. by etrans. Qed.

Lemma nonempty_iff s : nonempty s = true ↔ s ≠ EmptyString.
Proof. by destruct s. Qed.

Lemma has_application_iff s db :
  has_application s db = false ↔
  ∀ a, a ∈ applications db → ¬ (a_job_title a = s_title s ∧ a_company a = s_company s).
Proof.
  unfold has_application. rewrite <- not_true_iff_false, existsb_exists. split.
  - intros Hno a Hin [Ht Hc]. apply Hno. exists a.
    split; [by apply list_elem_of_In|].
    apply andb_true_iff. split; by apply bool_decide_eq_true.
  - intros Hno (a & Hin & Ha). apply andb_true_iff in Ha as [Ht Hc].
    apply bool_decide_eq_true in Ht, Hc.
    apply (Hno a); [by apply list_elem_of_In | done].
Qed.

Lemma has_draft_iff s db :
  has_draft s db = false ↔
  ∀ d, d ∈ drafts db → d_job_unique_key d ≠ s_unique_key s.
Proof.
  unfold has_draft. rewrite <- not_true_iff_false, existsb_exists. split.
  - intros Hno d Hin Hk. apply Hno. exists d.
    split; [by apply list_elem_of_In | by apply bool_decide_eq_true].
  - intros Hno (d & Hin & Hd). apply bool_decide_eq_true in Hd.
    apply (Hno d); [by apply list_elem_of_In | done].
Qed.

Lemma pending_row_iff db s : pending_row db s = true ↔ is_pending db s.
Proof.
  unfold pending_row, is_pending.
  rewrite !andb_true_iff, !negb_true_iff, nonempty_iff,
    has_application_iff, has_draft_iff. tauto.
Qed.

End Pending.

(** C5. [get_pending_jobs] returns exactly the seen jobs (each as often as
    the table holds it) with a non-empty contact address, no application
    with the same title and employer, and no draft, whatever its status,
    with the same identity key; the result is in descending order of the
    stored discovery timestamp, newest first. *)
Theorem get_pending_jobs_spec (db : DB) :
  let result := get_pending_jobs db in
  result ≡ₚ filter (λ s, pending_row db s = true) (seen_jobs db) ∧
  (∀ s, pending_row db s = true ↔ is_pending db s) ∧
  (∀ s, s ∈ result ↔ s ∈ seen_jobs db ∧ is_pending db s) ∧
  StronglySorted (λ newer older, String.le (s_discovered_at older) (s_discovered_at newer))
    result.
Proof.
  unfold get_pending_jobs, order_by_desc. split_and!.
  - apply merge_sort_Permutation.
  - apply pending_row_iff.
  - intros s. rewrite merge_sort_Permutation, list_elem_of_filter, pending_row_iff.
    tauto.
  - apply (StronglySorted_merge_sort (desc_by s_discovered_at)).
Qed.

(** * Rate limiting *)

Section Accounting.
Implicit Types (w : World) (cs : option (Z * Z)).

Lemma delivered_count_cons a attempts :
  delivered_count (a :: attempts)
  = (if delivered a then 1 else 0) + delivered_count attempts.
Proof.
  unfold delivered_count. destruct (delivered a) eqn:E.
  - rewrite filter_cons_True by done. simpl length. lia.
  - rewrite filter_cons_False by congruence. lia.
Qed.

Lemma failed_count_cons a attempts :
  failed_count (a :: attempts)
  = (if delivered a then 0 else 1) + failed_count attempts.
Proof.
  unfold failed_count. destruct (delivered a) eqn:E.
  - rewrite filter_cons_False by congruence. lia.
  - rewrite filter_cons_True by done. simpl length. lia.
Qed.

Lemma delivered_count_nonneg attempts : 0 ≤ delivered_count attempts.
Proof. unfold delivered_count. lia. Qed.

Lemma counters_since_shift {S} (sent failed : S → Z) (s s1 : S) ds df outcome :
  sent s1 = sent s + ds → failed s1 = failed s + df →
  shift ds df (counters_since sent failed s1 outcome)
  = counters_since sent failed s outcome.
Proof.
  intros Hs Hf. destruct outcome; simpl; [|done]. do 2 f_equal; lia.
Qed.

Lemma counters_since_zero {S} (sent failed : S → Z) (s : S) outcome :
  sent s = 0 → failed s = 0 →
  counters_since sent failed s outcome = counters sent failed outcome.
Proof.
  intros Hs Hf. destruct outcome; simpl; [|done]. do 2 f_equal; lia.
Qed.

(** The loop ends at once: no candidate is left, or the budget is used up. *)
Lemma accounting_stop max dry c n w :
  max ≤ n ∨ c = O → loop_accounting max dry c n w w (Some (0, 0)).
Proof.
  intros Hstop. exists []. rewrite app_nil_r.
  change (delivered_count []) with 0. change (failed_count []) with 0.
  split_and!; try done; try (simpl; lia).
  intros sent failed [= <- <-]. split_and!; try done; try lia.
  intros Hlt. destruct Hstop as [? | ->]; [lia | by destruct dry].
Qed.

(** The loop raises before an attempt is made. *)
Lemma accounting_raise max dry c n w : loop_accounting max dry c n w w None.
Proof.
  exists []. rewrite app_nil_r.
  change (delivered_count []) with 0.
  split_and!; try done; simpl; lia.
Qed.

(** A candidate processed in a dry run. *)
Lemma accounting_dry_step max c n w w1 w' cs :
  n < max → outbox w1 = outbox w →
  applications (db w1) = applications (db w) →
  loop_accounting max true c (n + 1) w1 w' cs →
  loop_accounting max true (S c) n w w' (shift 1 0 cs).
Proof.
  intros Hlt Ho Ha (attempts & Hout & Hdry & Hlen & Hlo & Hhi & Hb & Hcs).
  destruct (Hdry eq_refl) as [-> Happs].
  exists []. rewrite Hout, Ho, Happs, Ha.
  change (delivered_count []) with 0 in *. change (failed_count []) with 0 in *.
  split_and!; try done; try (simpl; lia).
  intros sent failed Hshift. destruct cs as [[s f]|]; [|done].
  injection Hshift as <- <-.
  destruct (Hcs s f eq_refl) as (Hf & _ & Hs0 & Hsb & Hall).
  split_and!; try done; try lia.
Qed.

(** A delivery that fails. *)
Lemma accounting_failed_step max c n w w1 w' cs a :
  n < max → outbox w1 = outbox w ++ [a] → delivered a = false →
  applications (db w1) = applications (db w) →
  loop_accounting max false c n w1 w' cs →
  loop_accounting max false (S c) n w w' (shift 0 1 cs).
Proof.
  intros Hlt Ho Hdel Ha (attempts & Hout & Hdry & Hlen & Hlo & Hhi & Hb & Hcs).
  exists (a :: attempts). rewrite Hout, Ho, <- app_assoc.
  rewrite delivered_count_cons, failed_count_cons, Hdel. rewrite Ha in *.
  split_and!; try done; try (simpl; lia).
  intros sent failed Hshift. destruct cs as [[s f]|]; [|done].
  injection Hshift as <- <-.
  destruct (Hcs s f eq_refl) as (Hf & Hreal & Hs0 & Hsb & Hall).
  destruct (Hreal eq_refl) as [Hs Hrows].
  split_and!; try done; try lia. simpl length. lia.
Qed.

(** A delivery that succeeds, with its application logged. *)
Lemma accounting_delivered_step max c n w w1 w' cs a :
  n < max → outbox w1 = outbox w ++ [a] → delivered a = true →
  length (applications (db w1)) = S (length (applications (db w))) →
  loop_accounting max false c (n + 1) w1 w' cs →
  loop_accounting max false (S c) n w w' (shift 1 0 cs).
Proof.
  intros Hlt Ho Hdel Ha (attempts & Hout & Hdry & Hlen & Hlo & Hhi & Hb & Hcs).
  exists (a :: attempts). rewrite Hout, Ho, <- app_assoc.
  rewrite delivered_count_cons, failed_count_cons, Hdel. rewrite Ha in *.
  split_and!; try done; try (simpl; lia).
  intros sent failed Hshift. destruct cs as [[s f]|]; [|done].
  injection Hshift as <- <-.
  destruct (Hcs s f eq_refl) as (Hf & Hreal & Hs0 & Hsb & Hall).
  destruct (Hreal eq_refl) as [Hs Hrows].
  split_and!; try done; try lia. simpl length. lia.
Qed.

(** A delivery that succeeds, after which the loop raises. *)
Lemma accounting_delivered_raise max c n w w1 a :
  n < max → outbox w1 = outbox w ++ [a] → delivered a = true →
  applications (db w1) = applications (db w) →
  loop_accounting max false (S c) n w w1 None.
Proof.
  intros Hlt Ho Hdel Ha. exists [a]. rewrite Ho, Ha.
  rewrite delivered_count_cons, Hdel. change (delivered_count []) with 0.
  split_and!; try done; simpl; lia.
Qed.

(** From the loop, started at zero, to the run. *)
Lemma rate_limited_loop config sent_today dry c w w0 w' cs :
  0 < max_applications_per_day (limits config) - sent_today →
  outbox w0 = outbox w → applications (db w0) = applications (db w) →
  loop_accounting
    (Z.min (max_applications_per_run (limits config))
           (max_applications_per_day (limits config) - sent_today))
    dry c 0 w0 w' cs →
  rate_limited config sent_today dry c w w' cs.
Proof.
  intros Hpos Ho Ha (attempts & Hout & Hdry & Hlen & Hlo & Hhi & Hb & Hcs).
  exists attempts. rewrite Ho, Ha in *.
  split_and!; [done | intros ?; exfalso; lia |].
  intros _. split_and!; try done; try lia.
  intros sent failed Hc. destruct (Hcs sent failed Hc) as (Hf & Hreal & Hs0 & Hsb & Hall).
  split_and!; try done; lia.
Qed.

(** A run that finds the daily limit reached. *)
Lemma rate_limited_idle config sent_today dry c w w' :
  max_applications_per_day (limits config) - sent_today ≤ 0 →
  outbox w' = outbox w → db w' = db w → llm_calls w' = llm_calls w →
  rate_limited config sent_today dry c w w' (Some (0, 0)).
Proof.
  intros Hle Ho Hd Hl. exists []. rewrite app_nil_r.
  split_and!; [done | done | intros ?; exfalso; lia].
Qed.

End Accounting.

Section RateLimit.
Import Eff.
Variable utcnow : nat → string.
Variable generate : nat → Job → string * string.
Variable deliver : nat → string → string → string → bool.

Lemma apply_loop_break max dry entry rest n s w :
  max ≤ n → apply_loop utcnow generate deliver max dry (entry :: rest) n s w = (Return s, w).
Proof. intros H. simpl. by rewrite (proj2 (Z.leb_le _ _) H). Qed.

Lemma apply_loop_dry max job rest n s w :
  n < max →
  apply_loop utcnow generate deliver max true (IsJob job :: rest) n s w
  = apply_loop utcnow generate deliver max true rest (n + 1) (sent_incr s) (after_generate w).
Proof. intros H. simpl. by rewrite (proj2 (Z.leb_gt _ _) H). Qed.

Lemma apply_loop_failed max job rest n s w :
  let generated := generate (llm_calls w) job in
  n < max →
  deliver (length (outbox w)) (application_email job) (fst generated) (snd generated)
    = false →
  apply_loop utcnow generate deliver max false (IsJob job :: rest) n s w
  = apply_loop utcnow generate deliver max false rest n (failed_incr s)
      (after_attempt (application_email job) (fst generated) (snd generated) false
         (after_generate w)).
Proof.
  intros g H Hd. simpl. rewrite (proj2 (Z.leb_gt _ _) H).
  unfold bind, generate_application_email, send_application_email. simpl.
  fold g. by rewrite Hd.
Qed.

Lemma apply_loop_delivered max job rest n s w :
  let generated := generate (llm_calls w) job in
  let w1 := after_attempt (application_email job) (fst generated) (snd generated) true
              (after_generate w) in
  n < max →
  deliver (length (outbox w)) (application_email job) (fst generated) (snd generated)
    = true →
  apply_loop utcnow generate deliver max false (IsJob job :: rest) n s w
  = apply_loop utcnow generate deliver max false rest (n + 1) (sent_incr s)
      (set_db (log_application
                 (application_for job (fst generated) (snd generated)
                    (utcnow (clock_reads w)))
                 (db w))
         (after_clock w1)).
Proof.
  intros g w1 H Hd. simpl. rewrite (proj2 (Z.leb_gt _ _) H).
  unfold bind, generate_application_email, send_application_email. simpl.
  fold g. by rewrite Hd.
Qed.

Lemma apply_loop_accounting max dry jobs n s w :
  Forall (λ e, ∃ job, e = IsJob job) jobs →
  ∃ s' w',
    apply_loop utcnow generate deliver max dry jobs n s w = (Return s', w') ∧
    loop_accounting max dry (length jobs) n w w'
      (counters_since applications_sent applications_failed s (Return s')).
Proof.
  intros Hjobs. revert n s w.
  induction Hjobs as [|e rest [job ->] _ IH]; intros n s w.
  { exists s, w. split; [done|]. simpl.
    rewrite !Z.sub_diag. apply accounting_stop. by right. }
  destruct (Z.le_gt_cases max n) as [Hle | Hlt].
  { exists s, w. split; [by apply apply_loop_break|]. simpl.
    rewrite !Z.sub_diag. apply accounting_stop. by left. }
  destruct dry.
  - rewrite apply_loop_dry by done.
    destruct (IH (n + 1) (sent_incr s) (after_generate w)) as (s' & w' & -> & Hacc).
    exists s', w'. split; [done|].
    rewrite <- (counters_since_shift _ _ s (sent_incr s) 1 0) by (simpl; lia).
    by eapply accounting_dry_step.
  - set (g := generate (llm_calls w) job).
    destruct (deliver (length (outbox w)) (application_email job) (fst g) (snd g)) eqn:Hd.
    + rewrite apply_loop_delivered by done. fold g.
      match goal with |- context [apply_loop _ _ _ _ _ rest _ _ ?x] =>
        destruct (IH (n + 1) (sent_incr s) x) as (s' & w' & -> & Hacc)
      end.
      exists s', w'. split; [done|].
      rewrite <- (counters_since_shift _ _ s (sent_incr s) 1 0) by (simpl; lia).
      eapply accounting_delivered_step; [done | | | | done]; [done | done |].
      simpl. rewrite length_app. simpl. lia.
    + rewrite apply_loop_failed by done. fold g.
      match goal with |- context [apply_loop _ _ _ _ _ rest _ _ ?x] =>
        destruct (IH n (failed_incr s) x) as (s' & w' & -> & Hacc)
      end.
      exists s', w'. split; [done|].
      rewrite <- (counters_since_shift _ _ s (failed_incr s) 0 1) by (simpl; lia).
      eapply accounting_failed_step; [done | | | | done]; done.
Qed.

Lemma pending_loop_break max dry entry rest n s w :
  max ≤ n → pending_loop utcnow generate deliver max dry (entry :: rest) n s w = (Return s, w).
Proof. intros H. simpl. by rewrite (proj2 (Z.leb_le _ _) H). Qed.

Lemma pending_loop_raise max dry row rest n s w :
  n < max → JobSource_of_value (s_source row) = None →
  pending_loop utcnow generate deliver max dry (IsRow row :: rest) n s w = (Raise "ValueError", w).
Proof.
  intros H Hsrc. simpl. rewrite (proj2 (Z.leb_gt _ _) H).
  unfold bind, job_source. by rewrite Hsrc.
Qed.

Lemma pending_loop_dry max row rest n s w src :
  n < max → JobSource_of_value (s_source row) = Some src →
  pending_loop utcnow generate deliver max true (IsRow row :: rest) n s w
  = pending_loop utcnow generate deliver max true rest (n + 1) (p_sent_incr s) (after_generate w).
Proof.
  intros H Hsrc. simpl. rewrite (proj2 (Z.leb_gt _ _) H).
  unfold bind, job_source. by rewrite Hsrc.
Qed.

Lemma pending_loop_failed max row rest n s w src :
  let job := job_of_row row src in
  let generated := generate (llm_calls w) job in
  n < max → JobSource_of_value (s_source row) = Some src →
  deliver (length (outbox w)) (application_email job) (fst generated) (snd generated)
    = false →
  pending_loop utcnow generate deliver max false (IsRow row :: rest) n s w
  = pending_loop utcnow generate deliver max false rest n (p_failed_incr s)
      (after_attempt (application_email job) (fst generated) (snd generated) false
         (after_generate w)).
Proof.
  intros job g H Hsrc Hd. subst g job. unfold job_of_row in *.
  simpl. rewrite (proj2 (Z.leb_gt _ _) H).
  unfold bind, job_source, generate_application_email, send_application_email.
  rewrite Hsrc. simpl in *. by rewrite Hd.
Qed.

Lemma pending_loop_delivered max row rest n s w src :
  let job := job_of_row row src in
  let generated := generate (llm_calls w) job in
  let w1 := after_attempt (application_email job) (fst generated) (snd generated) true
              (after_generate w) in
  n < max → JobSource_of_value (s_source row) = Some src →
  deliver (length (outbox w)) (application_email job) (fst generated) (snd generated)
    = true →
  pending_loop utcnow generate deliver max false (IsRow row :: rest) n s w
  = pending_loop utcnow generate deliver max false rest (n + 1) (p_sent_incr s)
      (set_db (log_application
                 (application_for job (fst generated) (snd generated)
                    (utcnow (clock_reads w)))
                 (db w))
         (after_clock w1)).
Proof.
  intros job g w1 H Hsrc Hd. subst w1 g job. unfold job_of_row in *.
  simpl. rewrite (proj2 (Z.leb_gt _ _) H).
  unfold bind, job_source, generate_application_email, send_application_email.
  rewrite Hsrc. simpl in *. by rewrite Hd.
Qed.

Lemma pending_loop_accounting max dry rows n s w :
  Forall (λ e, ∃ row, e = IsRow row) rows →
  ∃ outcome w',
    pending_loop utcnow generate deliver max dry rows n s w = (outcome, w') ∧
    loop_accounting max dry (length rows) n w w'
      (counters_since p_applications_sent p_applications_failed s outcome).
Proof.
  intros Hrows. revert n s w.
  induction Hrows as [|e rest [row ->] _ IH]; intros n s w.
  { exists (Return s), w. split; [done|]. simpl.
    rewrite !Z.sub_diag. apply accounting_stop. by right. }
  destruct (Z.le_gt_cases max n) as [Hle | Hlt].
  { exists (Return s), w. split; [by apply pending_loop_break|]. simpl.
    rewrite !Z.sub_diag. apply accounting_stop. by left. }
  destruct (JobSource_of_value (s_source row)) as [src|] eqn:Hsrc.
  2:{ exists (Raise "ValueError"), w. split; [by apply pending_loop_raise|].
      apply accounting_raise. }
  destruct dry.
  - rewrite (pending_loop_dry _ _ _ _ _ _ src) by done.
    destruct (IH (n + 1) (p_sent_incr s) (after_generate w))
      as (outcome & w' & -> & Hacc).
    exists outcome, w'. split; [done|].
    rewrite <- (counters_since_shift _ _ s (p_sent_incr s) 1 0) by (simpl; lia).
    by eapply accounting_dry_step.
  - set (job := job_of_row row src).
    set (g := generate (llm_calls w) job).
    destruct (deliver (length (outbox w)) (application_email job) (fst g) (snd g)) eqn:Hd.
    + rewrite (pending_loop_delivered _ _ _ _ _ _ src) by done. fold job. fold g.
      match goal with |- context [pending_loop _ _ _ _ _ rest _ _ ?x] =>
        destruct (IH (n + 1) (p_sent_incr s) x) as (outcome & w' & -> & Hacc)
      end.
      exists outcome, w'. split; [done|].
      rewrite <- (counters_since_shift _ _ s (p_sent_incr s) 1 0) by (simpl; lia).
      eapply accounting_delivered_step; [done | | | | done]; [done | done |].
      simpl. rewrite length_app. simpl. lia.
    + rewrite (pending_loop_failed _ _ _ _ _ _ src) by done. fold job. fold g.
      match goal with |- context [pending_loop _ _ _ _ _ rest _ _ ?x] =>
        destruct (IH n (p_failed_incr s) x) as (outcome & w' & -> & Hacc)
      end.
      exists outcome, w'. split; [done|].
      rewrite <- (counters_since_shift _ _ s (p_failed_incr s) 0 1) by (simpl; lia).
      eapply accounting_failed_step; [done | | | | done]; done.
Qed.

Lemma filter_new_total js new_with_email new_no_email w :
  ∃ buckets w',
    filter_new js new_with_email new_no_email w = (Return buckets, w') ∧
    outbox w' = outbox w ∧ llm_calls w' = llm_calls w ∧
    clock_reads w' = clock_reads w ∧
    applications (db w') = applications (db w) ∧
    drafts (db w') = drafts (db w).
Proof.
  revert new_with_email new_no_email w.
  induction js as [|job js IH]; intros wi wo w; [by eexists _, _|].
  simpl. unfold bind, read_db, call_db.
  destruct (is_job_seen job (db w)); [apply IH|].
  rewrite mark_job_seen_unfold. simpl.
  destruct (is_job_seen job (db w));
    destruct (nonempty (application_email job));
    match goal with |- context [filter_new js ?a ?b ?w1] =>
      destruct (IH a b w1) as (bk & w' & -> & ? & ? & ? & ? & ?)
    end; by eexists _, _.
Qed.

End RateLimit.

(** * Sending approved drafts *)

Section SendDrafts.
Import Eff.
Variable utcnow : nat → string.
Variable deliver : nat → string → string → string → bool.

Lemma send_loop_break max dry draft rest n s w :
  max ≤ n → send_loop utcnow deliver max dry (draft :: rest) n s w = (Return s, w).
Proof. intros H. simpl. by rewrite (proj2 (Z.leb_le _ _) H). Qed.

Lemma send_loop_failed max draft rest n s w :
  n < max →
  deliver (length (outbox w)) (d_recipient_email draft) (d_subject draft)
    (d_body draft) = false →
  send_loop utcnow deliver max false (draft :: rest) n s w
  = send_loop utcnow deliver max false rest n (d_failed_incr s)
      (after_attempt (d_recipient_email draft) (d_subject draft) (d_body draft)
         false w).
Proof.
  intros H Hd. simpl. rewrite (proj2 (Z.leb_gt _ _) H).
  unfold bind, send_application_email. simpl. by rewrite Hd.
Qed.

Lemma send_loop_raise max draft rest n s w :
  n < max →
  deliver (length (outbox w)) (d_recipient_email draft) (d_subject draft)
    (d_body draft) = true →
  JobSource_of_value (d_source draft) = None →
  send_loop utcnow deliver max false (draft :: rest) n s w
  = (Raise "ValueError",
     after_attempt (d_recipient_email draft) (d_subject draft) (d_body draft)
       true w).
Proof.
  intros H Hd Hsrc. simpl. rewrite (proj2 (Z.leb_gt _ _) H).
  unfold bind, send_application_email, job_source. simpl. by rewrite Hd, Hsrc.
Qed.

Lemma send_loop_delivered max draft rest n s w source :
  let w1 := after_clock
              (after_attempt (d_recipient_email draft) (d_subject draft)
                 (d_body draft) true w) in
  n < max →
  deliver (length (outbox w)) (d_recipient_email draft) (d_subject draft)
    (d_body draft) = true →
  JobSource_of_value (d_source draft) = Some source →
  send_loop utcnow deliver max false (draft :: rest) n s w
  = send_loop utcnow deliver max false rest (n + 1) (d_sent_incr s)
      (set_db
         (snd (update_draft_status (d_id draft) "sent"
                 (log_application
                    (application_of_draft draft source (utcnow (clock_reads w)))
                    (db w))))
         w1).
Proof.
  intros w1 H Hd Hsrc. simpl. rewrite (proj2 (Z.leb_gt _ _) H).
  unfold bind, send_application_email, job_source. simpl. by rewrite Hd, Hsrc.
Qed.

Lemma attempt_of_cons ds attempts d0 a0 draft a :
  attempt_of (d0 :: ds) (a0 :: attempts) draft a ↔
  (draft = d0 ∧ a = a0) ∨ attempt_of ds attempts draft a.
Proof.
  unfold attempt_of. split.
  - intros ([|i] & Hd & Ha); simpl in *; [left; by simplify_eq | right; eauto].
  - intros [[-> ->] | (i & Hd & Ha)]; [by exists O | by exists (S i)].
Qed.

Lemma attempt_of_nil ds draft a : ¬ attempt_of ds [] draft a.
Proof. by intros (i & _ & Ha). Qed.

Lemma attempt_of_elem ds attempts draft a :
  attempt_of ds attempts draft a → draft ∈ ds.
Proof. intros (i & Hd & _). by eapply list_elem_of_lookup_2. Qed.

Lemma logged_for_delivered_cons ds attempts d0 a0 app :
  logged_for_delivered ds attempts app →
  logged_for_delivered (d0 :: ds) (a0 :: attempts) app.
Proof.
  intros (draft & a & Hat & H). exists draft, a.
  split; [|done]. apply attempt_of_cons. by right.
Qed.

Lemma send_post_nothing ds s w : 
  NoDup (d_id <$> drafts (db w)) → send_post ds s w (Return s) w.
Proof.
  intros Hnd. exists [], []. rewrite !app_nil_r.
  split_and!; try done.
  - intros draft a Hat. by apply attempt_of_nil in Hat.
  - intros s' [= <-]. unfold failed_count, delivered_count. simpl. lia.
Qed.

Lemma send_loop_post max ds n s w :
  NoDup (d_id <$> drafts (db w)) → NoDup (d_id <$> ds) →
  Forall (λ d, d ∈ drafts (db w)) ds →
  ∃ outcome w',
    send_loop utcnow deliver max false ds n s w = (outcome, w') ∧ send_post ds s w outcome w'.
Proof.
  revert n s w. induction ds as [|d rest IH]; intros n s w Hnd Hids Hin.
  { exists (Return s), w. split; [done | by apply send_post_nothing]. }
  destruct (Z.le_gt_cases max n) as [Hle | Hlt].
  { exists (Return s), w.
    split; [by apply send_loop_break | by apply send_post_nothing]. }
  csimpl in Hids. apply NoDup_cons in Hids as [Hd Hids].
  apply Forall_cons in Hin as [Hdin Hin].
  destruct (deliver (length (outbox w)) (d_recipient_email d) (d_subject d) (d_body d))
    eqn:Hdel.
  - destruct (JobSource_of_value (d_source d)) as [source|] eqn:Hsrc.
    + rewrite (send_loop_delivered _ _ _ _ _ _ source) by done.
      set (app := application_of_draft d source (utcnow (clock_reads w))).
      set (a0 := {| to_email := d_recipient_email d; att_subject := d_subject d;
                    att_body := d_body d; delivered := true |}).
      match goal with |- context [send_loop _ _ _ _ rest _ _ ?x] => set (w2 := x) end.
      assert (Hdr : drafts (db w2)
                    = update_where_id (with_status "sent") (d_id d) (drafts (db w)))
        by done.
      assert (Hap : applications (db w2)
                    = applications (db w) ++ [app_row_of (applications_seq (db w) + 1) app])
        by done.
      assert (How : outbox w2 = outbox w ++ [a0]) by done.
      destruct (IH (n + 1) (d_sent_incr s) w2) as (outcome & w' & Hrun & Hpost).
      { rewrite Hdr. by rewrite update_where_id_ids. }
      { done. }
      { rewrite Hdr. apply Forall_forall. intros r Hr.
        apply update_where_id_other; [by apply (proj1 (Forall_forall _ _) Hin)|].
        intros Heq. apply Hd. rewrite <- Heq. by apply list_elem_of_fmap_2. }
      exists outcome, w'. split; [done|].
      destruct Hpost as (attempts & new_apps & Ho & Ha & Hlen & Hlog & Hnd' & Hrows & Hatt & Hsum).
      exists (a0 :: attempts), (app_row_of (applications_seq (db w) + 1) app :: new_apps).
      rewrite delivered_count_cons, failed_count_cons. simpl delivered.
      split_and!.
      * rewrite Ho, How. by rewrite <- app_assoc.
      * rewrite Ha, Hap. by rewrite <- app_assoc.
      * simpl length. lia.
      * apply Forall_cons. split.
        -- exists d, a0. split; [by exists O | done].
        -- eapply Forall_impl; [done|]. intros x. apply logged_for_delivered_cons.
      * done.
      * intros x Hx Hxid. csimpl in Hxid. apply not_elem_of_cons in Hxid as [Hne Hxid].
        apply Hrows; [|done]. rewrite Hdr. by apply update_where_id_other.
      * intros draft a Hat. apply attempt_of_cons in Hat as [[-> ->] | Hat].
        -- by split_and!.
        -- by apply Hatt.
      * intros s' Hs'. destruct (Hsum s' Hs') as [Hf Hs]. simpl in Hf, Hs. lia.
    + rewrite send_loop_raise by done.
      set (a0 := {| to_email := d_recipient_email d; att_subject := d_subject d;
                    att_body := d_body d; delivered := true |}).
      eexists _, _. split; [done|]. exists [a0], [].
      rewrite app_nil_r. split_and!; try done.
      intros draft a Hat. apply attempt_of_cons in Hat as [[-> ->] | Hat].
      * by split_and!.
      * by apply attempt_of_nil in Hat.
  - rewrite send_loop_failed by done.
    set (a0 := {| to_email := d_recipient_email d; att_subject := d_subject d;
                  att_body := d_body d; delivered := false |}).
    match goal with |- context [send_loop _ _ _ _ rest _ _ ?x] => set (w1 := x) end.
    destruct (IH n (d_failed_incr s) w1) as (outcome & w' & Hrun & Hpost);
      [done..|].
    exists outcome, w'. split; [done|].
    destruct Hpost as (attempts & new_apps & Ho & Ha & Hlen & Hlog & Hnd' & Hrows & Hatt & Hsum).
    exists (a0 :: attempts), new_apps.
    rewrite delivered_count_cons, failed_count_cons. simpl delivered.
    split_and!.
    + rewrite Ho. simpl. by rewrite <- app_assoc.
    + done.
    + lia.
    + eapply Forall_impl; [done|]. intros x. apply logged_for_delivered_cons.
    + done.
    + intros x Hx Hxid. csimpl in Hxid. apply not_elem_of_cons in Hxid as [Hne Hxid].
      by apply Hrows.
    + intros draft a Hat. apply attempt_of_cons in Hat as [[-> ->] | Hat].
      * split_and!; try done. intros _. by apply Hrows.
      * by apply Hatt.
    + intros s' Hs'. destruct (Hsum s' Hs') as [Hf Hs]. simpl in Hf, Hs. lia.
Qed.

End SendDrafts.

Section DraftsToSend.

Lemma unique_drafts_of_elem l seen sent d :
  d ∈ unique_drafts_of l seen sent → d ∈ l.
Proof.
  revert seen. induction l as [|x l IH]; intros seen; simpl; [done|].
  destruct (_ || _).
  - intros H. apply elem_of_cons. right. by eapply IH.
  - rewrite !elem_of_cons. intros [-> | H]; [by left | right; by eapply IH].
Qed.

Lemma unique_drafts_of_fresh l seen sent d :
  d ∈ unique_drafts_of l seen sent → lower (strip (d_company d)) ∉ seen.
Proof.
  revert seen. induction l as [|x l IH]; intros seen; simpl.
  - intros H. by apply elem_of_nil in H.
  - destruct (bool_decide (lower (strip (d_company x)) ∈ seen)) eqn:E1; simpl.
    { by apply IH. }
    apply bool_decide_eq_false in E1.
    destruct (bool_decide (lower (strip (d_company x)) ∈ sent)); [by apply IH|].
    rewrite elem_of_cons. intros [-> | H]; [done|].
    apply IH in H. set_solver.
Qed.

Lemma unique_drafts_of_NoDup l seen sent : NoDup (unique_drafts_of l seen sent).
Proof.
  revert seen. induction l as [|x l IH]; intros seen; simpl; [apply NoDup_nil_2|].
  destruct (_ || _); [apply IH|].
  apply NoDup_cons. split; [|apply IH].
  intros H. apply unique_drafts_of_fresh in H. set_solver.
Qed.

Lemma get_drafts_elem st db d :
  nonempty st = true →
  d ∈ get_drafts (Some st) db ↔ d ∈ drafts db ∧ d_status d = st.
Proof.
  intros Hst. unfold get_drafts, order_by_desc. rewrite Hst.
  rewrite merge_sort_Permutation, list_elem_of_filter. tauto.
Qed.

Lemma draft_id_inj db x y :
  NoDup (d_id <$> drafts db) → x ∈ drafts db → y ∈ drafts db →
  d_id x = d_id y → x = y.
Proof.
  intros Hnd Hx Hy Heq.
  pose proof (find_draft_elem _ _ Hnd Hx) as H1.
  pose proof (find_draft_elem _ _ Hnd Hy) as H2.
  rewrite Heq in H1. congruence.
Qed.

Lemma drafts_to_send_elem send_all db d :
  d ∈ drafts_to_send send_all db →
  d ∈ drafts db ∧ (d_status d = "approved" ∨ d_status d = "pending").
Proof.
  intros H. apply unique_drafts_of_elem in H.
  apply elem_of_app in H as [H | H].
  - apply get_drafts_elem in H; [|done]. tauto.
  - destruct send_all; [|by apply elem_of_nil in H].
    apply get_drafts_elem in H; [|done]. tauto.
Qed.

Lemma drafts_to_send_ids send_all db :
  NoDup (d_id <$> drafts db) → NoDup (d_id <$> drafts_to_send send_all db).
Proof.
  intros Hnd. apply NoDup_fmap_2_strong; [|apply unique_drafts_of_NoDup].
  intros x y Hx Hy. apply (draft_id_inj db); [done | |].
  - by apply (drafts_to_send_elem send_all).
  - by apply (drafts_to_send_elem send_all).
Qed.

End DraftsToSend.

Section SendApprovedDrafts.
Import Eff.

Lemma send_approved_drafts_unfold utcnow deliver config send_all dry w :
  send_approved_drafts utcnow deliver config send_all dry w =
  let w1 := after_clock w in
  let remaining_today :=
    max_applications_per_day (limits config)
    - get_applications_today (utcnow (clock_reads w)) (db w) in
  let max_this_run :=
    Z.min (max_applications_per_run (limits config)) remaining_today in
  let summary := {| drafts_found := 0; d_applications_sent := 0;
                    d_applications_failed := 0; d_dry_run := dry |} in
  let all_drafts :=
    get_drafts (Some "approved") (db w)
    ++ (if send_all then get_drafts (Some "pending") (db w) else []) in
  if remaining_today <=? 0 then (Return summary, w1)
  else
    match all_drafts with
    | [] => (Return (set_drafts_found 0 summary), w1)
    | _ :: _ =>
        let unique := drafts_to_send send_all (db w) in
        let summary :=
          set_drafts_found (Z.of_nat (length unique))
            (set_drafts_found (Z.of_nat (length all_drafts)) summary) in
        match unique with
        | [] => (Return summary, w1)
        | _ :: _ => Agent.send_loop utcnow deliver max_this_run dry unique 0 summary w1
        end
    end.
Proof.
  unfold send_approved_drafts, drafts_to_send, bind, ret, write_db,
    applications_today, utcnow_iso, read_db, bind, ret.
  cbn [db clock_reads set_db init_db llm_calls outbox]. cbv zeta.
  change (init_db (db w)) with (db w).
  destruct (_ <=? 0); [done|].
  destruct send_all; cbn [db]; rewrite ?app_nil_r.
  - destruct (_ ++ _); [done|]. by destruct (unique_drafts_of _ _ _).
  - destruct (get_drafts _ _); [done|]. by destruct (unique_drafts_of _ _ _).
Qed.

End SendApprovedDrafts.

Section SendLimited.
Import Eff.
Variable utcnow : nat → string.
Variable generate : nat → Job → string * string.
Variable deliver : nat → string → string → string → bool.
Variable scraped_posts scraped_linkedin scraped_twitter : list Job.

Lemma send_loop_dry max draft rest n s w :
  n < max →
  Agent.send_loop utcnow deliver max true (draft :: rest) n s w
  = Agent.send_loop utcnow deliver max true rest (n + 1) (d_sent_incr s) w.
Proof. intros H. simpl. by rewrite (proj2 (Z.leb_gt _ _) H). Qed.

Lemma send_loop_accounting max dry ds n s w :
  ∃ outcome w',
    Agent.send_loop utcnow deliver max dry ds n s w = (outcome, w') ∧
    loop_accounting max dry (length ds) n w w'
      (counters_since d_applications_sent d_applications_failed s outcome).
Proof.
  revert n s w. induction ds as [|d rest IH]; intros n s w.
  { exists (Return s), w. split; [done|]. simpl.
    rewrite !Z.sub_diag. apply accounting_stop. by right. }
  destruct (Z.le_gt_cases max n) as [Hle | Hlt].
  { exists (Return s), w. split; [by apply send_loop_break|]. simpl.
    rewrite !Z.sub_diag. apply accounting_stop. by left. }
  destruct dry.
  - rewrite send_loop_dry by done.
    destruct (IH (n + 1) (d_sent_incr s) w) as (outcome & w' & -> & Hacc).
    exists outcome, w'. split; [done|].
    rewrite <- (counters_since_shift _ _ s (d_sent_incr s) 1 0) by (simpl; lia).
    by eapply accounting_dry_step.
  - destruct (deliver (length (outbox w)) (d_recipient_email d) (d_subject d) (d_body d))
      eqn:Hdel.
    + destruct (JobSource_of_value (d_source d)) as [src|] eqn:Hsrc.
      * rewrite (send_loop_delivered _ _ _ _ _ _ _ _ src) by done.
        match goal with |- context [Agent.send_loop _ _ _ _ rest _ _ ?x] =>
          destruct (IH (n + 1) (d_sent_incr s) x) as (outcome & w' & -> & Hacc)
        end.
        exists outcome, w'. split; [done|].
        rewrite <- (counters_since_shift _ _ s (d_sent_incr s) 1 0) by (simpl; lia).
        eapply accounting_delivered_step; [done | | | | done]; [done | done |].
        simpl. rewrite length_app. simpl. lia.
      * rewrite send_loop_raise by done.
        eexists _, _. split; [done|].
        by eapply accounting_delivered_raise.
    + rewrite send_loop_failed by done.
      match goal with |- context [Agent.send_loop _ _ _ _ rest _ _ ?x] =>
        destruct (IH n (d_failed_incr s) x) as (outcome & w' & -> & Hacc)
      end.
      exists outcome, w'. split; [done|].
      rewrite <- (counters_since_shift _ _ s (d_failed_incr s) 0 1) by (simpl; lia).
      eapply accounting_failed_step; [done | | | | done]; done.
Qed.

Lemma run_agent_limited config dry w :
  let sent_today := get_applications_today (utcnow (S (clock_reads w))) (db w) in
  let candidates :=
    run_candidates (scraped_posts ++ scraped_linkedin ++ scraped_twitter)
      (after_clock (after_clock w)) in
  ∃ summary w',
    run_agent utcnow generate deliver scraped_posts scraped_linkedin scraped_twitter
      config dry w = (Return summary, w') ∧
    rate_limited config sent_today dry (length candidates) w w'
      (Some (applications_sent summary, applications_failed summary)) ∧
    (max_applications_per_day (limits config) - sent_today ≤ 0 →
     jobs_found summary = 0 ∧ jobs_new summary = 0 ∧
     jobs_with_email summary = 0 ∧ jobs_no_email summary = 0).
Proof.
  intros sent_today candidates.
  unfold run_agent.
  unfold bind at 1. unfold write_db at 1.
  unfold bind at 1. unfold utcnow_iso at 1.
  unfold bind at 1. unfold applications_today, bind at 1, utcnow_iso, read_db.
  cbn [db clock_reads set_db init_db llm_calls outbox].
  change (init_db (db w)) with (db w).
  fold sent_today.
  change {| db := db w; clock_reads := S (S (clock_reads w));
            llm_calls := llm_calls w; outbox := outbox w |}
    with (after_clock (after_clock w)) in *.
  set (w2 := after_clock (after_clock w)) in *.
  destruct (Z.leb_spec (max_applications_per_day (limits config) - sent_today) 0)
    as [Hle | Hgt].
  { eexists _, w2. split_and!; [done | by apply rate_limited_idle | done]. }
  unfold bind at 1. subst candidates. unfold run_candidates.
  destruct (filter_new_total (scraped_posts ++ scraped_linkedin ++ scraped_twitter)
              [] [] w2) as (bk & w3 & Hf & Ho & Hl & Hc & Ha & Hd).
  rewrite Hf. cbn [fst snd].
  destruct (fst bk) as [|j0 l0] eqn:Eb.
  { eexists _, w3. split_and!; [done | | intros ?; exfalso; lia].
    apply (rate_limited_loop _ _ _ _ _ w3); [done | done | done |].
    apply accounting_stop. by right. }
  unfold bind at 1. cbv beta.
  set (best := _pick_best_per_company (IsJob <$> j0 :: l0)
                 (get_contacted_companies (db w3))).
  assert (Hjobs : Forall (λ e, ∃ job, e = IsJob job) best).
  { apply Forall_forall. intros e He. apply pick_best_elem in He.
    apply list_elem_of_fmap in He as (job & -> & _). by exists job. }
  destruct best as [|b0 bs] eqn:Ebest.
  { eexists _, w3. split_and!; [done | | intros ?; exfalso; lia].
    apply (rate_limited_loop _ _ _ _ _ w3); [done | done | done |].
    apply accounting_stop. by right. }
  match goal with |- context [apply_loop _ _ _ ?m ?d ?js ?n ?s0 w3] =>
    destruct (apply_loop_accounting utcnow generate deliver m d js n s0 w3 Hjobs)
      as (s' & w' & Hrun & Hacc)
  end.
  exists s', w'. split_and!; [done | | intros ?; exfalso; lia].
  apply (rate_limited_loop _ _ _ _ _ w3); [done | done | done |].
  simpl in Hacc. by rewrite !Z.sub_0_r in Hacc.
Qed.

Lemma send_pending_limited config dry w :
  let sent_today := get_applications_today (utcnow (clock_reads w)) (db w) in
  ∃ outcome w',
    send_pending utcnow generate deliver config dry w = (outcome, w') ∧
    rate_limited config sent_today dry (length (pending_candidates (db w))) w w'
      (counters p_applications_sent p_applications_failed outcome).
Proof.
  intros sent_today.
  unfold send_pending, pending_candidates.
  unfold bind at 1. unfold write_db at 1.
  unfold bind at 1. unfold applications_today, bind at 1, utcnow_iso, read_db.
  cbn [db clock_reads set_db init_db llm_calls outbox].
  change (init_db (db w)) with (db w).
  fold sent_today.
  change {| db := db w; clock_reads := S (clock_reads w);
            llm_calls := llm_calls w; outbox := outbox w |}
    with (after_clock w) in *.
  destruct (Z.leb_spec (max_applications_per_day (limits config) - sent_today) 0)
    as [Hle | Hgt].
  { eexists _, _. split; [done|]. by apply rate_limited_idle. }
  unfold bind at 1. cbv beta. cbn [db after_clock].
  destruct (get_pending_jobs (db w)) as [|r0 rs] eqn:Ep.
  { eexists _, _. split; [done|].
    apply (rate_limited_loop _ _ _ _ _ (after_clock w)); [done | done | done |].
    apply accounting_stop. by right. }
  unfold bind at 1. cbv beta. cbn [db after_clock].
  set (best := _pick_best_per_company (IsRow <$> r0 :: rs)
                 (get_contacted_companies (db w))).
  assert (Hrows : Forall (λ e, ∃ row, e = IsRow row) best).
  { apply Forall_forall. intros e He. apply pick_best_elem in He.
    apply list_elem_of_fmap in He as (row & -> & _). by exists row. }
  destruct best as [|b0 bs] eqn:Ebest.
  { eexists _, _. split; [done|].
    apply (rate_limited_loop _ _ _ _ _ (after_clock w)); [done | done | done |].
    apply accounting_stop. by right. }
  match goal with |- context [pending_loop _ _ _ ?m ?d ?js ?n ?s0 ?w1] =>
    destruct (pending_loop_accounting utcnow generate deliver m d js n s0 w1 Hrows)
      as (outcome & w' & Hrun & Hacc)
  end.
  exists outcome, w'. split; [done|].
  apply (rate_limited_loop _ _ _ _ _ (after_clock w)); [done | done | done |].
  by rewrite counters_since_zero in Hacc.
Qed.

Lemma send_approved_drafts_limited config send_all dry w :
  let sent_today := get_applications_today (utcnow (clock_reads w)) (db w) in
  ∃ outcome w',
    send_approved_drafts utcnow deliver config send_all dry w = (outcome, w') ∧
    rate_limited config sent_today dry (length (drafts_to_send send_all (db w))) w w'
      (counters d_applications_sent d_applications_failed outcome).
Proof.
  intros sent_today. rewrite send_approved_drafts_unfold. cbv zeta.
  fold sent_today.
  destruct (Z.leb_spec (max_applications_per_day (limits config) - sent_today) 0)
    as [Hle | Hgt].
  { eexists _, _. split; [done|]. by apply rate_limited_idle. }
  assert (Hnil : drafts_to_send send_all (db w) = [] →
    ∀ s : DraftsSummary, d_applications_sent s = 0 → d_applications_failed s = 0 →
    rate_limited config sent_today dry (length (drafts_to_send send_all (db w)))
      w (after_clock w) (counters d_applications_sent d_applications_failed (Return s))).
  { intros -> s Hs Hf. simpl. rewrite Hs, Hf.
    apply (rate_limited_loop _ _ _ _ _ (after_clock w)); [done | done | done |].
    apply accounting_stop. by right. }
  destruct (_ ++ _) as [|x0 l0] eqn:Eall.
  { eexists _, _. split; [done|]. apply Hnil; [|done..].
    unfold drafts_to_send. by rewrite Eall. }
  destruct (drafts_to_send send_all (db w)) as [|d0 ds] eqn:Eds.
  { eexists _, _. split; [done|]. by apply Hnil. }
  match goal with |- context [Agent.send_loop _ _ ?m ?d ?js ?n ?s0 ?w1] =>
    destruct (send_loop_accounting m d js n s0 w1) as (outcome & w' & Hrun & Hacc)
  end.
  exists outcome, w'. split; [done|].
  apply (rate_limited_loop _ _ _ _ _ (after_clock w)); [done | done | done |].
  by rewrite counters_since_zero in Hacc.
Qed.

End SendLimited.

(** C3 (amended). Each of the three sending workflows keeps to the limits.
    When [maxPerDay - sentToday <= 0] the run attempts no delivery,
    generates nothing, leaves the store as it is and reports zero sent and
    zero failed ([run_agent]: zero in every counter). Otherwise the
    budget-consuming sends (the successful deliveries; in a dry run the
    candidates processed) number at most
    [max 0 (min maxPerRun (maxPerDay - sentToday))], which is
    [min maxPerRun (maxPerDay - sentToday)] whenever [maxPerRun] is not
    negative; a delivery that fails is counted in [applications_failed] and
    not in [applications_sent]; and failures do not stop the loop: as long
    as the budget is not used up, every candidate is attempted. *)
Theorem sending_rate_limited
    (utcnow : nat → string) (generate : nat → Job → string * string)
    (deliver : nat → string → string → string → bool)
    (scraped_posts scraped_linkedin scraped_twitter : list Job)
    (config : AppConfig) (send_all dry : bool) (w : World) :
  (∃ summary w',
     run_agent utcnow generate deliver scraped_posts scraped_linkedin scraped_twitter
       config dry w = (Eff.Return summary, w') ∧
     rate_limited config
       (get_applications_today (utcnow (S (clock_reads w))) (db w)) dry
       (length (run_candidates (scraped_posts ++ scraped_linkedin ++ scraped_twitter)
                  (after_clock (after_clock w))))
       w w' (Some (applications_sent summary, applications_failed summary)) ∧
     (max_applications_per_day (limits config)
        - get_applications_today (utcnow (S (clock_reads w))) (db w) ≤ 0 →
      jobs_found summary = 0 ∧ jobs_new summary = 0 ∧
      jobs_with_email summary = 0 ∧ jobs_no_email summary = 0)) ∧
  (∃ outcome w',
     send_pending utcnow generate deliver config dry w = (outcome, w') ∧
     rate_limited config (get_applications_today (utcnow (clock_reads w)) (db w)) dry
       (length (pending_candidates (db w)))
       w w' (counters p_applications_sent p_applications_failed outcome)) ∧
  (∃ outcome w',
     send_approved_drafts utcnow deliver config send_all dry w = (outcome, w') ∧
     rate_limited config (get_applications_today (utcnow (clock_reads w)) (db w)) dry
       (length (drafts_to_send send_all (db w)))
       w w' (counters d_applications_sent d_applications_failed outcome)).
Proof.
  split_and!.
  - apply run_agent_limited.
  - apply send_pending_limited.
  - apply send_approved_drafts_limited.
Qed.

(** C10. In a run of [send_approved_drafts] that is not a dry run, the
    delivery attempts are for the selected drafts, in order; each
    application row the run writes is for a draft whose delivery succeeded,
    and the run writes no more rows than deliveries succeeded. For a draft
    whose delivery attempt returns [False], the row of the draft is at the
    end of the run what it was at the start (all fields, the status among
    them, which is approved or pending and not sent), so a later run finds
    the draft again under that status. *)
Theorem failed_delivery_keeps_draft
    (utcnow : nat → string) (deliver : nat → string → string → string → bool)
    (config : AppConfig) (send_all : bool) (w : World) :
  NoDup (d_id <$> drafts (db w)) →
  ∃ outcome w' attempts new_apps,
    send_approved_drafts utcnow deliver config send_all false w = (outcome, w') ∧
    outbox w' = outbox w ++ attempts ∧
    applications (db w') = applications (db w) ++ new_apps ∧
    Z.of_nat (length new_apps) ≤ delivered_count attempts ∧
    Forall (logged_for_delivered (drafts_to_send send_all (db w)) attempts) new_apps ∧
    (∀ s, outcome = Eff.Return s → d_applications_failed s = failed_count attempts) ∧
    ∀ draft a, attempt_of (drafts_to_send send_all (db w)) attempts draft a →
      to_email a = d_recipient_email draft ∧ att_subject a = d_subject draft ∧
      att_body a = d_body draft ∧
      (d_status draft = "approved" ∨ d_status draft = "pending") ∧
      get_draft_by_id (d_id draft) (db w) = Some draft ∧
      (delivered a = false →
         get_draft_by_id (d_id draft) (db w') = Some draft ∧
         draft ∈ get_drafts (Some (d_status draft)) (db w')).
Proof.
  intros Hnd.
  assert (Hnone : ∀ s (w1 : World), db w1 = db w → outbox w1 = outbox w →
    d_applications_failed s = 0 →
    ∃ outcome w' attempts new_apps,
      (Eff.Return s, w1) = (outcome, w') ∧
      outbox w' = outbox w ++ attempts ∧
      applications (db w') = applications (db w) ++ new_apps ∧
      Z.of_nat (length new_apps) ≤ delivered_count attempts ∧
      Forall (logged_for_delivered (drafts_to_send send_all (db w)) attempts) new_apps ∧
      (∀ s, outcome = Eff.Return s → d_applications_failed s = failed_count attempts) ∧
      ∀ draft a, attempt_of (drafts_to_send send_all (db w)) attempts draft a →
        to_email a = d_recipient_email draft ∧ att_subject a = d_subject draft ∧
        att_body a = d_body draft ∧
        (d_status draft = "approved" ∨ d_status draft = "pending") ∧
        get_draft_by_id (d_id draft) (db w) = Some draft ∧
        (delivered a = false →
           get_draft_by_id (d_id draft) (db w') = Some draft ∧
           draft ∈ get_drafts (Some (d_status draft)) (db w'))).
  { intros s w1 Hdb Ho Hf. exists (Eff.Return s), w1, [], [].
    rewrite !app_nil_r, Hdb. split_and!; try done.
    - intros s' [= <-]. by rewrite Hf.
    - intros draft a Hat. by apply attempt_of_nil in Hat. }
  rewrite send_approved_drafts_unfold. cbv zeta.
  destruct (_ <=? 0); [by apply Hnone|].
  destruct (_ ++ _) as [|x0 l0]; [by apply Hnone|].
  pose proof (drafts_to_send_ids send_all (db w) Hnd) as Hids.
  assert (Hall : Forall (λ d, d ∈ drafts (db (after_clock w)))
                   (drafts_to_send send_all (db w))).
  { apply Forall_forall. intros d Hd. by apply drafts_to_send_elem in Hd as [? _]. }
  destruct (drafts_to_send send_all (db w)) as [|d0 ds] eqn:Eds; [by apply Hnone|].
  rewrite <- Eds in *.
  match goal with |- context [send_loop _ _ ?m _ _ ?n ?s0 _] =>
    destruct (send_loop_post utcnow deliver m (drafts_to_send send_all (db w))
                n s0 (after_clock w) Hnd Hids Hall)
      as (outcome & w' & Hrun & attempts & new_apps & Ho & Ha & Hlen & Hlog
          & Hnd' & Hrows & Hatt & Hsum)
  end.
  exists outcome, w', attempts, new_apps.
  split_and!; try done.
  - intros s Hs. destruct (Hsum s Hs) as [Hf _]. by rewrite Hf.
  - intros draft a Hat. destruct (Hatt _ _ Hat) as (H1 & H2 & H3 & Hkeep).
    pose proof (attempt_of_elem _ _ _ _ Hat) as Hin.
    apply drafts_to_send_elem in Hin as [Hin Hst].
    split_and!; try done.
    + by apply find_draft_elem.
    + intros Hdel. specialize (Hkeep Hdel). split.
      * by apply find_draft_elem.
      * apply get_drafts_elem; [by destruct Hst as [-> | ->] | done].
Qed.

(** * Concrete runs *)

Lemma mark_job_seen_insert_if_absent_witness :
  let job := posting "Acme" "1" in
  let marked := mark_job_seen job (db fresh_world) in
  fst marked = PyNone ∧
  (is_job_seen job (db fresh_world) = false ↔
   unique_key job ∉ seen_keys (db fresh_world)) ∧
  snd marked = (if is_job_seen job (db fresh_world) then db fresh_world
                else set_seen_jobs (seen_jobs (db fresh_world) ++ [seen_row_of job])
                       (db fresh_world)) ∧
  NoDup (seen_keys (snd marked)) ∧
  is_job_seen job (snd marked) = true ∧
  foldl (λ d j, snd (mark_job_seen j d)) (snd marked) [job; job] = snd marked ∧
  filter_new (job :: [job; job]) [] [] fresh_world =
    (if is_job_seen job (db fresh_world) then (Eff.Return ([], []), fresh_world)
     else (Eff.Return (if nonempty (application_email job)
                       then ([job], []) else ([], [job])),
           set_db (snd marked) fresh_world)).
Proof.
  apply (mark_job_seen_insert_if_absent (posting "Acme" "1")
           [posting "Acme" "1"; posting "Acme" "1"] fresh_world).
  - apply NoDup_nil_2.
  - repeat constructor.
Defined.

(** C2 as stated fails: on a store that does not hold the key,
    [mark_job_seen] returns [None], which is not [True] (nor any boolean). *)
Lemma mark_job_seen_counterexample :
  is_job_seen (posting "Acme" "1") empty_db = false ∧
  fst (mark_job_seen (posting "Acme" "1") empty_db) = PyNone ∧
  ¬ (fst (mark_job_seen (posting "Acme" "1") empty_db) = PyBool true) ∧
  truthy (fst (mark_job_seen (posting "Acme" "1") empty_db)) = false.
Proof. split_and!; [done | done | | done]. vm_compute. discriminate. Qed.

Lemma sending_rate_limited_witness :
  ∃ summary w',
    run_agent noon canned always_delivers four_postings [] []
      (limits_of 10 5) false three_sent_today = (Eff.Return summary, w') ∧
    applications_sent summary ≤ 2.
Proof.
  destruct (sending_rate_limited noon canned always_delivers four_postings [] []
              (limits_of 10 5) false false three_sent_today)
    as [(summary & w' & Hrun & (attempts & _ & _ & Hpos) & _) _].
  exists summary, w'. split; [exact Hrun|].
  destruct Hpos as (_ & _ & _ & Hc); [by vm_compute|].
  destruct (Hc _ _ eq_refl) as (_ & Hb & _).
  assert (H10 : 0 ≤ max_applications_per_run (limits (limits_of 10 5)))
    by (simpl; lia).
  specialize (Hb H10). vm_compute in Hb. exact Hb.
Defined.

(** C3 as stated fails for a negative per-run limit: with [maxPerRun = -1],
    [maxPerDay = 5] and nothing sent today, the run sends nothing, and 0 is
    not at most [min (-1) 5]. *)
Lemma sending_rate_limited_counterexample :
  ∃ summary w',
    run_agent noon canned always_delivers [posting "Acme" "1"] [] []
      (limits_of (-1) 5) false fresh_world = (Eff.Return summary, w') ∧
    get_applications_today (noon 1) (db fresh_world) = 0 ∧
    applications_sent summary = 0 ∧
    ¬ (applications_sent summary ≤ Z.min (-1) (5 - 0)).
Proof.
  eexists _, _. split; [by vm_compute|].
  split_and!; [done | done |]. simpl. lia.
Qed.

Lemma failed_delivery_keeps_draft_witness :
  ∃ outcome w' attempts new_apps,
    send_approved_drafts noon never_delivers (limits_of 10 30) false false two_approved
      = (outcome, w') ∧
    outbox w' = outbox two_approved ++ attempts ∧
    applications (db w') = applications (db two_approved) ++ new_apps ∧
    Z.of_nat (length new_apps) ≤ delivered_count attempts ∧
    Forall (logged_for_delivered (drafts_to_send false (db two_approved)) attempts)
      new_apps ∧
    (∀ s, outcome = Eff.Return s → d_applications_failed s = failed_count attempts) ∧
    ∀ draft a, attempt_of (drafts_to_send false (db two_approved)) attempts draft a →
      to_email a = d_recipient_email draft ∧ att_subject a = d_subject draft ∧
      att_body a = d_body draft ∧
      (d_status draft = "approved" ∨ d_status draft = "pending") ∧
      get_draft_by_id (d_id draft) (db two_approved) = Some draft ∧
      (delivered a = false →
         get_draft_by_id (d_id draft) (db w') = Some draft ∧
         draft ∈ get_drafts (Some (d_status draft)) (db w')).
Proof.
  apply (failed_delivery_keeps_draft noon never_delivers (limits_of 10 30) false
           two_approved).
  simpl. apply NoDup_cons. split.
  - rewrite list_elem_of_singleton. discriminate.
  - apply NoDup_singleton.
Defined.

(** A run of [send_approved_drafts] in which every delivery fails: both
    drafts are attempted, both are counted as failed, and the store is
    left as it was. *)
Example both_deliveries_fail :
  ∃ s w', send_approved_drafts noon never_delivers (limits_of 10 30) false false two_approved
          = (Eff.Return s, w') ∧
    db w' = db two_approved ∧ length (outbox w') = 2%nat ∧
    d_applications_sent s = 0 ∧ d_applications_failed s = 2.
Proof. eexists _, _. split; [by vm_compute|]. by split_and!. Qed.

(** Scenario D: with a daily limit of one and one application sent today,
    [send_pending] returns its summary with nothing sent or failed, and
    the delivery collaborator is not called. *)
Example daily_limit_reached :
  ∃ s w', send_pending noon canned always_delivers (limits_of 10 1) false one_sent_today
          = (Eff.Return s, w') ∧
    p_applications_sent s = 0 ∧ p_applications_failed s = 0 ∧
    outbox w' = [] ∧ db w' = db one_sent_today.
Proof. eexists _, _. split; [by vm_compute|]. by split_and!. Qed.

(** A run of [run_agent] with a budget of two: of four eligible postings
    the first two are applied to. *)
Example budget_of_two :
  ∃ s w', run_agent noon canned always_delivers four_postings [] []
            (limits_of 10 5) false three_sent_today = (Eff.Return s, w') ∧
    applications_sent s = 2 ∧ applications_failed s = 0 ∧
    length (outbox w') = 2%nat ∧ length (applications (db w')) = 5%nat.
Proof. eexists _, _. split; [by vm_compute|]. by split_and!. Qed.

(** * The store beyond the claims *)

Section Store.
Implicit Types (rows : list DraftRow) (d : DraftRow) (id : Z) (db : DB).


Lemma find_draft_None rows id :
head (filter (λ x, d_id x = id) rows) = None ↔ id ∉ d_id <$> rows.
Proof.
rewrite head_None. split.
- intros Hnil Hin. apply list_elem_of_fmap in Hin as (d & -> & Hin).
  assert (H : d ∈ filter (λ x, d_id x = d_id d) rows)
    by (by apply list_elem_of_filter).
  rewrite Hnil in H. by apply elem_of_nil in H.
- intros Hno. induction rows as [|r rows IH]; [done|].
  rewrite fmap_cons, not_elem_of_cons in Hno. destruct Hno as [Hr Hno].
  rewrite filter_cons_False by congruence. by apply IH.
Qed.




Lemma find_draft_other_update f id id' rows :
(∀ d, d_id (f d) = d_id d) → id' ≠ id →
head (filter (λ x, d_id x = id') (update_where_id f id rows))
= head (filter (λ x, d_id x = id') rows).
Proof.
intros Hf Hne. induction rows as [|r rows IH]; [done|].
unfold update_where_id in *. csimpl.
destruct (decide (d_id r = id)) as [Heq | Hr].
- rewrite bool_decide_true by done.
  rewrite !filter_cons_False; [done | congruence | rewrite Hf; congruence].
- rewrite bool_decide_false by done.
  destruct (decide (d_id r = id')) as [Heq' | Hr'].
  + by rewrite !filter_cons_True.
  + by rewrite !filter_cons_False.
Qed.


Lemma find_draft_snoc rows d id :
head (filter (λ x, d_id x = id) (rows ++ [d]))
= match head (filter (λ x, d_id x = id) rows) with
  | Some x => Some x
  | None => if bool_decide (d_id d = id) then Some d else None
  end.
Proof.
rewrite filter_app. destruct (filter _ rows) as [|x l]; [|done]. simpl.
case_bool_decide.
- by rewrite filter_cons_True.
- by rewrite filter_cons_False.
Qed.

Lemma drafts_ok_fresh db : drafts_ok db → drafts_seq db + 1 ∉ d_id <$> drafts db.
Proof.
intros [_ Hle] Hin. apply list_elem_of_fmap in Hin as (d & Heq & Hin).
rewrite Forall_forall in Hle. specialize (Hle d Hin). lia.
Qed.

Lemma drafts_ok_save db k t c l e s b src url now :
drafts_ok db → drafts_ok (snd (save_draft k t c l e s b src url now db)).
Proof.
intros Hok. pose proof (drafts_ok_fresh db Hok) as Hfresh.
destruct Hok as [Hnd Hle]. split; simpl.
- rewrite fmap_app. apply NoDup_app. split_and!; [done | | apply NoDup_singleton].
  intros x Hx Hx'. apply list_elem_of_singleton in Hx'. simpl in Hx'. by subst x.
- apply Forall_app. split.
  + eapply Forall_impl; [done|]. intros d Hd. simpl in *. lia.
  + apply Forall_singleton. simpl. lia.
Qed.

Lemma drafts_ok_update db f id :
(∀ d, d_id (f d) = d_id d) →
drafts_ok db → drafts_ok (set_drafts (update_where_id f id (drafts db)) db).
Proof.
intros Hf [Hnd Hle]. split; simpl.
- by rewrite update_where_id_ids.
- unfold update_where_id. apply Forall_fmap. eapply Forall_impl; [done|].
  intros d Hd. simpl in *. case_bool_decide; [by rewrite Hf | done].
Qed.

Lemma drafts_ok_delete db id :
drafts_ok db → drafts_ok (snd (delete_draft id db)).
Proof.
intros [Hnd Hle]. split; simpl.
- apply (NoDup_fmap_2_strong d_id).
  + intros x y Hx Hy. apply list_elem_of_filter in Hx as [_ Hx], Hy as [_ Hy].
    by apply (draft_id_inj db).
  + apply NoDup_filter. by eapply NoDup_fmap_1.
- apply Forall_forall. intros d Hd. apply list_elem_of_filter in Hd as [_ Hd].
  rewrite Forall_forall in Hle. by apply Hle.
Qed.

(** A selection that the update does not change, read through columns
  that it does not change. *)
Lemma update_keeps_selection f id rows (P : DraftRow → Prop) `{∀ d, Decision (P d)}
  {B} (g : DraftRow → B) :
(∀ d, P (f d) ↔ P d) → (∀ d, g (f d) = g d) →
g <$> filter P (update_where_id f id rows) = g <$> filter P rows.
Proof.
intros Hs Hg. induction rows as [|r rows IH]; [done|].
unfold update_where_id in *. csimpl.
assert (Hr : P (if bool_decide (d_id r = id) then f r else r) ↔ P r)
  by (destruct (bool_decide (d_id r = id)); [apply Hs | done]).
destruct (decide (P r)) as [Hp | Hp].
- rewrite (filter_cons_True _ r) by done.
  rewrite filter_cons_True by (by apply Hr).
  csimpl. rewrite IH. f_equal.
  destruct (bool_decide (d_id r = id)); [apply Hg | done].
- rewrite (filter_cons_False _ r) by done.
  rewrite filter_cons_False by (by rewrite Hr).
  apply IH.
Qed.

Lemma has_draft_update f id s db :
(∀ d, d_job_unique_key (f d) = d_job_unique_key d) →
has_draft s (set_drafts (update_where_id f id (drafts db)) db) = has_draft s db.
Proof.
intros Hf. unfold has_draft. simpl.
induction (drafts db) as [|r rows IH]; [done|].
unfold update_where_id in *. csimpl. rewrite IH. f_equal.
destruct (decide (d_id r = id)).
- rewrite (bool_decide_true (d_id r = id)) by done. by rewrite Hf.
- by rewrite (bool_decide_false (d_id r = id)).
Qed.

Lemma get_pending_jobs_update f id db :
(∀ d, d_job_unique_key (f d) = d_job_unique_key d) →
get_pending_jobs (set_drafts (update_where_id f id (drafts db)) db)
= get_pending_jobs db.
Proof.
intros Hf. unfold get_pending_jobs. f_equal.
apply list_filter_iff. intros s. unfold pending_row.
rewrite has_draft_update by done. done.
Qed.

End Store.

Section Sorting.
Context {A : Type} (key : A → string).

Lemma order_by_desc_perm (rows : list A) : order_by_desc key rows ≡ₚ rows.
Proof. apply merge_sort_Permutation. Qed.

Lemma order_by_desc_sorted (rows : list A) : newest_first key (order_by_desc key rows).
Proof. apply (StronglySorted_merge_sort (desc_by key)). Qed.



End Sorting.

(** X1. The drafts table keeps its ids distinct and at most the sequence:
    this holds of the empty store and is preserved by [save_draft],
    [update_draft_status], [update_draft_content] and [delete_draft]. *)
Theorem drafts_ok_preserved (db : DB)
    (job_unique_key job_title company location recipient_email subject body
     source source_url now status : string) (draft_id : Z) :
  drafts_ok db →
  drafts_ok empty_db ∧
  drafts_ok (snd (save_draft job_unique_key job_title company location
                    recipient_email subject body source source_url now db)) ∧
  drafts_ok (snd (update_draft_status draft_id status db)) ∧
  drafts_ok (snd (update_draft_content draft_id subject body db)) ∧
  drafts_ok (snd (delete_draft draft_id db)).
Proof.
  intros Hok. split_and!.
  - split; [apply NoDup_nil_2 | apply Forall_nil_2].
  - by apply drafts_ok_save.
  - by apply drafts_ok_update.
  - by apply drafts_ok_update.
  - by apply drafts_ok_delete.
Qed.

(** X2. [save_draft] returns the next id of the sequence, which no draft
    has yet; afterwards [get_draft_by_id] finds under that id the row just
    written, with the status ["pending"] and the creation time read from
    the clock, and every other id is answered as before. *)
Theorem save_draft_lookup (db : DB)
    (job_unique_key job_title company location recipient_email subject body
     source source_url now : string) :
  drafts_ok db →
  let saved := save_draft job_unique_key job_title company location
                 recipient_email subject body source source_url now db in
  fst saved = drafts_seq db + 1 ∧
  get_draft_by_id (fst saved) db = None ∧
  get_draft_by_id (fst saved) (snd saved)
    = Some (draft_row (fst saved) job_unique_key job_title company location
              recipient_email subject body source source_url now) ∧
  (∀ id, id ≠ fst saved → get_draft_by_id id (snd saved) = get_draft_by_id id db) ∧
  get_drafts (Some "pending") (snd saved)
    ≡ₚ draft_row (fst saved) job_unique_key job_title company location
         recipient_email subject body source source_url now
       :: get_drafts (Some "pending") db.
Proof.
  intros Hok saved. pose proof (drafts_ok_fresh db Hok) as Hfresh.
  apply find_draft_None in Hfresh. subst saved. simpl.
  unfold get_draft_by_id. simpl. split_and!.
  - done.
  - done.
  - rewrite find_draft_snoc, Hfresh. simpl. by rewrite bool_decide_true.
  - intros id Hne. rewrite find_draft_snoc.
    destruct (head (filter (λ x, d_id x = id) (drafts db))); [done|].
    rewrite bool_decide_false; [done | simpl; congruence].
  - unfold get_drafts, order_by_desc. simpl.
    rewrite !merge_sort_Permutation, filter_app, filter_cons_True by done.
    rewrite filter_nil. by rewrite <- Permutation_cons_append.
Qed.



(** X5. [update_draft_status] and [update_draft_content] rewrite only the
    columns they name: the draft found under the id afterwards is the old
    row with the new status, or the new subject and body; other ids are
    answered as before; and neither changes which jobs are pending, so a
    discarded draft still keeps its job out of [get_pending_jobs]. An edit
    of the content also leaves the contacted companies as they were. *)
Theorem draft_updates_are_local (db : DB) (draft_id : Z) (status subject body : string) :
  let db1 := snd (update_draft_status draft_id status db) in
  let db2 := snd (update_draft_content draft_id subject body db) in
  get_draft_by_id draft_id db1 = with_status status <$> get_draft_by_id draft_id db ∧
  get_draft_by_id draft_id db2
    = with_content subject body <$> get_draft_by_id draft_id db ∧
  (∀ id, id ≠ draft_id →
     get_draft_by_id id db1 = get_draft_by_id id db ∧
     get_draft_by_id id db2 = get_draft_by_id id db) ∧
  get_pending_jobs db1 = get_pending_jobs db ∧
  get_pending_jobs db2 = get_pending_jobs db ∧
  d_status <$> drafts db2 = d_status <$> drafts db ∧
  get_contacted_companies db2 = get_contacted_companies db.
Proof.
  simpl. unfold get_draft_by_id. simpl. split_and!.
  - by apply find_draft_update.
  - by apply find_draft_update.
  - intros id Hne. split; by apply find_draft_other_update.
  - by apply get_pending_jobs_update.
  - by apply get_pending_jobs_update.
  - unfold update_where_id. rewrite <- list_fmap_compose.
    apply Forall_fmap_ext_1, Forall_forall. intros d _. simpl. by case_bool_decide.
  - unfold get_contacted_companies. simpl. f_equal. f_equal.
    by apply (update_keeps_selection _ _ _ (λ d, d_status d ≠ "discarded")).
Qed.

(** X6. [get_drafts] with a non-empty status returns exactly the drafts of
    that status, each as often as the table holds it; with no status, or
    the empty one, it returns all drafts; in each case newest first by the
    stored creation time. *)
Theorem get_drafts_spec (db : DB) (status : string) :
  status ≠ EmptyString →
  get_drafts (Some status) db ≡ₚ filter (λ d, d_status d = status) (drafts db) ∧
  (∀ d, d ∈ get_drafts (Some status) db ↔ d ∈ drafts db ∧ d_status d = status) ∧
  get_drafts None db ≡ₚ drafts db ∧
  get_drafts (Some EmptyString) db = get_drafts None db ∧
  newest_first d_created_at (get_drafts (Some status) db) ∧
  newest_first d_created_at (get_drafts None db).
Proof.
  intros Hst. apply nonempty_iff in Hst. unfold get_drafts. rewrite Hst. simpl.
  split_and!.
  - apply order_by_desc_perm.
  - intros d. rewrite order_by_desc_perm, list_elem_of_filter. tauto.
  - apply order_by_desc_perm.
  - done.
  - apply order_by_desc_sorted.
  - apply order_by_desc_sorted.
Qed.

(** X7. A company counts as contacted exactly when an application to it
    is logged or a draft for it exists that is not discarded, names
    compared in lowercase; [get_sent_companies] holds the first kind only
    and is included in [get_contacted_companies]. *)
Theorem contacted_companies_spec (db : DB) (k : string) :
  (k ∈ get_sent_companies db ↔ ∃ a, a ∈ applications db ∧ lower (a_company a) = k) ∧
  (k ∈ get_contacted_companies db ↔
     (∃ a, a ∈ applications db ∧ lower (a_company a) = k) ∨
     (∃ d, d ∈ drafts db ∧ d_status d ≠ "discarded" ∧ lower (d_company d) = k)) ∧
  get_sent_companies db ⊆ get_contacted_companies db.
Proof.
  unfold get_sent_companies, get_contacted_companies. split_and!.
  - rewrite elem_of_list_to_set, list_elem_of_fmap. split.
    + intros (a & -> & Ha). by exists a.
    + intros (a & Ha & <-). by exists a.
  - rewrite elem_of_union, !elem_of_list_to_set, !list_elem_of_fmap. split.
    + intros [(a & -> & Ha) | (d & -> & Hd)].
      * left. by exists a.
      * apply list_elem_of_filter in Hd as [Hs Hd]. right. by exists d.
    + intros [(a & Ha & <-) | (d & Hd & Hs & <-)].
      * left. by exists a.
      * right. exists d. split; [done|]. by apply list_elem_of_filter.
  - apply union_subseteq_l.
Qed.

(** X8. [log_application] appends one row under the next id and leaves
    the rows already there, the seen jobs and the drafts as they are; the
    count of [get_applications_today] grows by one when the [sent_at] of
    the application is not before the start of the day of the clock, and
    stays otherwise; the company of the application is contacted
    afterwards. *)
Theorem log_application_spec (app : Application) (now : string) (db : DB) :
  let db' := log_application app db in
  applications db' = applications db ++ [app_row_of (applications_seq db + 1) app] ∧
  seen_jobs db' = seen_jobs db ∧ drafts db' = drafts db ∧
  get_applications_today now db'
    = get_applications_today now db
      + (if text_ge (sent_at app) (today_start now) then 1 else 0) ∧
  0 ≤ get_applications_today now db ≤ Z.of_nat (length (applications db)) ∧
  lower (app_company app) ∈ get_sent_companies db' ∧
  get_contacted_companies db ⊆ get_contacted_companies db'.
Proof.
  simpl. unfold get_applications_today, get_sent_companies, get_contacted_companies.
  simpl. split_and!; try done.
  - rewrite filter_app, length_app.
    destruct (text_ge (sent_at app) (today_start now)) eqn:E.
    + rewrite filter_cons_True by done. simpl. lia.
    + rewrite filter_cons_False by (simpl; congruence). simpl. lia.
  - lia.
  - pose proof (length_filter (λ a, text_ge (a_sent_at a) (today_start now) = true)
                  (applications db)). lia.
  - rewrite fmap_app, list_to_set_app. apply elem_of_union. right.
    apply elem_of_list_to_set, list_elem_of_singleton. done.
  - rewrite fmap_app, list_to_set_app. intros k Hk.
    apply elem_of_union in Hk as [Hk | Hk].
    + apply elem_of_union. left. apply elem_of_union. by left.
    + apply elem_of_union. by right.
Qed.


(** ** The store: concrete instances *)

Lemma drafts_ok_preserved_witness :
  drafts_ok empty_db ∧
  drafts_ok (snd (save_draft "linkedin:9" "Engineer" "Wayne" "Remote"
                    "jobs@example.org" "Application" "Hello" "linkedin"
                    "https://example.org/9" "2024-05-01T12:00:00" mixed_store)) ∧
  drafts_ok (snd (update_draft_status 2 "approved" mixed_store)) ∧
  drafts_ok (snd (update_draft_content 2 "Application" "Hello" mixed_store)) ∧
  drafts_ok (snd (delete_draft 2 mixed_store)).
Proof.
  apply (drafts_ok_preserved mixed_store "linkedin:9" "Engineer" "Wayne" "Remote"
           "jobs@example.org" "Application" "Hello" "linkedin"
           "https://example.org/9" "2024-05-01T12:00:00" "approved" 2).
  split; apply (bool_decide_unpack _); vm_compute; exact I.
Defined.

Lemma save_draft_lookup_witness :
  let saved := save_draft "linkedin:9" "Engineer" "Wayne" "Remote"
                 "jobs@example.org" "Application" "Hello" "linkedin"
                 "https://example.org/9" "2024-05-01T12:00:00" mixed_store in
  fst saved = drafts_seq mixed_store + 1 ∧
  get_draft_by_id (fst saved) mixed_store = None ∧
  get_draft_by_id (fst saved) (snd saved)
    = Some (draft_row (fst saved) "linkedin:9" "Engineer" "Wayne" "Remote"
              "jobs@example.org" "Application" "Hello" "linkedin"
              "https://example.org/9" "2024-05-01T12:00:00") ∧
  (∀ id, id ≠ fst saved →
     get_draft_by_id id (snd saved) = get_draft_by_id id mixed_store) ∧
  get_drafts (Some "pending") (snd saved)
    ≡ₚ draft_row (fst saved) "linkedin:9" "Engineer" "Wayne" "Remote"
         "jobs@example.org" "Application" "Hello" "linkedin"
         "https://example.org/9" "2024-05-01T12:00:00"
       :: get_drafts (Some "pending") mixed_store.
Proof.
  apply (save_draft_lookup mixed_store "linkedin:9" "Engineer" "Wayne" "Remote"
           "jobs@example.org" "Application" "Hello" "linkedin"
           "https://example.org/9" "2024-05-01T12:00:00").
  split; apply (bool_decide_unpack _); vm_compute; exact I.
Defined.

Lemma get_drafts_spec_witness :
  get_drafts (Some "approved") mixed_store
    ≡ₚ filter (λ d, d_status d = "approved") (drafts mixed_store) ∧
  (∀ d, d ∈ get_drafts (Some "approved") mixed_store
        ↔ d ∈ drafts mixed_store ∧ d_status d = "approved") ∧
  get_drafts None mixed_store ≡ₚ drafts mixed_store ∧
  get_drafts (Some EmptyString) mixed_store = get_drafts None mixed_store ∧
  newest_first d_created_at (get_drafts (Some "approved") mixed_store) ∧
  newest_first d_created_at (get_drafts None mixed_store).
Proof. apply (get_drafts_spec mixed_store "approved"). discriminate. Defined.

Example newest_draft_first :
  d_id <$> get_drafts None mixed_store = [2; 1; 4].
Proof. by vm_compute. Qed.

Example recent_limit :
  length (get_recent_applications 2 (db three_sent_today)) = 2%nat ∧
  length (get_recent_applications (-1) (db three_sent_today)) = 3%nat ∧
  get_applications_today (noon 0) (log_application sent_yesterday (db three_sent_today)) = 3.
Proof. by vm_compute. Qed.

(** * Identity keys *)

Section Keys.




Lemma same_posting_key j1 j2 : same_posting j1 j2 → unique_key j1 = unique_key j2.
Proof.
intros [Hsrc [[Hne Hid] | (H1 & H2 & Ht & Hc)]]; unfold unique_key.
- apply nonempty_iff in Hne. by rewrite <- Hid, <- Hsrc, Hne.
- rewrite H1, H2. simpl. rewrite !lower_app, Ht, Hc, Hsrc. done.
Qed.

End Keys.

(** X10. The identity key of a job depends only on the source and the
    native id when there is one, and otherwise only on the source and on
    the title and company up to letter case. So once a job is marked as
    seen, a second copy of the posting is recognised by [is_job_seen], and
    marking that copy changes nothing. *)
Theorem same_posting_seen_once (j1 j2 : Job) (db : DB) :
  same_posting j1 j2 →
  unique_key j1 = unique_key j2 ∧
  is_job_seen j2 (snd (mark_job_seen j1 db)) = true ∧
  mark_job_seen j2 (snd (mark_job_seen j1 db)) = (PyNone, snd (mark_job_seen j1 db)).
Proof.
  intros Hsame. pose proof (same_posting_key _ _ Hsame) as Hk.
  assert (Hseen : is_job_seen j2 (snd (mark_job_seen j1 db)) = true).
  { rewrite (is_job_seen_key j2 j1) by done. apply is_job_seen_marked. }
  split_and!; [done | done |]. by apply mark_job_seen_again.
Qed.

Lemma same_posting_seen_once_witness :
  unique_key acme_posting = unique_key acme_repost ∧
  is_job_seen acme_repost (snd (mark_job_seen acme_posting empty_db)) = true ∧
  mark_job_seen acme_repost (snd (mark_job_seen acme_posting empty_db))
    = (PyNone, snd (mark_job_seen acme_posting empty_db)).
Proof.
  apply (same_posting_seen_once acme_posting acme_repost empty_db).
  split; [reflexivity|]. left. split; [discriminate | reflexivity].
Defined.

(** Without a native id the key folds the letter case of title and
    company, and nothing else: surrounding blanks still tell two postings
    apart. *)
Example key_folds_case_only :
  unique_key (Job_of "Engineer" "Acme" EmptyString TWITTER)
    = unique_key (Job_of "ENGINEER" "acme" "other text" TWITTER) ∧
  unique_key (Job_of "Engineer" "Acme" EmptyString TWITTER)
    ≠ unique_key (Job_of "Engineer" "Acme " EmptyString TWITTER).
Proof. split; [by vm_compute | by vm_compute]. Qed.

(** * The email pattern and the scan of a text *)

Section Pattern.
Import EmailFinder.

Lemma append_nil_r s : s +:+ EmptyString = s.
Proof. induction s as [|c s IH]; [done|]. by rewrite append_cons, IH. Qed.

Lemma slice_to_from m s : slice_to m s +:+ slice_from m s = s.
Proof.
revert m. induction s as [|c s IH]; intros [|m]; try done.
simpl. by rewrite append_cons, IH.
Qed.

Lemma slice_to_0 s : slice_to 0 s = EmptyString.
Proof. by destruct s. Qed.

Lemma greedy_sound cls k (Q : string → Prop) n s m :
(∀ t j, k t = Some j → Q (slice_to j t)) →
greedy cls k n s = Some m →
∃ w r, slice_to m s = w +:+ r ∧ (n ≤ String.length w)%nat ∧
       all_chars cls w ∧ Q r.
Proof.
intros Hk. revert n m.
assert (Hstop : ∀ n m t,
  match n with O => k t | S _ => None end = Some m →
  ∃ w r, slice_to m t = w +:+ r ∧ (n ≤ String.length w)%nat ∧
         all_chars cls w ∧ Q r).
{ intros [|n] m t H; [|done]. exists EmptyString, (slice_to m t).
  split_and!; [done | done | apply Forall_nil_2 | by apply Hk]. }
induction s as [|a s IH]; intros n m; cbn [greedy]; [apply Hstop|].
destruct (cls a) eqn:Ea; [|apply Hstop].
destruct (greedy cls k (Nat.pred n) s) as [m'|] eqn:E; [|apply Hstop].
intros [= <-]. destruct (IH _ _ E) as (w & r & Hs & Hn & Hw & Hq).
exists (String a w), r. cbn [slice_to]. rewrite Hs, append_cons.
split_and!; [done | simpl; lia | by apply Forall_cons | done].
Qed.

Lemma match_at_sound p s m : match_at p s = Some m → accepts p (slice_to m s).
Proof.
revert s m. induction p as [|[c | n cls] p IH]; intros s m; cbn [match_at].
- intros [= <-]. rewrite slice_to_0. apply accepts_nil.
- destruct s as [|a s]; [done|]. destruct (Ascii.eqb a c) eqn:E; [|done].
  apply Ascii.eqb_eq in E as ->.
  destruct (match_at p s) as [m'|] eqn:Em; [|done].
  intros [= <-]. cbn [slice_to]. apply accepts_lit. by apply IH.
- intros H.
  destruct (greedy_sound cls (match_at p) (accepts p) n s m)
    as (w & r & -> & Hn & Hw & Hr); [apply IH | done |].
  by apply accepts_rep.
Qed.

Lemma findall_from_sound p skip s e :
e ∈ findall_from p skip s →
accepts p e ∧ ∃ pre post, s = pre +:+ e +:+ post.
Proof.
revert skip. induction s as [|a s IH]; intros skip; cbn [findall_from].
- intros H. by apply elem_of_nil in H.
- assert (Hrest : ∀ k, e ∈ findall_from p k s →
            accepts p e ∧ ∃ pre post, String a s = pre +:+ e +:+ post).
  { intros k Hk. destruct (IH _ Hk) as (Ha & pre & post & ->).
    split; [done|]. exists (String a pre), post. by rewrite append_cons. }
  destruct skip; [|apply Hrest].
  destruct (match_at p (String a s)) as [m|] eqn:E; [|apply Hrest].
  rewrite elem_of_cons. intros [-> | H]; [|by eapply Hrest].
  split; [by apply match_at_sound|].
  exists EmptyString, (slice_from m (String a s)).
  by rewrite append_empty_l, slice_to_from.
Qed.

Lemma greedy_complete cls k n w t :
(n ≤ String.length w)%nat → all_chars cls w → is_Some (k t) →
is_Some (greedy cls k n (w +:+ t)).
Proof.
intros Hn Hw Hk. revert n Hn. induction w as [|a w IH]; intros n Hn.
- simpl in Hn. assert (n = O) as -> by lia. rewrite append_empty_l.
  destruct t as [|b t]; cbn [greedy]; [done|].
  destruct (cls b); [|done].
  by destruct (greedy cls k (Nat.pred 0) t).
- apply Forall_cons in Hw as [Ha Hw]. rewrite append_cons. cbn [greedy].
  rewrite Ha. simpl in Hn.
  destruct (IH Hw (Nat.pred n)) as [m Hm]; [lia|]. by rewrite Hm.
Qed.

Lemma match_at_complete p w t : accepts p w → is_Some (match_at p (w +:+ t)).
Proof.
intros H. revert t. induction H as [|c p s H IH|n cls p w s Hn Hw H IH]; intros t.
- done.
- rewrite append_cons. cbn [match_at]. rewrite Ascii.eqb_refl.
  destruct (IH t) as [m ->]. done.
- rewrite append_assoc. cbn [match_at]. by apply greedy_complete.
Qed.

Lemma findall_complete p pre w post :
accepts p w → w ≠ EmptyString → findall p (pre +:+ w +:+ post) ≠ [].
Proof.
intros H Hne. unfold findall.
pose proof (match_at_complete p w post H) as [m Hm].
induction pre as [|a pre IH].
- rewrite append_empty_l. destruct w as [|c w]; [done|].
  rewrite append_cons in *. cbn [findall_from]. by rewrite Hm.
- rewrite append_cons. cbn [findall_from].
  by destruct (match_at p (String a (pre +:+ w +:+ post))).
Qed.

Lemma length_nonempty w : (1 ≤ String.length w)%nat ↔ w ≠ EmptyString.
Proof. destruct w; simpl; split; (done || lia). Qed.

Lemma email_pattern_shape e : accepts EMAIL_PATTERN e ↔ email_shape e.
Proof.
unfold EMAIL_PATTERN, email_shape. split.
- intros H.
  inversion H as [| |n1 c1 p1 w1 s1 Hn1 Hw1 H1]; subst.
  inversion H1 as [|a2 p2 s2 H2|]; subst.
  inversion H2 as [| |n3 c3 p3 w3 s3 Hn3 Hw3 H3]; subst.
  inversion H3 as [|a4 p4 s4 H4|]; subst.
  inversion H4 as [| |n5 c5 p5 w5 s5 Hn5 Hw5 H5]; subst.
  inversion H5; subst.
  exists w1, w3, w5. rewrite append_nil_r.
  split_and!; try done; by apply length_nonempty.
- intros (l & d & t & -> & Hl & Hlc & Hd & Hdc & Ht & Htc).
  apply accepts_rep; [by apply length_nonempty | done |].
  change ("@" +:+ d +:+ "." +:+ t) with (String "@" (d +:+ String "." t)).
  apply accepts_lit. apply accepts_rep; [by apply length_nonempty | done |].
  apply accepts_lit. rewrite <- (append_nil_r t).
  apply accepts_rep; [done | done | apply accepts_nil].
Qed.

Lemma email_shape_nonempty e : email_shape e → e ≠ EmptyString.
Proof. intros (l & d & t & -> & Hl & _). by destruct l. Qed.

Lemma findall_email_sound text e :
e ∈ findall EMAIL_PATTERN text →
email_shape e ∧ ∃ pre post, text = pre +:+ e +:+ post.
Proof.
intros H. apply findall_from_sound in H as [Ha Hsub].
by apply email_pattern_shape in Ha.
Qed.

Lemma extract_elem text e :
e ∈ _extract_emails_from_text text ↔
e ∈ findall EMAIL_PATTERN text ∧ _is_valid_email e = true.
Proof.
unfold _extract_emails_from_text.
rewrite !list_elem_of_In, filter_In. done.
Qed.



Lemma rank_emails_unfold emails :
_rank_emails emails
= List.filter is_hr emails ++ List.filter (λ e, negb (is_hr e)) emails.
Proof. by destruct emails. Qed.

Lemma rank_emails_perm emails : _rank_emails emails ≡ₚ emails.
Proof.
rewrite rank_emails_unfold.
induction emails as [|e emails IH]; [done|]. simpl.
destruct (is_hr e); simpl.
- by rewrite IH.
- by rewrite <- Permutation_middle, IH.
Qed.

Lemma filter_first_found {A} (f : A → bool) l x :
List.find f l = Some x → ∃ rest, List.filter f l = x :: rest.
Proof.
induction l as [|y l IH]; [done|]. simpl. destruct (f y); [|done].
intros [= <-]. by eauto.
Qed.

Lemma rank_emails_first emails e :
first_hr emails = Some e → ∃ rest, _rank_emails emails = e :: rest.
Proof.
unfold first_hr. rewrite rank_emails_unfold. intros H.
apply filter_first_found in H as [rest ->]. by eauto.
Qed.

Lemma rank_emails_none emails :
first_hr emails = None → _rank_emails emails = emails.
Proof.
unfold first_hr. rewrite rank_emails_unfold.
induction emails as [|x emails IH]; [done|]. simpl.
destruct (is_hr x) eqn:E; simpl; [done|].
intros H. specialize (IH H).
destruct (List.filter is_hr emails) as [|y l] eqn:Ef; simpl in *.
- by rewrite IH.
- exfalso. assert (Hy : In y (List.filter is_hr emails)) by (rewrite Ef; by left).
  apply filter_In in Hy as [Hy1 Hy2].
  apply (find_none _ _ H) in Hy1. congruence.
Qed.

End Pattern.

(** X11. Every address that the scan of a text returns has the shape the
    pattern describes (a non-empty local part, an at sign, a non-empty
    domain, a dot, and two or more letters), occurs in the text as a
    contiguous piece, and passes the denylist. *)
Theorem extracted_emails_sound (text e : string) :
  e ∈ EmailFinder._extract_emails_from_text text →
  email_shape e ∧
  (∃ pre post, text = pre +:+ e +:+ post) ∧
  str_in e text = true ∧
  EmailFinder._is_valid_email e = true.
Proof.
  intros H. apply extract_elem in H as [H Hv].
  apply findall_email_sound in H as (Hshape & pre & post & ->).
  split_and!; [done | by eauto | apply str_in_middle | done].
Qed.

Lemma extracted_emails_sound_witness :
  email_shape "jobs@acme.io" ∧
  (∃ pre post, scenario_c_text = pre +:+ "jobs@acme.io" +:+ post) ∧
  str_in "jobs@acme.io" scenario_c_text = true ∧
  EmailFinder._is_valid_email "jobs@acme.io" = true.
Proof.
  apply (extracted_emails_sound scenario_c_text "jobs@acme.io").
  rewrite scenario_c_extract. apply list_elem_of_singleton. reflexivity.
Defined.

(** X12. The pattern overlooks no address: a text that contains a piece of
    the shape of an address gives the pattern at least one match. *)
Theorem email_pattern_finds (pre e post : string) :
  email_shape e →
  EmailFinder.findall EmailFinder.EMAIL_PATTERN (pre +:+ e +:+ post) ≠ [].
Proof.
  intros H. apply findall_complete.
  - by apply email_pattern_shape.
  - by apply email_shape_nonempty.
Qed.

Lemma email_pattern_finds_witness :
  EmailFinder.findall EmailFinder.EMAIL_PATTERN
    ("Write to " +:+ "a.b@c-d.org" +:+ ", please.") ≠ [].
Proof.
  apply (email_pattern_finds "Write to " "a.b@c-d.org" ", please.").
  exists "a.b", "c-d", "org".
  split_and!; try done; try (simpl; lia);
    apply (bool_decide_unpack _); vm_compute; exact I.
Defined.



(** X14. Ranking neither loses nor invents an address. When some address
    has an HR-like local part, the first such address of the input comes
    out first, and it is the one [find_application_email] returns for a
    description; when none has, the order is left as it is. *)
Theorem rank_emails_spec (emails : list string) :
  EmailFinder._rank_emails emails ≡ₚ emails ∧
  (∀ e, first_hr emails = Some e →
     EmailFinder.is_hr e = true ∧
     ∃ rest, EmailFinder._rank_emails emails = e :: rest) ∧
  (first_hr emails = None →
     Forall (λ e, EmailFinder.is_hr e = false) emails ∧
     EmailFinder._rank_emails emails = emails) ∧
  (∀ http_get urlparse list_of_set text url name page log e,
     emails = EmailFinder._extract_emails_from_text text →
     first_hr emails = Some e →
     EmailFinder.find_application_email http_get urlparse list_of_set
       text url name page log = (Eff.Return e, log)).
Proof.
  split_and!.
  - apply rank_emails_perm.
  - intros e He. split; [|by apply rank_emails_first].
    unfold first_hr in He. by apply find_some in He as [_ He].
  - intros Hnone. split; [|by apply rank_emails_none].
    apply Forall_forall. intros e He. apply list_elem_of_In in He.
    by apply (find_none _ _ Hnone).
  - intros http_get urlparse list_of_set text url name page log e -> He.
    destruct (rank_emails_first _ _ He) as [rest Hrank].
    unfold EmailFinder.find_application_email. rewrite Hrank.
    destruct (EmailFinder._extract_emails_from_text text); [done|]. done.
Qed.

Example rank_keeps_order :
  EmailFinder._rank_emails ["anna@acme.io"; "jobs@acme.io"; "bob@acme.io"; "hr@acme.io"]
    = ["jobs@acme.io"; "hr@acme.io"; "anna@acme.io"; "bob@acme.io"] ∧
  first_hr ["anna@acme.io"; "jobs@acme.io"; "bob@acme.io"; "hr@acme.io"]
    = Some "jobs@acme.io".
Proof. by vm_compute. Qed.

(** * Requests made by the cascade *)

Section Network.
Import EmailFinder Eff.
Variable http_get : nat → string → option Soup.
Variable urlparse : string → string * string.
Variable list_of_set : list string → list string.

Lemma append_inj_l s a b : s +:+ a = s +:+ b → a = b.
Proof.
induction s as [|c s IH]; [done|]. rewrite !append_cons. intros [= H]. by apply IH.
Qed.

Lemma pages_to_check_NoDup base_url : NoDup (pages_to_check urlparse base_url).
Proof.
unfold pages_to_check. cbv zeta.
set (base := fst (urlparse base_url) +:+ "://" +:+ snd (urlparse base_url)).
apply NoDup_cons. split.
- intros Hin. apply list_elem_of_fmap in Hin as (path & Heq & Hin).
  rewrite <- (append_nil_r base) in Heq at 1. apply append_inj_l in Heq.
  subst path. revert Hin. apply (bool_decide_unpack _). by vm_compute.
- apply NoDup_fmap_2.
  + intros a b. apply append_inj_l.
  + apply (bool_decide_unpack _). by vm_compute.
Qed.

Lemma last_cons_Some {A} (x y : A) l : last l = Some y → last (x :: l) = Some y.
Proof. by destruct l. Qed.

Lemma scrape_pages_spec max_pages pages checked visited log :
NoDup pages → (∀ p, p ∈ pages → p ∉ visited) →
∃ emails requests,
  scrape_pages http_get list_of_set max_pages pages checked visited [] log
    = (Return emails, log ++ requests) ∧
  requests `prefix_of` pages ∧
  (length (filter is_Some (replies_of http_get (length log) requests))
     ≤ Z.to_nat (max_pages - checked))%nat ∧
  (max_pages - checked ≤ 0 → requests = []) ∧
  (emails ≠ [] →
     ∃ sp, last (replies_of http_get (length log) requests) = Some (Some sp) ∧
           emails = _extract_emails_from_soup list_of_set sp) ∧
  (emails = [] →
     ∀ sp, Some sp ∈ replies_of http_get (length log) requests →
           _extract_emails_from_soup list_of_set sp = []).
Proof.
revert checked visited log.
induction pages as [|page rest IH]; intros checked visited log Hnd Hfresh.
{ exists [], []. rewrite app_nil_r. simpl.
  split_and!; try done; try lia.
  intros _ sp Hin. by apply elem_of_nil in Hin. }
cbn [scrape_pages].
destruct (max_pages <=? checked) eqn:Emax.
{ apply Z.leb_le in Emax. exists [], []. rewrite app_nil_r. simpl.
  split_and!; try done; try lia.
  - apply prefix_nil.
  - intros _ sp Hin. by apply elem_of_nil in Hin. }
apply Z.leb_gt in Emax.
apply NoDup_cons in Hnd as [Hpage Hnd].
rewrite bool_decide_false by (apply Hfresh, elem_of_cons; by left).
assert (Hfresh' : ∀ p, p ∈ rest → p ∉ {[page]} ∪ visited).
{ intros p Hp Hin. apply elem_of_union in Hin as [Hin | Hin].
  - apply elem_of_singleton in Hin. by subst p.
  - apply (Hfresh p); [apply elem_of_cons; by right | done]. }
unfold bind at 1. unfold _fetch_page at 1.
assert (Hlen : length (log ++ [page]) = S (length log))
  by (rewrite length_app; simpl; lia).
destruct (http_get (length log) page) as [sp|] eqn:Eget.
- cbn [app]. destruct (_extract_emails_from_soup list_of_set sp) as [|e0 es] eqn:Eex.
  + destruct (IH (checked + 1) ({[page]} ∪ visited) (log ++ [page]) Hnd Hfresh')
      as (emails & requests & Hrun & Hpre & Hcount & Hzero & Hfound & Hnone).
    exists emails, (page :: requests). rewrite Hlen in *.
    rewrite Hrun, <- app_assoc. cbn [replies_of]. rewrite Eget.
    split_and!.
    * done.
    * by apply prefix_cons.
    * rewrite filter_cons_True by done. simpl. lia.
    * lia.
    * intros Hne. destruct (Hfound Hne) as (sp' & Hlast & ->).
      exists sp'. split; [by apply last_cons_Some | done].
    * intros He sp' Hin. apply elem_of_cons in Hin as [[= ->] | Hin]; [done|].
      by apply Hnone.
  + exists (e0 :: es), [page]. cbn [replies_of]. rewrite Eget.
    split_and!.
    * done.
    * apply prefix_cons, prefix_nil.
    * rewrite filter_cons_True by done. simpl. lia.
    * lia.
    * intros _. exists sp. by rewrite Eex.
    * done.
- destruct (IH checked ({[page]} ∪ visited) (log ++ [page]) Hnd Hfresh')
    as (emails & requests & Hrun & Hpre & Hcount & Hzero & Hfound & Hnone).
  exists emails, (page :: requests). rewrite Hlen in *.
  rewrite Hrun, <- app_assoc. cbn [replies_of]. rewrite Eget.
  split_and!.
  + done.
  + by apply prefix_cons.
  + rewrite filter_cons_False by (by intros [? ?]). done.
  + lia.
  + intros Hne. destruct (Hfound Hne) as (sp' & Hlast & ->).
    exists sp'. split; [by apply last_cons_Some | done].
  + intros He sp' Hin. apply elem_of_cons in Hin as [[=] | Hin].
    by apply Hnone.
Qed.

(** When no request is answered, every page is requested, in order. *)
Lemma scrape_pages_unanswered max_pages pages checked visited log :
NoDup pages → (∀ p, p ∈ pages → p ∉ visited) → checked < max_pages →
(∀ n url, (length log ≤ n)%nat → http_get n url = None) →
scrape_pages http_get list_of_set max_pages pages checked visited [] log
  = (Return [], log ++ pages).
Proof.
revert visited log.
induction pages as [|page rest IH]; intros visited log Hnd Hfresh Hmax Hnone.
{ by rewrite app_nil_r. }
cbn [scrape_pages].
rewrite (proj2 (Z.leb_gt _ _)) by done.
apply NoDup_cons in Hnd as [Hpage Hnd].
rewrite bool_decide_false by (apply Hfresh, elem_of_cons; by left).
unfold bind at 1. unfold _fetch_page at 1. rewrite Hnone by done.
rewrite IH; [by rewrite <- app_assoc | done | | done |].
- intros p Hp Hin. apply elem_of_union in Hin as [Hin | Hin].
  + apply elem_of_singleton in Hin. by subst p.
  + apply (Hfresh p); [apply elem_of_cons; by right | done].
- intros n url Hn. apply Hnone. rewrite length_app in Hn. simpl in Hn. lia.
Qed.

Lemma find_no_page job_description job_url company_name log :
_extract_emails_from_text job_description = [] →
find_application_email http_get urlparse list_of_set
  job_description job_url company_name None log
= website_strategies http_get urlparse list_of_set company_name None log.
Proof.
intros Hdesc. unfold find_application_email. by rewrite Hdesc.
Qed.

Lemma keep_alnum_empty : keep_alnum EmptyString = EmptyString.
Proof. done. Qed.

Lemma guess_step company_name log :
keep_alnum (lower company_name) ≠ EmptyString →
website_strategies http_get urlparse list_of_set company_name None log
= match http_get (length log) (guessed_site company_name) with
  | None => (Return EmptyString, log ++ [guessed_site company_name])
  | Some _ =>
      (site_emails <-
         _scrape_website_for_emails http_get urlparse list_of_set
           (guessed_site company_name) 4 ;;
       match site_emails with
       | _ :: _ =>
           match _rank_emails site_emails with
           | e :: _ => ret e
           | [] =>
               let domain := lstrip_chars (list_ascii_of_string "www.")
                               (snd (urlparse (guessed_site company_name))) in
               if nonempty domain && str_in "." domain
               then ret (default EmptyString (head (_generate_common_patterns domain)))
               else ret EmptyString
           end
       | [] =>
           let domain := lstrip_chars (list_ascii_of_string "www.")
                           (snd (urlparse (guessed_site company_name))) in
           if nonempty domain && str_in "." domain
           then ret (default EmptyString (head (_generate_common_patterns domain)))
           else ret EmptyString
       end) (log ++ [guessed_site company_name])
  end.
Proof.
intros Hclean. unfold website_strategies. cbn [_get_company_website_from_linkedin].
assert (Hname : nonempty company_name = true).
{ destruct company_name; [done | done]. }
apply nonempty_iff in Hclean as Hc.
cbn [nonempty negb andb]. rewrite Hname, Hc. cbn [andb].
unfold bind, _fetch_page, ret.
fold (guessed_site company_name).
destruct (http_get (length log) (guessed_site company_name)) as [sp|]; [|done].
assert (Hg : nonempty (guessed_site company_name) = true) by done.
by rewrite Hg.
Qed.

End Network.

(** X15. [_scrape_website_for_emails] requests pages of the site in the
    fixed order (home page, then the career and contact paths), each at
    most once and eleven at most, and stops after [max_pages] answered
    requests; it requests nothing when [max_pages] is not positive. The
    addresses it returns are those of the last page requested, and every
    page answered before had none. *)
Theorem scrape_website_requests
    (http_get : nat → string → option EmailFinder.Soup)
    (urlparse : string → string * string)
    (list_of_set : list string → list string)
    (base_url : string) (max_pages : Z) (log : EmailFinder.Net) :
  ∃ emails requests,
    EmailFinder._scrape_website_for_emails http_get urlparse list_of_set
      base_url max_pages log
      = (Eff.Return (list_of_set emails), log ++ requests) ∧
    requests `prefix_of` pages_to_check urlparse base_url ∧
    NoDup requests ∧ (length requests ≤ 11)%nat ∧
    (length (filter is_Some (replies_of http_get (length log) requests))
       ≤ Z.to_nat max_pages)%nat ∧
    (max_pages ≤ 0 → requests = [] ∧ emails = []) ∧
    (emails ≠ [] →
       ∃ sp, last (replies_of http_get (length log) requests) = Some (Some sp) ∧
             emails = EmailFinder._extract_emails_from_soup list_of_set sp) ∧
    (emails = [] →
       ∀ sp, Some sp ∈ replies_of http_get (length log) requests →
             EmailFinder._extract_emails_from_soup list_of_set sp = []).
Proof.
  pose proof (pages_to_check_NoDup urlparse base_url) as Hnd.
  destruct (scrape_pages_spec http_get list_of_set max_pages
              (pages_to_check urlparse base_url) 0 ∅ log Hnd)
    as (emails & requests & Hrun & Hpre & Hcount & Hzero & Hfound & Hnone).
  { intros p _. apply not_elem_of_empty. }
  exists emails, requests.
  unfold EmailFinder._scrape_website_for_emails. cbv zeta.
  unfold Eff.bind. unfold pages_to_check in Hrun. cbv zeta in Hrun. rewrite Hrun.
  rewrite Z.sub_0_r in *.
  split_and!; try done.
  - destruct Hpre as [k Hk]. rewrite Hk in Hnd. by apply NoDup_app in Hnd as [? _].
  - apply prefix_length in Hpre. unfold pages_to_check in Hpre.
    cbv zeta in Hpre. simpl in Hpre. lia.
  - intros Hmax. specialize (Hzero Hmax). split; [done|].
    destruct emails as [|e es]; [done|].
    destruct Hfound as (sp & Hlast & _); [done|]. by rewrite Hzero in Hlast.
Qed.

(** X16. With no address in the description and no job page, the company
    name is all there is to go on. A name without a letter or digit ends
    the search at once, with the empty string and no request; otherwise a
    single site is guessed from the name, and when that request is not
    answered the search ends there, with the empty string. *)
Theorem search_without_page
    (http_get : nat → string → option EmailFinder.Soup)
    (urlparse : string → string * string)
    (list_of_set : list string → list string)
    (job_description job_url company_name : string) (log : EmailFinder.Net) :
  EmailFinder._extract_emails_from_text job_description = [] →
  (EmailFinder.keep_alnum (lower company_name) = EmptyString →
     EmailFinder.find_application_email http_get urlparse list_of_set
       job_description job_url company_name None log
     = (Eff.Return EmptyString, log)) ∧
  (EmailFinder.keep_alnum (lower company_name) ≠ EmptyString →
     http_get (length log) (guessed_site company_name) = None →
     EmailFinder.find_application_email http_get urlparse list_of_set
       job_description job_url company_name None log
     = (Eff.Return EmptyString, log ++ [guessed_site company_name])).
Proof.
  intros Hdesc. rewrite find_no_page by done. split.
  - intros Hclean. unfold EmailFinder.website_strategies.
    cbn [EmailFinder._get_company_website_from_linkedin].
    rewrite Hclean. cbn [nonempty negb andb].
    by destruct (nonempty company_name).
  - intros Hclean Hget. rewrite guess_step by done. by rewrite Hget.
Qed.

Lemma search_without_page_witness :
  (EmailFinder.keep_alnum (lower "***") = EmptyString →
     EmailFinder.find_application_email unanswered parse_wework (λ l, l)
       "No address here." "https://example.org/job/1" "***" None []
     = (Eff.Return EmptyString, [])) ∧
  (EmailFinder.keep_alnum (lower "***") ≠ EmptyString →
     unanswered (length ([] : list string)) (guessed_site "***") = None →
     EmailFinder.find_application_email unanswered parse_wework (λ l, l)
       "No address here." "https://example.org/job/1" "***" None []
     = (Eff.Return EmptyString, [] ++ [guessed_site "***"])).
Proof.
  apply (search_without_page unanswered parse_wework (λ l, l)
           "No address here." "https://example.org/job/1" "***" []).
  vm_compute. reflexivity.
Defined.

(** X17. With no address in the description and no job page, when the
    site guessed from the company name answers but holds no address and no
    further request is answered, the search requests the eleven pages of
    the site and falls back on the pattern address: [hr@] followed by the
    host of the site with every leading [w] and dot removed, provided that
    what is left contains a dot, and the empty string otherwise. *)
Theorem pattern_fallback
    (http_get : nat → string → option EmailFinder.Soup)
    (urlparse : string → string * string)
    (list_of_set : list string → list string)
    (job_description job_url company_name : string) (log : EmailFinder.Net) :
  EmailFinder._extract_emails_from_text job_description = [] →
  EmailFinder.keep_alnum (lower company_name) ≠ EmptyString →
  is_Some (http_get (length log) (guessed_site company_name)) →
  (∀ n url, (length log < n)%nat → http_get n url = None) →
  list_of_set [] = [] →
  let domain := lstrip_chars (list_ascii_of_string "www.")
                  (snd (urlparse (guessed_site company_name))) in
  EmailFinder.find_application_email http_get urlparse list_of_set
    job_description job_url company_name None log
  = (Eff.Return (if nonempty domain && str_in "." domain
                 then "hr@" +:+ domain else EmptyString),
     log ++ guessed_site company_name
         :: pages_to_check urlparse (guessed_site company_name)) ∧
  ¬ startswith "w" domain = true ∧ ¬ startswith "." domain = true.
Proof.
  intros Hdesc Hclean [sp Hget] Hnone Hset domain. split.
  - rewrite find_no_page, guess_step, Hget by done.
    unfold Eff.bind at 1. unfold EmailFinder._scrape_website_for_emails. cbv zeta.
    unfold Eff.bind at 1.
    pose proof (pages_to_check_NoDup urlparse (guessed_site company_name)) as Hnd.
    unfold pages_to_check in *. cbv zeta in Hnd. cbv zeta.
    rewrite (scrape_pages_unanswered http_get list_of_set 4 _ 0 ∅
               (log ++ [guessed_site company_name]) Hnd).
    + unfold Eff.ret at 1. rewrite Hset. fold domain.
      rewrite <- app_assoc. cbn [app].
      destruct (nonempty domain && str_in "." domain); [|done].
      unfold Eff.ret. do 2 f_equal.
    + intros p _. apply not_elem_of_empty.
    + lia.
    + intros n url Hn. apply Hnone. rewrite length_app in Hn. simpl in Hn. lia.
  - subst domain. generalize (snd (urlparse (guessed_site company_name))).
    intros s. induction s as [|c s IH]; [done|]. cbn [lstrip_chars].
    case_bool_decide as Hc; [done|].
    split; intros Hs; apply Hc; cbn [startswith] in Hs;
      destruct (Ascii.eqb _ c) eqn:E; try done;
      apply Ascii.eqb_eq in E; subst c; apply (bool_decide_unpack _); by vm_compute.
Qed.

Lemma pattern_fallback_witness :
  let domain := lstrip_chars (list_ascii_of_string "www.")
                  (snd (parse_wework (guessed_site "WeWork"))) in
  EmailFinder.find_application_email first_only parse_wework (λ l, l)
    "No address here." "https://example.org/job/1" "WeWork" None []
  = (Eff.Return (if nonempty domain && str_in "." domain
                 then "hr@" +:+ domain else EmptyString),
     [] ++ guessed_site "WeWork" :: pages_to_check parse_wework (guessed_site "WeWork")) ∧
  ¬ startswith "w" domain = true ∧ ¬ startswith "." domain = true.
Proof.
  apply (pattern_fallback first_only parse_wework (λ l, l)
           "No address here." "https://example.org/job/1" "WeWork" []).
  - vm_compute. reflexivity.
  - vm_compute. discriminate.
  - vm_compute. eexists. reflexivity.
  - intros n url Hn. destruct n; [simpl in Hn; lia | reflexivity].
  - reflexivity.
Defined.

(** The host [www.wework.com] loses more than its [www.] prefix. *)
Example wework_fallback :
  EmailFinder.find_application_email first_only parse_wework (λ l, l)
    "No address here." "https://example.org/job/1" "WeWork" None []
  = (Eff.Return "hr@ework.com",
     "https://www.wework.com" :: pages_to_check parse_wework "https://www.wework.com").
Proof. by vm_compute. Qed.

(** * Scoring and selection beyond the claims *)

Section Selecting.

Lemma startswith_prefix a b s :
startswith (a +:+ b) s = true → startswith a s = true.
Proof.
revert s. induction a as [|c a IH]; intros s; [by destruct s|].
rewrite append_cons. destruct s as [|d s]; [done|]. cbn [startswith].
destruct (Ascii.eqb c d); [apply IH | done].
Qed.

Lemma str_in_prefix a b s : str_in (a +:+ b) s = true → str_in a s = true.
Proof.
induction s as [|c s IH]; cbn [str_in]; rewrite !orb_true_iff.
- intros [H | H]; [|done]. left. by apply (startswith_prefix a b).
- intros [H | H]; [left; by apply (startswith_prefix a b) | right; by apply IH].
Qed.

Lemma react_native_needs_react s :
str_in "react native" s = true → any_in JS_KEYWORDS s = true.
Proof.
intros H. apply (any_in_elem _ "react").
- apply (bool_decide_unpack _). by vm_compute.
- by apply (str_in_prefix "react" " native").
Qed.

Lemma role_points_bounds job : 0 ≤ role_points job ≤ 50.
Proof.
unfold role_points.
repeat match goal with |- context [if ?b then _ else _] => destruct b end; lia.
Qed.

Lemma pick_step_keys contacted (d : list (string * (job_or_row * Z))) j :
(pick_step contacted d j).*1
= if bool_decide (company_key_of j ∈ contacted) then d.*1
  else if bool_decide (company_key_of j ∈ d.*1) then d.*1
  else d.*1 ++ [company_key_of j].
Proof.
unfold pick_step. destruct (bool_decide (company_key_of j ∈ contacted)); [done|].
destruct (dict_get (company_key_of j) d) as [entry|] eqn:E.
- assert (Hin : company_key_of j ∈ d.*1)
    by (apply dict_get_is_Some; by rewrite E).
  rewrite (bool_decide_true _ Hin).
  destruct (snd entry <? score_of j); [|done].
  by rewrite dict_set_keys, (bool_decide_true _ Hin).
- apply dict_get_None in E. by rewrite dict_set_keys.
Qed.

Lemma pick_fold_keys contacted jobs (d : list (string * (job_or_row * Z))) :
(fold_left (pick_step contacted) jobs d).*1
= fold_left (λ acc k, if bool_decide (k ∈ acc) then acc else acc ++ [k])
    (filter (λ k, k ∉ contacted) (company_key_of <$> jobs)) d.*1.
Proof.
revert d. induction jobs as [|j jobs IH]; intros d; [done|].
cbn [fold_left]. rewrite IH, pick_step_keys, fmap_cons.
destruct (decide (company_key_of j ∈ contacted)) as [Hc | Hc].
- rewrite (bool_decide_true _ Hc). by rewrite filter_cons_False by (intros H; by apply H).
- rewrite (bool_decide_false _ Hc). by rewrite filter_cons_True by done.
Qed.

Lemma first_occurrences_length (keys acc : list string) :
(length (fold_left (λ acc k, if bool_decide (k ∈ acc) then acc else acc ++ [k])
           keys acc)
 ≤ length acc + length keys)%nat.
Proof.
revert acc. induction keys as [|k keys IH]; intros acc; simpl; [lia|].
case_bool_decide.
- specialize (IH acc). lia.
- specialize (IH (acc ++ [k])). rewrite length_app in IH. simpl in IH. lia.
Qed.

Lemma pick_best_keys contacted jobs :
company_key_of <$> _pick_best_per_company jobs contacted
= (fold_left (pick_step contacted) jobs []).*1.
Proof.
unfold _pick_best_per_company.
destruct (pick_inv_fold contacted jobs [] [] (pick_inv_nil contacted))
  as (_ & Hent & _).
simpl in Hent. rewrite <- list_fmap_compose.
apply Forall_fmap_ext_1, Forall_forall.
intros [k [j s]] Hin. simpl. by destruct (Hent _ _ _ Hin) as (-> & _).
Qed.



Lemma unique_drafts_of_unsent l seen sent d :
d ∈ unique_drafts_of l seen sent → draft_company_key d ∉ sent.
Proof.
unfold draft_company_key.
revert seen. induction l as [|x l IH]; intros seen; cbn [unique_drafts_of].
- intros H. by apply elem_of_nil in H.
- destruct (bool_decide (lower (strip (d_company x)) ∈ seen)); cbn [orb].
  { apply IH. }
  destruct (bool_decide (lower (strip (d_company x)) ∈ sent)) eqn:E.
  { apply IH. }
  apply bool_decide_eq_false in E.
  rewrite elem_of_cons. intros [-> | H]; [done | by eapply IH].
Qed.

Lemma unique_drafts_of_sublist l seen sent :
unique_drafts_of l seen sent `sublist_of` l.
Proof.
revert seen. induction l as [|x l IH]; intros seen; cbn [unique_drafts_of]; [done|].
destruct (_ || _).
- apply sublist_cons, IH.
- apply sublist_skip, IH.
Qed.

Lemma unique_drafts_of_keys l seen sent :
NoDup (draft_company_key <$> unique_drafts_of l seen sent).
Proof.
revert seen. induction l as [|x l IH]; intros seen; cbn [unique_drafts_of].
- apply NoDup_nil_2.
- destruct (_ || _); [apply IH|].
  rewrite fmap_cons. apply NoDup_cons. split; [|apply IH].
  intros Hin. apply list_elem_of_fmap in Hin as (d & Hk & Hd).
  apply unique_drafts_of_fresh in Hd. apply Hd.
  unfold draft_company_key in Hk. rewrite <- Hk.
  apply elem_of_union. left. by apply elem_of_singleton.
Qed.

Lemma unique_drafts_of_covers l seen sent d :
d ∈ l → draft_company_key d ∉ sent → draft_company_key d ∉ seen →
∃ d', d' ∈ unique_drafts_of l seen sent ∧
      draft_company_key d' = draft_company_key d.
Proof.
unfold draft_company_key.
revert seen. induction l as [|x l IH]; intros seen Hin Hsent Hseen.
{ by apply elem_of_nil in Hin. }
cbn [unique_drafts_of].
destruct (decide (lower (strip (d_company x)) = lower (strip (d_company d))))
  as [Heq | Hne].
- rewrite Heq, !bool_decide_false by done. cbn [orb].
  exists x. split; [apply elem_of_cons; by left | done].
- apply elem_of_cons in Hin as [-> | Hin]; [done|].
  destruct (_ || _).
  + by apply IH.
  + destruct (IH ({[lower (strip (d_company x))]} ∪ seen) Hin Hsent)
      as (d' & Hd' & Hk).
    { intros H. apply elem_of_union in H as [H | H]; [|done].
      apply elem_of_singleton in H. congruence. }
    exists d'. split; [apply elem_of_cons; by right | done].
Qed.

Lemma unique_drafts_of_first l seen sent d :
d ∈ unique_drafts_of l seen sent →
∃ l1 l2, l = l1 ++ d :: l2 ∧
  ∀ d', d' ∈ l1 → draft_company_key d' ≠ draft_company_key d.
Proof.
revert seen. induction l as [|x l IH]; intros seen; cbn [unique_drafts_of].
{ intros H. by apply elem_of_nil in H. }
destruct (bool_decide (lower (strip (d_company x)) ∈ seen)) eqn:E1; cbn [orb].
{ apply bool_decide_eq_true in E1. intros H.
  pose proof (unique_drafts_of_fresh _ _ _ _ H) as Hfresh.
  destruct (IH _ H) as (l1 & l2 & -> & Hl1). exists (x :: l1), l2.
  split; [done|]. intros d' Hd'. apply elem_of_cons in Hd' as [-> | Hd'].
  - unfold draft_company_key. intros Heq. apply Hfresh. by rewrite <- Heq.
  - by apply Hl1. }
destruct (bool_decide (lower (strip (d_company x)) ∈ sent)) eqn:E2.
{ apply bool_decide_eq_true in E2. intros H.
  pose proof (unique_drafts_of_unsent _ _ _ _ H) as Hunsent.
  destruct (IH _ H) as (l1 & l2 & -> & Hl1). exists (x :: l1), l2.
  split; [done|]. intros d' Hd'. apply elem_of_cons in Hd' as [-> | Hd'].
  - unfold draft_company_key in *. intros Heq. apply Hunsent. by rewrite <- Heq.
  - by apply Hl1. }
rewrite elem_of_cons. intros [-> | H].
- exists [], l. split; [done|]. intros d' Hd'. by apply elem_of_nil in Hd'.
- pose proof (unique_drafts_of_fresh _ _ _ _ H) as Hfresh.
  destruct (IH _ H) as (l1 & l2 & -> & Hl1). exists (x :: l1), l2.
  split; [done|]. intros d' Hd'. apply elem_of_cons in Hd' as [-> | Hd'].
  + unfold draft_company_key. intros Heq. apply Hfresh. rewrite <- Heq.
    apply elem_of_union. left. by apply elem_of_singleton.
  + by apply Hl1.
Qed.

End Selecting.

(** X18. The priority score lies between 0 and 190. It reaches 100 exactly
    when the lowercased title and description hold a JS/TS keyword, so a
    job with such a keyword always outranks a job without one; and the
    React Native bonus never comes without the 100 points, since the text
    that earns it contains the keyword [react]. *)
Theorem score_bounds_and_dominance (job other : Job) :
  0 ≤ _job_priority_score job ≤ 190 ∧
  (100 ≤ _job_priority_score job ↔ any_in JS_KEYWORDS (combined_text job) = true) ∧
  (_job_priority_score job < 100 → _job_priority_score job = role_points job) ∧
  (any_in JS_KEYWORDS (combined_text job) = true →
   any_in JS_KEYWORDS (combined_text other) = false →
   _job_priority_score other < _job_priority_score job).
Proof.
  assert (Hlow : ∀ j, any_in JS_KEYWORDS (combined_text j) = false →
            _job_priority_score j = role_points j).
  { intros j Hj. rewrite score_terms. unfold language_points, react_native_points.
    rewrite Hj. destruct (str_in "react native" (combined_text j)) eqn:E; [|lia].
    apply react_native_needs_react in E. congruence. }
  assert (Hhigh : ∀ j, any_in JS_KEYWORDS (combined_text j) = true →
            100 ≤ _job_priority_score j).
  { intros j Hj. rewrite score_terms. unfold language_points. rewrite Hj.
    pose proof (role_points_bounds j). pose proof (react_native_points_bounds j). lia. }
  pose proof (role_points_bounds job) as Hr.
  pose proof (role_points_bounds other) as Hr'.
  split_and!.
  - rewrite score_terms. pose proof (language_points_le job).
    pose proof (react_native_points_bounds job).
    unfold language_points in *. destruct (any_in _ _); lia.
  - rewrite score_terms. pose proof (language_points_le job).
    pose proof (react_native_points_bounds job).
    unfold language_points in *. destruct (any_in _ _); lia.
  - split; [|apply Hhigh]. intros Hge.
    destruct (any_in JS_KEYWORDS (combined_text job)) eqn:E; [done|].
    rewrite (Hlow _ E) in Hge. lia.
  - intros Hlt. destruct (any_in JS_KEYWORDS (combined_text job)) eqn:E.
    + specialize (Hhigh _ E). lia.
    + by apply Hlow.
  - intros Hjob Hother. specialize (Hhigh _ Hjob). rewrite (Hlow _ Hother). lia.
Qed.

(** X19. [_pick_best_per_company] returns one job per distinct company
    key that is not contacted, in the order in which the keys first occur
    in the input, so never more jobs than it was given. *)
Theorem pick_best_order (jobs : list job_or_row) (contacted : gset string) :
  company_key_of <$> _pick_best_per_company jobs contacted
    = first_occurrences (filter (λ k, k ∉ contacted) (company_key_of <$> jobs)) ∧
  (length (_pick_best_per_company jobs contacted) ≤ length jobs)%nat.
Proof.
  assert (Hkeys : company_key_of <$> _pick_best_per_company jobs contacted
            = first_occurrences
                (filter (λ k, k ∉ contacted) (company_key_of <$> jobs))).
  { by rewrite pick_best_keys, pick_fold_keys. }
  split; [done|].
  rewrite <- (length_fmap company_key_of), Hkeys. unfold first_occurrences.
  pose proof (first_occurrences_length
                (filter (λ k, k ∉ contacted) (company_key_of <$> jobs)) []) as H1.
  pose proof (length_filter (λ k, k ∉ contacted) (company_key_of <$> jobs)) as H2.
  rewrite length_fmap in H2. simpl in H1. lia.
Qed.

(** X20. The deduplication of [send_approved_drafts] keeps the drafts in
    their order and keeps, for each company key that has no application
    yet, exactly the first draft of that key: no two drafts kept share a
    key, none has a key in the set of companies already sent to, and every
    draft with another key is represented. *)
Theorem unique_drafts_spec (drafts : list DraftRow) (already_sent : gset string) :
  let result := unique_drafts_of drafts ∅ already_sent in
  result `sublist_of` drafts ∧
  NoDup (draft_company_key <$> result) ∧
  (∀ d, d ∈ result → draft_company_key d ∉ already_sent) ∧
  (∀ d, d ∈ drafts → draft_company_key d ∉ already_sent →
     ∃ d', d' ∈ result ∧ draft_company_key d' = draft_company_key d) ∧
  (∀ d, d ∈ result →
     ∃ l1 l2, drafts = l1 ++ d :: l2 ∧
       ∀ d', d' ∈ l1 → draft_company_key d' ≠ draft_company_key d).
Proof.
  cbv zeta. split_and!.
  - apply unique_drafts_of_sublist.
  - apply unique_drafts_of_keys.
  - intros d. apply unique_drafts_of_unsent.
  - intros d Hin Hsent. apply unique_drafts_of_covers; [done | done |].
    apply not_elem_of_empty.
  - intros d. apply unique_drafts_of_first.
Qed.


(** The scores that occur are those of X18, and a name with a blank at
    its end is contacted under a key that no job has. *)
Example scores :
  _job_priority_score (Job_of "Full Stack React Native Developer" "Acme" EmptyString LINKEDIN) = 190 ∧
  _job_priority_score (Job_of "Backend Developer" "Acme" "Go and Rust" LINKEDIN) = 20 ∧
  _job_priority_score (Job_of "Designer" "Acme" EmptyString LINKEDIN) = 0.
Proof. by vm_compute. Qed.

Example untrimmed_name_is_picked_again :
  _pick_best_per_company [IsJob (posting "Acme" "1")]
    (get_contacted_companies
       (log_application (application_for (posting "Acme " "7") "Application" "Hello"
                           "2024-05-01T12:00:00") empty_db))
  = [IsJob (posting "Acme" "1")].
Proof. by vm_compute. Qed.

Example first_occurrences_example :
  first_occurrences ["acme"; "hooli"; "acme"; "stark"; "hooli"]
  = ["acme"; "hooli"; "stark"].
Proof. by vm_compute. Qed.

(** * Generating drafts *)

Section Drafting.
Import Eff.
Variable utcnow : nat → string.
Variable generate : nat → Job → string * string.

Lemma set_db_same (w : World) : set_db (db w) w = w.
Proof. by destruct w. Qed.

Lemma JobSource_round_trip text src :
JobSource_of_value text = Some src → JobSource_value src = text.
Proof.
unfold JobSource_of_value. repeat case_bool_decide; intros [= <-]; by subst.
Qed.


Lemma contacted_elem db k :
k ∈ get_contacted_companies db ↔
(∃ a, a ∈ applications db ∧ lower (a_company a) = k) ∨
(∃ d, d ∈ drafts db ∧ d_status d ≠ "discarded" ∧ lower (d_company d) = k).
Proof.
unfold get_contacted_companies.
rewrite elem_of_union, !elem_of_list_to_set, !list_elem_of_fmap. split.
- intros [(a & -> & Ha) | (d & -> & Hd)].
  + left. by exists a.
  + apply list_elem_of_filter in Hd as [Hs Hd]. right. by exists d.
- intros [(a & Ha & <-) | (d & Hd & Hs & <-)].
  + left. by exists a.
  + right. exists d. split; [done|]. by apply list_elem_of_filter.
Qed.

Lemma draft_loop_spec rows s w :
∃ outcome w' new,
  draft_loop utcnow generate rows s w = (outcome, w') ∧
  outbox w' = outbox w ∧
  applications (db w') = applications (db w) ∧
  seen_jobs (db w') = seen_jobs (db w) ∧
  drafts (db w') = drafts (db w) ++ new ∧
  Forall2 drafted_for (take (length new) rows) new ∧
  (∀ s', outcome = Return s' →
     length new = length rows ∧
     g_pending_found s' = g_pending_found s ∧
     drafts_created s' = drafts_created s + Z.of_nat (length rows)).
Proof.
revert s w. induction rows as [|entry rows IH]; intros s w.
{ exists (Return s), w, []. rewrite app_nil_r. simpl.
  split_and!; try done.
  intros s' [= <-]. split_and!; [done | done | lia]. }
assert (Hstop : ∀ e, ∃ outcome w' new,
  (@Raise DraftingSummary e, w) = (outcome, w') ∧
  outbox w' = outbox w ∧
  applications (db w') = applications (db w) ∧
  seen_jobs (db w') = seen_jobs (db w) ∧
  drafts (db w') = drafts (db w) ++ new ∧
  Forall2 drafted_for (take (length new) (entry :: rows)) new ∧
  (∀ s', outcome = Return s' →
     length new = length (entry :: rows) ∧
     g_pending_found s' = g_pending_found s ∧
     drafts_created s' = drafts_created s + Z.of_nat (length (entry :: rows)))).
{ intros e. exists (Raise e), w, []. rewrite app_nil_r. simpl.
  by split_and!. }
cbn [draft_loop]. destruct entry as [job | row]; [apply Hstop|].
unfold bind at 1. unfold job_source at 1.
destruct (JobSource_of_value (s_source row)) as [src|] eqn:Hsrc; [|apply Hstop].
unfold ret at 1.
unfold bind at 1. unfold generate_application_email at 1.
unfold bind at 1. unfold utcnow_iso at 1.
unfold bind at 1. unfold call_db at 1.
cbn [db clock_reads llm_calls outbox set_db fst snd title company location
     application_email source source_url].
match goal with |- context [draft_loop _ _ rows ?s1 ?w1] =>
  destruct (IH s1 w1) as (outcome & w' & new & Hrun & Ho & Ha & Hs & Hd & Hnew & Hret)
end.
cbn [db outbox set_db save_draft snd applications seen_jobs drafts] in Ho, Ha, Hs, Hd.
match type of Hd with _ = (_ ++ [?d0]) ++ _ =>
  exists outcome, w', (d0 :: new)
end.
split_and!; try done.
- rewrite Hd. by rewrite <- app_assoc.
- cbn [length take]. constructor; [|done].
  exists row. cbn. split_and!; try done. by apply JobSource_round_trip.
- intros s' Hs'. destruct (Hret s' Hs') as (Hlen & Hp & Hc).
  cbn [length created_incr drafts_created g_pending_found] in *.
  split_and!; [by rewrite Hlen | done | lia].
Qed.

Lemma generate_drafts_unfold config w :
generate_drafts utcnow generate config w =
let summary :=
  {| g_pending_found := Z.of_nat (length (get_pending_jobs (db w)));
     drafts_created := 0 |} in
match pending_candidates (db w) with
| [] => (Return summary, w)
| best => draft_loop utcnow generate best summary w
end.
Proof.
unfold generate_drafts, pending_candidates, bind, ret, write_db, read_db.
cbn [db set_db]. change (init_db (db w)) with (db w). rewrite set_db_same.
cbv zeta. destruct (get_pending_jobs (db w)) as [|r0 rs]; [done|].
by destruct (_pick_best_per_company _ _).
Qed.



End Drafting.

(** X22. [generate_drafts] sends nothing and logs nothing: whatever the
    limits of the configuration, it leaves the outbox, the applications
    and the seen jobs as they are and only appends drafts, each with the
    status ["pending"] and the columns of a selected row, in the order of
    the selection. When it returns, it has saved one draft for every
    selected row and reports their number, next to the number of pending
    jobs. *)
Theorem generate_drafts_only_drafts
    (utcnow : nat → string) (generate : nat → Job → string * string)
    (config : AppConfig) (w : World) :
  ∃ outcome w' new,
    generate_drafts utcnow generate config w = (outcome, w') ∧
    outbox w' = outbox w ∧
    applications (db w') = applications (db w) ∧
    seen_jobs (db w') = seen_jobs (db w) ∧
    drafts (db w') = drafts (db w) ++ new ∧
    Forall2 drafted_for (take (length new) (pending_candidates (db w))) new ∧
    (∀ s, outcome = Eff.Return s →
       g_pending_found s = Z.of_nat (length (get_pending_jobs (db w))) ∧
       drafts_created s = Z.of_nat (length new) ∧
       length new = length (pending_candidates (db w))).
Proof.
  rewrite generate_drafts_unfold. cbv zeta.
  destruct (pending_candidates (db w)) as [|j js] eqn:E.
  - eexists _, w, []. rewrite app_nil_r. split_and!; try done.
    by intros s [= <-].
  - rewrite <- E.
    match goal with |- context [draft_loop _ _ _ ?s0 w] =>
      destruct (draft_loop_spec utcnow generate (pending_candidates (db w)) s0 w)
        as (outcome & w' & new & Hrun & Ho & Ha & Hs & Hd & Hnew & Hret)
    end.
    exists outcome, w', new. split_and!; try done.
    intros s Hs'. destruct (Hret s Hs') as (Hlen & Hp & Hc).
    cbn in Hp, Hc. rewrite Hlen. split_and!; [done | lia | done].
Qed.



(** Of the two jobs at Acme the full-stack one is drafted; the other job
    stays pending, and is not drafted by a second run. *)
Example drafting_three_seen :
  let run := generate_drafts noon canned (limits_of 10 30) three_seen in
  fst run = Eff.Return {| g_pending_found := 3; drafts_created := 2 |} ∧
  d_job_title <$> drafts (db (snd run)) = ["Full Stack Developer"; "Designer"] ∧
  s_title <$> get_pending_jobs (db (snd run)) = ["Backend Developer"] ∧
  fst (generate_drafts noon canned (limits_of 10 30) (snd run))
    = Eff.Return {| g_pending_found := 1; drafts_created := 0 |}.
Proof. by vm_compute. Qed.

(** * Runs of the workflows beyond the claims *)

Section Runs.
Import Eff.
Variable utcnow : nat → string.
Variable generate : nat → Job → string * string.
Variable deliver : nat → string → string → string → bool.
Variable scraped_posts scraped_linkedin scraped_twitter : list Job.

Lemma is_job_seen_mono j job db :
is_job_seen j db = true → is_job_seen j (snd (mark_job_seen job db)) = true.
Proof.
intros H. rewrite mark_job_seen_unfold. simpl.
destruct (is_job_seen job db); [done|].
apply is_job_seen_iff. apply is_job_seen_iff in H.
unfold seen_keys in *. simpl. rewrite fmap_app. apply elem_of_app. by left.
Qed.

Lemma filter_new_marks js new_with_email new_no_email w :
∃ buckets w',
  filter_new js new_with_email new_no_email w = (Return buckets, w') ∧
  outbox w' = outbox w ∧ llm_calls w' = llm_calls w ∧
  applications (db w') = applications (db w) ∧
  drafts (db w') = drafts (db w) ∧
  (∀ j, is_job_seen j (db w) = true → is_job_seen j (db w') = true) ∧
  Forall (λ j, is_job_seen j (db w') = true) js.
Proof.
revert new_with_email new_no_email w.
induction js as [|job js IH]; intros wi wo w.
{ exists (wi, wo), w. by split_and!. }
cbn [filter_new]. unfold bind at 1. unfold read_db at 1.
destruct (is_job_seen job (db w)) eqn:E.
- destruct (IH wi wo w) as (bk & w' & Hrun & Ho & Hl & Ha & Hd & Hmono & Hall).
  exists bk, w'. split_and!; try done. apply Forall_cons. split; [by apply Hmono | done].
- unfold bind at 1. unfold call_db at 1. cbn [fst snd].
  set (w1 := set_db (snd (mark_job_seen job (db w))) w).
  assert (Hw1 : ∀ a b, ∃ buckets w',
    filter_new js a b w1 = (Return buckets, w') ∧
    outbox w' = outbox w ∧ llm_calls w' = llm_calls w ∧
    applications (db w') = applications (db w) ∧
    drafts (db w') = drafts (db w) ∧
    (∀ j, is_job_seen j (db w) = true → is_job_seen j (db w') = true) ∧
    Forall (λ j, is_job_seen j (db w') = true) (job :: js)).
  { intros a b.
    destruct (IH a b w1) as (bk & w' & Hrun & Ho & Hl & Ha & Hd & Hmono & Hall).
    exists bk, w'. subst w1. cbn [db set_db outbox llm_calls] in *.
    rewrite mark_job_seen_unfold in Ha, Hd. rewrite E in Ha, Hd.
    split_and!; try done.
    - intros j Hj. by apply Hmono, is_job_seen_mono.
    - apply Forall_cons. split; [|done]. apply Hmono, is_job_seen_marked. }
  destruct (nonempty (application_email job)); apply Hw1.
Qed.

Lemma apply_loop_dry_run max_this_run jobs n s w :
Forall (λ e, ∃ job, e = IsJob job) jobs →
∃ s' w',
  apply_loop utcnow generate deliver max_this_run true jobs n s w = (Return s', w') ∧
  db w' = db w ∧ outbox w' = outbox w ∧
  applications_failed s' = applications_failed s.
Proof.
intros Hjobs. revert n s w.
induction Hjobs as [|e jobs [job ->] _ IH]; intros n s w.
{ by exists s, w. }
destruct (Z.le_gt_cases max_this_run n) as [Hle | Hlt].
{ exists s, w. split; [by apply apply_loop_break | done]. }
rewrite apply_loop_dry by done.
destruct (IH (n + 1) (sent_incr s) (after_generate w)) as (s' & w' & Hrun & Hdb & Ho & Hf).
by exists s', w'.
Qed.

Lemma pending_loop_dry_run max_this_run rows n s w :
∃ outcome w',
  pending_loop utcnow generate deliver max_this_run true rows n s w = (outcome, w') ∧
  db w' = db w ∧ outbox w' = outbox w.
Proof.
revert n s w. induction rows as [|e rows IH]; intros n s w.
{ by eexists _, w. }
destruct (Z.le_gt_cases max_this_run n) as [Hle | Hlt].
{ eexists _, w. split; [by apply pending_loop_break | done]. }
destruct e as [job | row].
{ cbn [pending_loop]. rewrite (proj2 (Z.leb_gt _ _) Hlt). by eexists _, w. }
destruct (JobSource_of_value (s_source row)) as [src|] eqn:Hsrc.
- rewrite (pending_loop_dry _ _ _ _ _ _ _ _ _ src) by done.
  destruct (IH (n + 1) (p_sent_incr s) (after_generate w)) as (o & w' & Hrun & Hdb & Ho).
  by exists o, w'.
- rewrite pending_loop_raise by done. by eexists _, w.
Qed.

Lemma send_loop_dry_run max_this_run ds n s w :
∃ s',
  send_loop utcnow deliver max_this_run true ds n s w = (Return s', w) ∧
  d_applications_failed s' = d_applications_failed s.
Proof.
revert n s. induction ds as [|d ds IH]; intros n s.
{ by exists s. }
cbn [send_loop]. destruct (max_this_run <=? n); [by exists s|].
destruct (IH (n + 1) (d_sent_incr s)) as (s' & Hrun & Hf). by exists s'.
Qed.

Lemma run_agent_start config dry w :
run_agent utcnow generate deliver scraped_posts scraped_linkedin scraped_twitter
  config dry w
= let w2 := after_clock (after_clock w) in
  let started := utcnow (clock_reads w) in
  let remaining_today :=
    max_applications_per_day (limits config)
    - get_applications_today (utcnow (S (clock_reads w))) (db w) in
  let all_jobs := scraped_posts ++ scraped_linkedin ++ scraped_twitter in
  if remaining_today <=? 0
  then (Return {| started_at := started; jobs_found := 0; jobs_new := 0;
                  jobs_with_email := 0; jobs_no_email := 0;
                  applications_sent := 0; applications_failed := 0;
                  dry_run := dry |}, w2)
  else
    match filter_new all_jobs [] [] w2 with
    | (Return buckets, w3) =>
        let summary :=
          {| started_at := started;
             jobs_found := Z.of_nat (length all_jobs);
             jobs_new := Z.of_nat (length (fst buckets))
                         + Z.of_nat (length (snd buckets));
             jobs_with_email := Z.of_nat (length (fst buckets));
             jobs_no_email := Z.of_nat (length (snd buckets));
             applications_sent := 0; applications_failed := 0;
             dry_run := dry |} in
        match _pick_best_per_company (IsJob <$> fst buckets)
                (get_contacted_companies (db w3)) with
        | [] => (Return summary, w3)
        | best =>
            apply_loop utcnow generate deliver
              (Z.min (max_applications_per_run (limits config)) remaining_today)
              dry best 0 summary w3
        end
    | (Raise e, w3) => (Raise e, w3)
    end.
Proof.
unfold run_agent.
unfold bind at 1. unfold write_db at 1.
unfold bind at 1. unfold utcnow_iso at 1.
unfold bind at 1. unfold applications_today, bind at 1, utcnow_iso, read_db.
cbn [db clock_reads set_db init_db llm_calls outbox].
change (init_db (db w)) with (db w).
change {| db := db w; clock_reads := S (S (clock_reads w));
          llm_calls := llm_calls w; outbox := outbox w |}
  with (after_clock (after_clock w)).
cbv zeta. destruct (_ <=? 0); [done|].
unfold bind at 1.
destruct (filter_new _ [] [] _) as [[bk | e] w3]; [|done].
cbn [fst snd]. destruct (fst bk) as [|j0 l0] eqn:Eb; [done|].
unfold bind at 1. unfold ret. cbv beta.
by destruct (_pick_best_per_company _ _).
Qed.

Lemma update_where_id_hit f id rows d :
d ∈ rows → d_id d = id → f d ∈ update_where_id f id rows.
Proof.
intros Hin Hid. unfold update_where_id. apply list_elem_of_fmap.
exists d. split; [|done]. by rewrite bool_decide_true.
Qed.

Lemma marked_sent_nothing ds w :
NoDup (d_id <$> drafts (db w)) → marked_sent ds w w.
Proof.
intros Hnd. exists [], []. rewrite !app_nil_r. split_and!; try done.
intros draft a Hat. by apply attempt_of_nil in Hat.
Qed.

Lemma send_loop_marks max_this_run ds n s w :
NoDup (d_id <$> drafts (db w)) → NoDup (d_id <$> ds) →
Forall (λ d, d ∈ drafts (db w)) ds →
∃ outcome w',
  send_loop utcnow deliver max_this_run false ds n s w = (outcome, w') ∧
  marked_sent ds w w'.
Proof.
revert n s w. induction ds as [|d rest IH]; intros n s w Hnd Hids Hin.
{ exists (Return s), w. split; [done | by apply marked_sent_nothing]. }
destruct (Z.le_gt_cases max_this_run n) as [Hle | Hlt].
{ exists (Return s), w.
  split; [by apply send_loop_break | by apply marked_sent_nothing]. }
csimpl in Hids. apply NoDup_cons in Hids as [Hd Hids].
apply Forall_cons in Hin as [Hdin Hin].
destruct (deliver (length (outbox w)) (d_recipient_email d) (d_subject d) (d_body d))
  eqn:Hdel.
- destruct (JobSource_of_value (d_source d)) as [source|] eqn:Hsrc.
  + rewrite (send_loop_delivered _ _ _ _ _ _ _ _ source) by done.
    set (app := application_of_draft d source (utcnow (clock_reads w))).
    set (a0 := {| to_email := d_recipient_email d; att_subject := d_subject d;
                  att_body := d_body d; delivered := true |}).
    match goal with |- context [send_loop _ _ _ _ rest _ _ ?x] => set (w2 := x) end.
    assert (Hdr : drafts (db w2)
                  = update_where_id (with_status "sent") (d_id d) (drafts (db w)))
      by done.
    assert (Hap : applications (db w2)
                  = applications (db w) ++ [app_row_of (applications_seq (db w) + 1) app])
      by done.
    assert (How : outbox w2 = outbox w ++ [a0]) by done.
    destruct (IH (n + 1) (d_sent_incr s) w2) as (outcome & w' & Hrun & Hpost).
    { rewrite Hdr. by rewrite update_where_id_ids. }
    { done. }
    { rewrite Hdr. apply Forall_forall. intros r Hr.
      apply update_where_id_other; [by apply (proj1 (Forall_forall _ _) Hin)|].
      intros Heq. apply Hd. rewrite <- Heq. by apply list_elem_of_fmap_2. }
    exists outcome, w'. split; [done|].
    destruct Hpost as (attempts & new_apps & Ho & Ha & Hnd' & Hrows & Hatt).
    exists (a0 :: attempts), (app_row_of (applications_seq (db w) + 1) app :: new_apps).
    split_and!.
    * rewrite Ho, How. by rewrite <- app_assoc.
    * rewrite Ha, Hap. by rewrite <- app_assoc.
    * done.
    * intros x Hx Hxid. csimpl in Hxid. apply not_elem_of_cons in Hxid as [Hne Hxid].
      apply Hrows; [|done]. rewrite Hdr. by apply update_where_id_other.
    * intros draft a Hat Hda Hvalid. apply attempt_of_cons in Hat as [[-> ->] | Hat].
      -- split.
         ++ apply Hrows; [|done]. rewrite Hdr. by apply update_where_id_hit.
         ++ eexists. split; [apply elem_of_cons; by left | done].
      -- destruct (Hatt _ _ Hat Hda Hvalid) as (Hrow & app' & Happ & Hfields).
         split; [done|]. exists app'. split; [apply elem_of_cons; by right | done].
  + rewrite send_loop_raise by done.
    set (a0 := {| to_email := d_recipient_email d; att_subject := d_subject d;
                  att_body := d_body d; delivered := true |}).
    eexists _, _. split; [done|]. exists [a0], [].
    rewrite app_nil_r. split_and!; try done.
    intros draft a Hat Hda Hvalid. apply attempt_of_cons in Hat as [[-> ->] | Hat].
    * rewrite Hsrc in Hvalid. by destruct Hvalid.
    * by apply attempt_of_nil in Hat.
- rewrite send_loop_failed by done.
  set (a0 := {| to_email := d_recipient_email d; att_subject := d_subject d;
                att_body := d_body d; delivered := false |}).
  match goal with |- context [send_loop _ _ _ _ rest _ _ ?x] => set (w1 := x) end.
  destruct (IH n (d_failed_incr s) w1) as (outcome & w' & Hrun & Hpost);
    [done..|].
  exists outcome, w'. split; [done|].
  destruct Hpost as (attempts & new_apps & Ho & Ha & Hnd' & Hrows & Hatt).
  exists (a0 :: attempts), new_apps.
  split_and!.
  + rewrite Ho. simpl. by rewrite <- app_assoc.
  + done.
  + done.
  + intros x Hx Hxid. csimpl in Hxid. apply not_elem_of_cons in Hxid as [Hne Hxid].
    by apply Hrows.
  + intros draft a Hat Hda Hvalid. apply attempt_of_cons in Hat as [[-> ->] | Hat].
    * done.
    * by apply (Hatt draft a).
Qed.

End Runs.

(** X24. A dry run of [run_agent] is not without effect on the store:
    when the daily limit leaves room, it delivers nothing and logs
    nothing, but it records every scraped job as seen. A later run over
    the same scraped jobs, dry or not and under any configuration,
    therefore finds no new job, generates nothing, sends nothing and
    leaves the store as it is. *)
Theorem dry_run_uses_up_new_jobs
    (utcnow : nat → string) (generate : nat → Job → string * string)
    (deliver : nat → string → string → string → bool)
    (scraped_posts scraped_linkedin scraped_twitter : list Job)
    (config : AppConfig) (w : World) :
  get_applications_today (utcnow (S (clock_reads w))) (db w)
    < max_applications_per_day (limits config) →
  ∃ s1 w1,
    run_agent utcnow generate deliver scraped_posts scraped_linkedin scraped_twitter
      config true w = (Eff.Return s1, w1) ∧
    outbox w1 = outbox w ∧
    applications (db w1) = applications (db w) ∧
    drafts (db w1) = drafts (db w) ∧
    Forall (λ j, is_job_seen j (db w1) = true)
      (scraped_posts ++ scraped_linkedin ++ scraped_twitter) ∧
    ∀ config2 dry2, ∃ s2 w2,
      run_agent utcnow generate deliver scraped_posts scraped_linkedin scraped_twitter
        config2 dry2 w1 = (Eff.Return s2, w2) ∧
      jobs_new s2 = 0 ∧ applications_sent s2 = 0 ∧ applications_failed s2 = 0 ∧
      outbox w2 = outbox w1 ∧ llm_calls w2 = llm_calls w1 ∧ db w2 = db w1.
Proof.
  intros Hroom.
  assert (Hfirst : ∃ s1 w1,
    run_agent utcnow generate deliver scraped_posts scraped_linkedin scraped_twitter
      config true w = (Eff.Return s1, w1) ∧
    outbox w1 = outbox w ∧
    applications (db w1) = applications (db w) ∧
    drafts (db w1) = drafts (db w) ∧
    Forall (λ j, is_job_seen j (db w1) = true)
      (scraped_posts ++ scraped_linkedin ++ scraped_twitter)).
  { rewrite run_agent_start. cbv zeta.
    rewrite (proj2 (Z.leb_gt _ _)) by lia.
    destruct (filter_new_marks (scraped_posts ++ scraped_linkedin ++ scraped_twitter)
                [] [] (after_clock (after_clock w)))
      as (bk & w3 & -> & Ho & Hl & Ha & Hd & Hmono & Hall).
    cbn [db after_clock outbox] in *.
    set (best := _pick_best_per_company (IsJob <$> fst bk)
                   (get_contacted_companies (db w3))).
    assert (Hjobs : Forall (λ e, ∃ job, e = IsJob job) best).
    { apply Forall_forall. intros e He. apply pick_best_elem in He.
      apply list_elem_of_fmap in He as (job & -> & _). by exists job. }
    destruct best as [|b0 bs] eqn:Ebest; [by eexists _, w3|].
    match goal with |- context [apply_loop _ _ _ ?m _ ?js ?n ?s0 w3] =>
      destruct (apply_loop_dry_run utcnow generate deliver m js n s0 w3 Hjobs)
        as (s' & w' & Hrun & Hdb & Hout & _)
    end.
    exists s', w'. rewrite Hdb, Hout. by split_and!. }
  destruct Hfirst as (s1 & w1 & Hrun1 & Ho1 & Ha1 & Hd1 & Hseen).
  exists s1, w1. split_and!; try done.
  intros config2 dry2. rewrite run_agent_start. cbv zeta.
  destruct (_ <=? 0); [by eexists _, _|].
  rewrite filter_new_seen by done.
  cbn [fst snd fmap list_fmap _pick_best_per_company fold_left].
  by eexists _, _.
Qed.

Lemma dry_run_uses_up_new_jobs_witness :
  ∃ s1 w1,
    run_agent noon canned always_delivers four_postings [] []
      (limits_of 10 30) true fresh_world = (Eff.Return s1, w1) ∧
    outbox w1 = outbox fresh_world ∧
    applications (db w1) = applications (db fresh_world) ∧
    drafts (db w1) = drafts (db fresh_world) ∧
    Forall (λ j, is_job_seen j (db w1) = true) (four_postings ++ [] ++ []) ∧
    ∀ config2 dry2, ∃ s2 w2,
      run_agent noon canned always_delivers four_postings [] []
        config2 dry2 w1 = (Eff.Return s2, w2) ∧
      jobs_new s2 = 0 ∧ applications_sent s2 = 0 ∧ applications_failed s2 = 0 ∧
      outbox w2 = outbox w1 ∧ llm_calls w2 = llm_calls w1 ∧ db w2 = db w1.
Proof.
  apply (dry_run_uses_up_new_jobs noon canned always_delivers four_postings [] []
           (limits_of 10 30) fresh_world).
  vm_compute. reflexivity.
Defined.

(** X25. A dry run of [send_pending] or of [send_approved_drafts] changes
    neither the store nor the outbox; the dry run over the drafts reads
    the clock once, consults no generator, raises nothing and reports no
    failure. *)
Theorem dry_run_sends_nothing
    (utcnow : nat → string) (generate : nat → Job → string * string)
    (deliver : nat → string → string → string → bool)
    (config : AppConfig) (send_all : bool) (w : World) :
  (∃ outcome w',
     send_pending utcnow generate deliver config true w = (outcome, w') ∧
     db w' = db w ∧ outbox w' = outbox w) ∧
  (∃ summary,
     send_approved_drafts utcnow deliver config send_all true w
       = (Eff.Return summary, after_clock w) ∧
     d_applications_failed summary = 0).
Proof.
  split.
  - unfold send_pending.
    unfold Eff.bind at 1. unfold write_db at 1.
    unfold Eff.bind at 1.
    unfold applications_today, Eff.bind at 1, utcnow_iso, read_db.
    cbn [db clock_reads set_db init_db llm_calls outbox].
    change (init_db (db w)) with (db w).
    destruct (_ <=? 0); [by eexists _, _|].
    unfold Eff.bind at 1. cbv beta. cbn [db].
    destruct (get_pending_jobs (db w)) as [|r0 rs]; [by eexists _, _|].
    unfold Eff.bind at 1. cbv beta. cbn [db].
    destruct (_pick_best_per_company _ _) as [|b0 bs]; [by eexists _, _|].
    match goal with |- context [pending_loop _ _ _ ?m _ ?js ?n ?s0 ?w1] =>
      destruct (pending_loop_dry_run utcnow generate deliver m js n s0 w1)
        as (outcome & w' & Hrun & Hdb & Hout)
    end.
    by exists outcome, w'.
  - rewrite send_approved_drafts_unfold. cbv zeta.
    destruct (_ <=? 0); [by eexists|].
    destruct (_ ++ _); [by eexists|].
    destruct (drafts_to_send send_all (db w)) as [|d0 ds]; [by eexists|].
    match goal with |- context [send_loop _ _ ?m _ ?js ?n ?s0 ?w1] =>
      destruct (send_loop_dry_run utcnow deliver m js n s0 w1) as (s' & Hrun & Hf)
    end.
    exists s'. by rewrite Hrun.
Qed.

(** X26. In a run of [send_approved_drafts] that is not a dry run, a
    draft whose message is delivered and whose source names a job board is
    marked as sent and an application is logged for it: afterwards the
    draft is found with the status ["sent"], its company is among the
    companies sent to, and no later run selects the draft again. *)
Theorem delivered_draft_is_sent
    (utcnow : nat → string) (deliver : nat → string → string → string → bool)
    (config : AppConfig) (send_all : bool) (w : World) :
  NoDup (d_id <$> drafts (db w)) →
  ∃ outcome w' attempts,
    send_approved_drafts utcnow deliver config send_all false w = (outcome, w') ∧
    outbox w' = outbox w ++ attempts ∧
    ∀ draft a, attempt_of (drafts_to_send send_all (db w)) attempts draft a →
      delivered a = true →
      is_Some (JobSource_of_value (d_source draft)) →
      get_draft_by_id (d_id draft) (db w') = Some (with_status "sent" draft) ∧
      lower (d_company draft) ∈ get_sent_companies (db w') ∧
      ∀ send_all2 x, x ∈ drafts_to_send send_all2 (db w') → d_id x ≠ d_id draft.
Proof.
  intros Hnd.
  assert (Hnone : ∀ (s : DraftsSummary) (w1 : World), outbox w1 = outbox w →
    ∃ outcome w' attempts,
      (Eff.Return s, w1) = (outcome, w') ∧
      outbox w' = outbox w ++ attempts ∧
      ∀ draft a, attempt_of (drafts_to_send send_all (db w)) attempts draft a →
        delivered a = true →
        is_Some (JobSource_of_value (d_source draft)) →
        get_draft_by_id (d_id draft) (db w') = Some (with_status "sent" draft) ∧
        lower (d_company draft) ∈ get_sent_companies (db w') ∧
        ∀ send_all2 x, x ∈ drafts_to_send send_all2 (db w') → d_id x ≠ d_id draft).
  { intros s w1 Ho. exists (Eff.Return s), w1, []. rewrite app_nil_r.
    split_and!; try done. intros draft a Hat. by apply attempt_of_nil in Hat. }
  rewrite send_approved_drafts_unfold. cbv zeta.
  destruct (_ <=? 0); [by apply Hnone|].
  destruct (_ ++ _) as [|x0 l0]; [by apply Hnone|].
  pose proof (drafts_to_send_ids send_all (db w) Hnd) as Hids.
  assert (Hall : Forall (λ d, d ∈ drafts (db (after_clock w)))
                   (drafts_to_send send_all (db w))).
  { apply Forall_forall. intros d Hd. by apply drafts_to_send_elem in Hd as [? _]. }
  destruct (drafts_to_send send_all (db w)) as [|d0 ds] eqn:Eds; [by apply Hnone|].
  rewrite <- Eds in *.
  match goal with |- context [send_loop _ _ ?m _ _ ?n ?s0 _] =>
    destruct (send_loop_marks utcnow deliver m (drafts_to_send send_all (db w))
                n s0 (after_clock w) Hnd Hids Hall)
      as (outcome & w' & Hrun & attempts & new_apps & Ho & Ha & Hnd' & Hrows & Hatt)
  end.
  exists outcome, w', attempts. split_and!; [done | done |].
  intros draft a Hat Hda Hvalid.
  destruct (Hatt _ _ Hat Hda Hvalid) as (Hrow & app & Happ & Hc & _).
  assert (Hget : get_draft_by_id (d_id draft) (db w') = Some (with_status "sent" draft)).
  { by apply (find_draft_elem _ (with_status "sent" draft)). }
  split_and!.
  - done.
  - unfold get_sent_companies. rewrite Ha, fmap_app, list_to_set_app.
    apply elem_of_union. right. apply elem_of_list_to_set, list_elem_of_fmap.
    exists app. by rewrite Hc.
  - intros send_all2 x Hx Hid.
    apply drafts_to_send_elem in Hx as [Hx Hst].
    assert (x = with_status "sent" draft) as ->.
    { apply (draft_id_inj (db w')); done. }
    by destruct Hst.
Qed.

Lemma delivered_draft_is_sent_witness :
  ∃ outcome w' attempts,
    send_approved_drafts noon always_delivers (limits_of 10 30) false false two_approved
      = (outcome, w') ∧
    outbox w' = outbox two_approved ++ attempts ∧
    ∀ draft a, attempt_of (drafts_to_send false (db two_approved)) attempts draft a →
      delivered a = true →
      is_Some (JobSource_of_value (d_source draft)) →
      get_draft_by_id (d_id draft) (db w') = Some (with_status "sent" draft) ∧
      lower (d_company draft) ∈ get_sent_companies (db w') ∧
      ∀ send_all2 x, x ∈ drafts_to_send send_all2 (db w') → d_id x ≠ d_id draft.
Proof.
  apply (delivered_draft_is_sent noon always_delivers (limits_of 10 30) false two_approved).
  apply (bool_decide_unpack _). vm_compute. exact I.
Defined.

(** After a dry run the four postings are seen, and the run that follows
    has nothing to apply to; after a real run over two approved drafts
    both are sent and a second run finds none. *)
Example dry_run_then_run :
  let dry := run_agent noon canned always_delivers four_postings [] []
               (limits_of 10 30) true fresh_world in
  let real := run_agent noon canned always_delivers four_postings [] []
                (limits_of 10 30) false (snd dry) in
  (applications_sent <$> (match fst dry with Eff.Return s => Some s | _ => None end))
    = Some 4 ∧
  outbox (snd dry) = [] ∧
  (jobs_found <$> (match fst real with Eff.Return s => Some s | _ => None end))
    = Some 4 ∧
  (jobs_new <$> (match fst real with Eff.Return s => Some s | _ => None end))
    = Some 0 ∧
  outbox (snd real) = [].
Proof. by vm_compute. Qed.

Example drafts_sent_once :
  let first := send_approved_drafts noon always_delivers (limits_of 10 30) false false
                 two_approved in
  let second := send_approved_drafts noon always_delivers (limits_of 10 30) false false
                  (snd first) in
  d_status <$> drafts (db (snd first)) = ["sent"; "sent"] ∧
  length (outbox (snd first)) = 2%nat ∧
  length (outbox (snd second)) = 2%nat.
Proof. by vm_compute. Qed.

(** * The draft commands beyond the claims *)

Section Commands.
Implicit Types (rows : list DraftRow) (d : DraftRow) (id : Z) (db : DB).

Lemma with_status_idem st d : with_status st (with_status st d) = with_status st d.
Proof. done. Qed.


Lemma approve_fold st ds db :
let db' := foldl (λ db d, snd (update_draft_status (d_id d) st db)) db ds in
drafts db'
  = (λ x, if bool_decide (d_id x ∈ d_id <$> ds) then with_status st x else x)
    <$> drafts db ∧
seen_jobs db' = seen_jobs db ∧ applications db' = applications db.
Proof.
cbv zeta. revert db. induction ds as [|d ds IH]; intros db.
{ cbn [foldl]. split_and!; [|done..]. rewrite <- (list_fmap_id (drafts db)) at 1.
  apply Forall_fmap_ext_1, Forall_forall. intros x _. cbn [id].
  rewrite bool_decide_false; [done | rewrite fmap_nil; apply not_elem_of_nil]. }
cbn [foldl]. destruct (IH (snd (update_draft_status (d_id d) st db)))
  as (Hd & Hs & Ha).
rewrite Hd, Hs, Ha. split_and!; [|done..].
cbn [update_draft_status snd set_drafts drafts]. unfold update_where_id.
rewrite <- list_fmap_compose. apply Forall_fmap_ext_1, Forall_forall.
intros x _. cbn [compose]. rewrite fmap_cons.
destruct (decide (d_id x = d_id d)) as [Heq | Hne].
- rewrite (bool_decide_true (d_id x = d_id d)) by done.
  rewrite (bool_decide_true (d_id x ∈ d_id d :: _))
    by (apply elem_of_cons; by left).
  by destruct (bool_decide _).
- rewrite (bool_decide_false (d_id x = d_id d)) by done.
  destruct (decide (d_id x ∈ d_id <$> ds)) as [Hin | Hin].
  + rewrite !bool_decide_true; [done | apply elem_of_cons; by right | done].
  + rewrite !bool_decide_false; [done | | done].
    rewrite elem_of_cons. tauto.
Qed.

Lemma pending_ids db x :
x ∈ drafts db → d_status x = "pending" →
d_id x ∈ d_id <$> get_drafts (Some "pending") db.
Proof.
intros Hin Hst. apply list_elem_of_fmap_2. by apply get_drafts_elem.
Qed.

Lemma no_elements {A} (l : list A) : (∀ x, x ∉ l) → l = [].
Proof.
destruct l as [|x l]; [done|]. intros H. exfalso. apply (H x).
apply elem_of_cons. by left.
Qed.

Lemma approve_all_drafts db :
drafts (snd (Cli.approve_all_drafts_cmd db))
= (λ x, if bool_decide (d_id x ∈ d_id <$> get_drafts (Some "pending") db)
        then with_status "approved" x else x) <$> drafts db ∧
seen_jobs (snd (Cli.approve_all_drafts_cmd db)) = seen_jobs db ∧
applications (snd (Cli.approve_all_drafts_cmd db)) = applications db.
Proof.
unfold Cli.approve_all_drafts_cmd. cbv zeta. change (init_db db) with db.
destruct (get_drafts (Some "pending") db) as [|d0 ds] eqn:E.
- cbn [snd]. split_and!; [|done..]. rewrite <- (list_fmap_id (drafts db)) at 1.
  apply Forall_fmap_ext_1, Forall_forall. intros x _. cbn [id].
  rewrite bool_decide_false; [done | rewrite fmap_nil; apply not_elem_of_nil].
- cbn [snd]. apply approve_fold.
Qed.

End Commands.

(** X27. After [approve_all_drafts_cmd] no draft is pending. The command
    touches the drafts table only; with distinct ids it turns exactly the
    pending drafts into approved ones and leaves every other draft, the
    sent ones among them, as it is. It reports the number of drafts that
    were pending, or that there were none. *)
Theorem approve_all_spec (db : DB) :
  let r := Cli.approve_all_drafts_cmd db in
  (∀ d, d ∈ drafts (snd r) → d_status d ≠ "pending") ∧
  get_drafts (Some "pending") (snd r) = [] ∧
  seen_jobs (snd r) = seen_jobs db ∧ applications (snd r) = applications db ∧
  (fst r = Cli.NoPendingDrafts ↔ ∀ d, d ∈ drafts db → d_status d ≠ "pending") ∧
  (fst r ≠ Cli.NoPendingDrafts →
   fst r = Cli.ApprovedCount
             (Z.of_nat (length (filter (λ d, d_status d = "pending") (drafts db))))) ∧
  (NoDup (d_id <$> drafts db) → drafts (snd r) = approve_if_pending <$> drafts db).
Proof.
  cbv zeta. destruct (approve_all_drafts db) as (Hd & Hs & Ha).
  assert (Hnone : ∀ d, d ∈ drafts (snd (Cli.approve_all_drafts_cmd db)) →
                       d_status d ≠ "pending").
  { intros d Hin. rewrite Hd in Hin.
    apply list_elem_of_fmap in Hin as (x & -> & Hx).
    case_bool_decide as Hid; [done|].
    intros Hst. apply Hid. by apply pending_ids. }
  assert (Hempty : get_drafts (Some "pending") db = [] ↔
                   ∀ d, d ∈ drafts db → d_status d ≠ "pending").
  { split.
    - intros E d Hin Hst.
      assert (H : d ∈ get_drafts (Some "pending") db) by (by apply get_drafts_elem).
      rewrite E in H. by apply elem_of_nil in H.
    - intros H. apply no_elements. intros d Hd'.
      apply get_drafts_elem in Hd' as [Hin Hst]; [|done]. by apply (H d). }
  split_and!; try done.
  - apply no_elements. intros d Hin.
    apply get_drafts_elem in Hin as [Hin Hst]; [|done]. by apply (Hnone d).
  - rewrite <- Hempty. unfold Cli.approve_all_drafts_cmd. cbv zeta.
    change (init_db db) with db.
    by destruct (get_drafts (Some "pending") db).
  - unfold Cli.approve_all_drafts_cmd. cbv zeta. change (init_db db) with db.
    destruct (get_drafts (Some "pending") db) as [|d0 ds] eqn:E; [done|].
    intros _. cbn [fst]. rewrite <- E. do 2 f_equal.
    unfold get_drafts, order_by_desc. cbn [nonempty].
    by rewrite merge_sort_Permutation.
  - intros Hnd. rewrite Hd. apply Forall_fmap_ext_1, Forall_forall.
    intros x Hx. unfold approve_if_pending.
    destruct (decide (d_status x = "pending")) as [Hst | Hst].
    + rewrite (bool_decide_true (d_status x = "pending")) by done.
      by rewrite bool_decide_true by (by apply pending_ids).
    + rewrite (bool_decide_false (d_status x = "pending")) by done.
      rewrite bool_decide_false; [done|]. intros Hin.
      apply list_elem_of_fmap in Hin as (y & Hid & Hy).
      apply get_drafts_elem in Hy as [Hy Hsty]; [|done].
      apply Hst. by rewrite (draft_id_inj db x y Hnd Hx Hy Hid).
Qed.


(** X29. Approving a draft that is not sent makes it one of the approved
    drafts. Discarding it takes it out of every later sending run and, when
    nothing else was written to the company, makes the company contactable
    again; its job, however, stays out of the pending jobs, since a draft
    of any status keeps it out. *)
Theorem approve_and_discard_effects (db : DB) (d : DraftRow) :
  NoDup (d_id <$> drafts db) → d ∈ drafts db → d_status d ≠ "sent" →
  let approved := Cli.approve_drafts_cmd [d_id d] db in
  let discarded := Cli.discard_drafts_cmd [d_id d] db in
  fst approved = [Cli.Approved (d_id d) (d_job_title d) (d_company d)] ∧
  with_status "approved" d ∈ get_drafts (Some "approved") (snd approved) ∧
  fst discarded = [Cli.Discarded (d_id d) (d_job_title d) (d_company d)] ∧
  get_draft_by_id (d_id d) (snd discarded) = Some (with_status "discarded" d) ∧
  (∀ send_all x, x ∈ drafts_to_send send_all (snd discarded) → d_id x ≠ d_id d) ∧
  get_pending_jobs (snd discarded) = get_pending_jobs db ∧
  ((∀ a, a ∈ applications db → lower (a_company a) ≠ lower (d_company d)) →
   (∀ x, x ∈ drafts db → d_id x ≠ d_id d → d_status x ≠ "discarded" →
         lower (d_company x) ≠ lower (d_company d)) →
   lower (d_company d) ∉ get_contacted_companies (snd discarded)).
Proof.
  intros Hnd Hin Hsent.
  assert (Hget : get_draft_by_id (d_id d) db = Some d) by (by apply find_draft_elem).
  cbv zeta. unfold Cli.approve_drafts_cmd, Cli.discard_drafts_cmd.
  change (init_db db) with db. cbn [Cli.approve_each Cli.discard_each].
  rewrite Hget, (bool_decide_false _ Hsent). cbn [fst snd].
  assert (Hlook : ∀ st, get_draft_by_id (d_id d)
                          (snd (update_draft_status (d_id d) st db))
                        = Some (with_status st d)).
  { intros st. unfold get_draft_by_id in *. cbn [update_draft_status snd set_drafts drafts].
    rewrite find_draft_update by done. by rewrite Hget. }
  assert (Hids : ∀ st, NoDup (d_id <$> drafts (snd (update_draft_status (d_id d) st db)))).
  { intros st. cbn [update_draft_status snd set_drafts drafts].
    by rewrite update_where_id_ids. }
  split_and!; try done.
  - apply get_drafts_elem; [done|]. split; [|done].
    specialize (Hlook "approved"). by apply find_draft_Some in Hlook as [? _].
  - intros send_all x Hx Hid. apply drafts_to_send_elem in Hx as [Hx Hst].
    pose proof (find_draft_elem _ _ (Hids "discarded") Hx) as Hfound.
    rewrite Hid in Hfound. fold (get_draft_by_id (d_id d)
      (snd (update_draft_status (d_id d) "discarded" db))) in Hfound.
    rewrite Hlook in Hfound. injection Hfound as <-. by destruct Hst.
  - by apply get_pending_jobs_update.
  - intros Happs Hothers Hc. apply contacted_elem in Hc as [(a & Ha & Hk) | (x & Hx & Hst & Hk)].
    + by apply (Happs a).
    + cbn [update_draft_status snd set_drafts drafts] in Hx.
      unfold update_where_id in Hx. apply list_elem_of_fmap in Hx as (y & -> & Hy).
      destruct (decide (d_id y = d_id d)) as [Heq | Hne].
      * rewrite (bool_decide_true _ Heq) in Hst. by apply Hst.
      * rewrite (bool_decide_false _ Hne) in Hst, Hk. by apply (Hothers y).
Qed.

Lemma approve_and_discard_effects_witness :
  let d := draft_with 1 "linkedin:1" "Acme" "pending" "2024-05-01T10:00:00" in
  let approved := Cli.approve_drafts_cmd [d_id d] mixed_store in
  let discarded := Cli.discard_drafts_cmd [d_id d] mixed_store in
  fst approved = [Cli.Approved (d_id d) (d_job_title d) (d_company d)] ∧
  with_status "approved" d ∈ get_drafts (Some "approved") (snd approved) ∧
  fst discarded = [Cli.Discarded (d_id d) (d_job_title d) (d_company d)] ∧
  get_draft_by_id (d_id d) (snd discarded) = Some (with_status "discarded" d) ∧
  (∀ send_all x, x ∈ drafts_to_send send_all (snd discarded) → d_id x ≠ d_id d) ∧
  get_pending_jobs (snd discarded) = get_pending_jobs mixed_store ∧
  ((∀ a, a ∈ applications mixed_store → lower (a_company a) ≠ lower (d_company d)) →
   (∀ x, x ∈ drafts mixed_store → d_id x ≠ d_id d → d_status x ≠ "discarded" →
         lower (d_company x) ≠ lower (d_company d)) →
   lower (d_company d) ∉ get_contacted_companies (snd discarded)).
Proof.
  apply (approve_and_discard_effects mixed_store
           (draft_with 1 "linkedin:1" "Acme" "pending" "2024-05-01T10:00:00")).
  - apply (bool_decide_unpack _). vm_compute. exact I.
  - apply elem_of_cons. left. reflexivity.
  - discriminate.
Defined.

(** Approving all drafts of the mixed store, editing one with an empty
    subject and a body file, and a discarded draft that still keeps its
    job from being pending. *)
Example approve_all_mixed :
  fst (Cli.approve_all_drafts_cmd mixed_store) = Cli.ApprovedCount 1 ∧
  d_status <$> drafts (snd (Cli.approve_all_drafts_cmd mixed_store))
    = ["approved"; "discarded"; "approved"].
Proof. by vm_compute. Qed.

Example edit_with_empty_subject :
  let r := Cli.edit_draft_cmd 1 (Some EmptyString) (Some "  Dear team  ") mixed_store in
  fst r = Cli.Updated 1 None true ∧
  (λ d, (d_subject d, d_body d)) <$> get_draft_by_id 1 (snd r)
    = Some ("Application", "Dear team") ∧
  fst (Cli.edit_draft_cmd 1 None (Some " Hello ") mixed_store) = Cli.NoChanges.
Proof. by vm_compute. Qed.

Example discarded_draft_blocks_job :
  let db' := snd (Cli.discard_drafts_cmd [1] mixed_store) in
  s_company <$> get_pending_jobs mixed_store = ["Wayne"] ∧
  s_company <$> get_pending_jobs db' = ["Wayne"] ∧
  bool_decide ("acme" ∈ get_contacted_companies mixed_store) = true ∧
  bool_decide ("acme" ∈ get_contacted_companies db') = false.
Proof. by vm_compute. Qed.

(** * The remote filter of the scrapers *)

Section RemoteFilter.

Lemma any_in_app_r kws s t : any_in kws t = true → any_in kws (s +:+ t) = true.
Proof.
unfold any_in. rewrite !existsb_exists. intros (kw & Hin & H).
exists kw. split; [done | by apply str_in_app_r].
Qed.

Lemma any_in_witness kws s :
any_in kws s = true ↔ ∃ kw, kw ∈ kws ∧ str_in kw s = true.
Proof.
unfold any_in. rewrite existsb_exists. split.
- intros (kw & Hin & H). exists kw. split; [by apply list_elem_of_In | done].
- intros (kw & Hin & H). exists kw. split; [by apply list_elem_of_In | done].
Qed.

Lemma remote_combined location description :
lower (location +:+ " " +:+ description)
= lower location +:+ " " +:+ lower description.
Proof. by rewrite !lower_app. Qed.

Lemma is_remote_friendly_unfold location description :
Scrapers.is_remote_friendly location description
= any_in Scrapers.REMOTE_KEYWORDS (lower location +:+ " " +:+ lower description)
  || any_in home_places (lower location).
Proof.
unfold Scrapers.is_remote_friendly. cbv zeta. rewrite remote_combined.
destruct (any_in Scrapers.REMOTE_KEYWORDS _); [done|].
by destruct (any_in _ (lower location)).
Qed.

End RemoteFilter.

(** X30. [is_remote_friendly] accepts a job as soon as one of the remote
    keywords occurs in the location or in the description, in any letter
    case, or one of the home places occurs in the location; a description
    can only add to what the location alone earns. A job that is rejected
    has no remote keyword in either text and no home place in its
    location, whatever its description says about places. *)
Theorem remote_friendly_spec (location description : string) :
  (∀ kw, kw ∈ Scrapers.REMOTE_KEYWORDS →
     str_in kw (lower location) = true ∨ str_in kw (lower description) = true →
     Scrapers.is_remote_friendly location description = true) ∧
  (∀ place, place ∈ home_places → str_in place (lower location) = true →
     Scrapers.is_remote_friendly location description = true) ∧
  (Scrapers.is_remote_friendly location EmptyString = true →
   Scrapers.is_remote_friendly location description = true) ∧
  (Scrapers.is_remote_friendly location description = false →
   any_in Scrapers.REMOTE_KEYWORDS (lower location) = false ∧
   any_in Scrapers.REMOTE_KEYWORDS (lower description) = false ∧
   any_in home_places (lower location) = false).
Proof.
  rewrite !is_remote_friendly_unfold. split_and!.
  - intros kw Hkw [H | H]; apply orb_true_iff; left; apply (any_in_elem _ kw); try done.
    + by apply str_in_app_l.
    + by apply str_in_app_r, str_in_app_r.
  - intros place Hp H. apply orb_true_iff. right. by apply (any_in_elem _ place).
  - rewrite !orb_true_iff. intros [H | H]; [left | by right].
    change (lower EmptyString) with EmptyString in H. rewrite append_nil_r in H.
    rewrite <- append_assoc. by apply any_in_app_l.
  - intros H. apply orb_false_iff in H as [Hkw Hplace].
    split_and!; [| | done]; apply not_true_iff_false; intros Hin;
      apply not_true_iff_false in Hkw; apply Hkw.
    + by apply any_in_app_l.
    + by apply any_in_app_r, any_in_app_r.
Qed.

(** A place in the description alone does not count, and neither does a
    link that only resembles a post. *)
Example remote_examples :
  Scrapers.is_remote_friendly "Berlin, Germany" "Fully REMOTE team" = true ∧
  Scrapers.is_remote_friendly "Karachi, Sindh" EmptyString = true ∧
  Scrapers.is_remote_friendly "Berlin, Germany" "Our founders are from Karachi" = false ∧
  Scrapers._is_linkedin_post_url "https://www.LinkedIn.com/posts/acme_hiring-123" = true ∧
  Scrapers._is_linkedin_post_url "https://www.linkedin.com/jobs/view/123" = false.
Proof. by vm_compute. Qed.
